(** * swipehistory: the achievement lookup route and its fetch client

    A shallow embedding of [src/app/api/achievement/route.ts] (the [GET]
    handler with its process-wide [YEAR_CACHE], [coerceToStringArray] and
    [normalizeItem]) and of the [Achievement] component's data-fetching
    effect, followed by the properties the specification states about them.

    JavaScript strings are sequences of UTF-16 code units; they are modelled
    as [list N].  Integer-valued JavaScript numbers are modelled as [Z]. *)

From Stdlib Require Import ZArith NArith List Ascii String Lia Bool.
From stdpp Require Import gmap list.

Local Open Scope N_scope.
Set Warnings "-register-all".

(** ** JavaScript strings *)

Abbreviation jsstring := (list N).

Definition ch (a : ascii) : N := N_of_ascii a.
Arguments ch a%_char : simpl never.

(** U+0022 QUOTATION MARK and U+005C REVERSE SOLIDUS. *)
Definition dquote : N := 34.
Definition backslash : N := 92.

(** An ASCII literal as a sequence of code units. *)
Fixpoint lit (s : string) : jsstring :=
  match s with
  | EmptyString => []
  | String a s' => N_of_ascii a :: lit s'
  end.
Arguments lit s%_string.

(** The same, with every apostrophe standing for a double quote (U+0022):
    [litq "['A']"] is the JavaScript string [["A"]]. *)
Definition requote (c : N) : N := if c =? 39 then dquote else c.
Definition litq (s : string) : jsstring := map requote (lit s).
Arguments litq s%_string.


(** U+2022 BULLET, the non-ASCII character of the source's regular
    expressions. *)
Definition bullet : N := 8226.

Definition char_is (c : N) : N → bool := fun d => d =? c.

(** [\d]: the ASCII digits. *)
Definition is_digit (c : N) : bool := (48 <=? c) && (c <=? 57).

(** [\s], and the characters removed by [String.prototype.trim] and skipped
    by [parseInt]: ECMAScript WhiteSpace and LineTerminator. *)
Definition is_space (c : N) : bool :=
  (c =? 9) || (c =? 10) || (c =? 11) || (c =? 12) || (c =? 13) || (c =? 32)
  || (c =? 160) || (c =? 5760) || ((8192 <=? c) && (c <=? 8202))
  || (c =? 8232) || (c =? 8233) || (c =? 8239) || (c =? 8287)
  || (c =? 12288) || (c =? 65279).

Fixpoint trimStart (s : jsstring) : jsstring :=
  match s with
  | c :: s' => if is_space c then trimStart s' else s
  | [] => []
  end.

Definition trimEnd (s : jsstring) : jsstring := rev (trimStart (rev s)).

(** [s.trim()] *)
Definition trim (s : jsstring) : jsstring := trimEnd (trimStart s).

(** [Boolean(s)] for a string: the empty string is the only falsy one. *)
Definition truthy (s : jsstring) : bool :=
  match s with [] => false | _ :: _ => true end.

(** [a.slice(0, n)] *)
Definition slice0 {A} (n : nat) (a : list A) : list A := take n a.

(** ** Regular expressions

    The fragment of ECMAScript regular expressions that the three literals
    of the source use: one-code-unit atoms (a literal, [\d], [\s], a class),
    sequence, alternation, greedy [*] and [?] on an atom, and [^] (no [m]
    flag).  Matching is the backtracking semantics of the language
    specification: alternatives left to right, quantifiers greedy. *)

Inductive regex : Type :=
| RChar (p : N → bool)
| RSeq (r1 r2 : regex)
| RAlt (r1 r2 : regex)
| RStar (p : N → bool)
| ROpt (p : N → bool)
| RBol.

(** [a+] *)
Definition RPlus (p : N → bool) : regex := RSeq (RChar p) (RStar p).

Definition first_some {A} (x y : option A) : option A :=
  match x with Some _ => x | None => y end.

Section Matcher.
Context {A : Type}.

(** The continuation receives the index reached and the rest of the input. *)
Definition cont := nat → jsstring → option A.

Fixpoint star_loop (p : N → bool) (k : cont) (i : nat) (s : jsstring) : option A :=
  match s with
  | c :: s' =>
      if p c then first_some (star_loop p k (S i) s') (k i s) else k i s
  | [] => k i s
  end.

Fixpoint rmatch (r : regex) (k : cont) (i : nat) (s : jsstring) : option A :=
  match r with
  | RChar p =>
      match s with
      | c :: s' => if p c then k (S i) s' else None
      | [] => None
      end
  | RSeq r1 r2 => rmatch r1 (rmatch r2 k) i s
  | RAlt r1 r2 => first_some (rmatch r1 k i s) (rmatch r2 k i s)
  | RStar p => star_loop p k i s
  | ROpt p =>
      match s with
      | c :: s' => if p c then first_some (k (S i) s') (k i s) else k i s
      | [] => k i s
      end
  | RBol => if Nat.eqb i 0 then k i s else None
  end.
End Matcher.

(** A match of [r] starting exactly at index [i], where [s] is the input from
    [i] on; the result is the input left after the match. *)
Definition match_at (r : regex) (i : nat) (s : jsstring) : option jsstring :=
  rmatch r (fun _ rest => Some rest) i s.

(** What a match starting at [s] consumed, given what it left. *)
Definition consumed (s rest : jsstring) : jsstring :=
  take (length s - length rest)%nat s.

(** [RegExp.prototype.exec] without [g] or [y]: the leftmost start index at
    which the pattern matches.  The result is the text before the match, the
    match, and the text after it. *)
Fixpoint exec_from (r : regex) (i : nat) (before : jsstring) (s : jsstring)
  : option (jsstring * jsstring * jsstring) :=
  match match_at r i s with
  | Some rest => Some (rev before, consumed s rest, rest)
  | None =>
      match s with
      | c :: s' => exec_from r (S i) (c :: before) s'
      | [] => None
      end
  end.

Definition exec (r : regex) (s : jsstring) := exec_from r 0 [] s.

(** [s.match(r)] for a non-global [r]: element 0 of the result, or [None]
    for [null]. *)
Definition String_match (r : regex) (s : jsstring) : option jsstring :=
  match exec r s with
  | Some (_, m, _) => Some m
  | None => None
  end.

(** [s.replace(r, e)] for a non-global [r] and the empty string [e]: the
    first match is removed. *)
Definition String_replace_empty (r : regex) (s : jsstring) : jsstring :=
  match exec r s with
  | Some (before, _, after) => before ++ after
  | None => s
  end.

(** [s.split(r)] without a limit, for an [r] without capture groups
    (RegExp.prototype[Symbol.split]).  [piece] holds, reversed, the text
    since the last separator; [skip] counts the code units of the current
    separator still to pass over.  An empty match directly after a separator
    (or at index 0) does not split. *)
Fixpoint split_loop (r : regex) (i : nat) (skip : nat) (piece : jsstring)
    (s : jsstring) : list jsstring :=
  match s with
  | [] => [rev piece]
  | c :: s' =>
      match skip with
      | S n => split_loop r (S i) n piece s'
      | O =>
          match match_at r i s with
          | None => split_loop r (S i) 0 (c :: piece) s'
          | Some rest =>
              match (length s - length rest)%nat with
              | O =>
                  match piece with
                  | [] => split_loop r (S i) 0 [c] s'
                  | _ :: _ => rev piece :: split_loop r (S i) 0 [c] s'
                  end
              | S n => rev piece :: split_loop r (S i) n [] s'
              end
          end
      end
  end.

Definition String_split (r : regex) (s : jsstring) : list jsstring :=
  match s with
  | [] => match match_at r 0 [] with Some _ => [] | None => [ [] ] end
  | _ :: _ => split_loop r 0 0 [] s
  end.

(** ** [JSON.parse]

    The JSON grammar of ECMA-404, as [JSON.parse] reads it.  A number keeps
    its lexeme (its value is never looked at by the route); an object keeps
    its members in source order. *)

Inductive json : Type :=
| JNull
| JBool (b : bool)
| JNumber (lexeme : jsstring)
| JString (s : jsstring)
| JArray (elems : list json)
| JObject (members : list (jsstring * json)).

(** The result of a parser: a value and the rest of the input, a syntax
    error, or recursion fuel exhausted. *)
Inductive presult (A : Type) : Type :=
| POk (a : A) (rest : jsstring)
| PErr
| PFuel.
Arguments POk {A} a rest.
Arguments PErr {A}.
Arguments PFuel {A}.

Definition is_json_ws (c : N) : bool :=
  (c =? 9) || (c =? 10) || (c =? 13) || (c =? 32).

Fixpoint skip_ws (s : jsstring) : jsstring :=
  match s with
  | c :: s' => if is_json_ws c then skip_ws s' else s
  | [] => []
  end.

Definition hex_digit (c : N) : option N :=
  if is_digit c then Some (c - 48)
  else if (97 <=? c) && (c <=? 102) then Some (c - 87)
  else if (65 <=? c) && (c <=? 70) then Some (c - 55)
  else None.

Definition hex4 (a b c d : N) : option N :=
  match hex_digit a, hex_digit b, hex_digit c, hex_digit d with
  | Some x, Some y, Some z, Some w => Some (((x * 16 + y) * 16 + z) * 16 + w)
  | _, _, _, _ => None
  end.

(** The character a two-character escape stands for. *)
Definition simple_escape (e : N) : option N :=
  if e =? dquote then Some dquote
  else if e =? backslash then Some backslash
  else if e =? ch "/" then Some (ch "/")
  else if e =? ch "b" then Some 8
  else if e =? ch "f" then Some 12
  else if e =? ch "n" then Some 10
  else if e =? ch "r" then Some 13
  else if e =? ch "t" then Some 9
  else None.

(** The characters of a string literal after its opening quote, up to and
    including the closing quote.  [acc] is the decoded text so far,
    reversed. *)
Fixpoint parse_string_body (acc : jsstring) (s : jsstring)
  : option (jsstring * jsstring) :=
  match s with
  | [] => None
  | c :: s' =>
      if c =? dquote then Some (rev acc, s')
      else if c =? backslash then
        match s' with
        | [] => None
        | e :: s'' =>
            if e =? ch "u" then
              match s'' with
              | h1 :: h2 :: h3 :: h4 :: s''' =>
                  match hex4 h1 h2 h3 h4 with
                  | Some u => parse_string_body (u :: acc) s'''
                  | None => None
                  end
              | _ => None
              end
            else
              match simple_escape e with
              | Some u => parse_string_body (u :: acc) s''
              | None => None
              end
        end
      else if c <? 32 then None
      else parse_string_body (c :: acc) s'
  end.

Fixpoint span_digits (s : jsstring) : jsstring * jsstring :=
  match s with
  | c :: s' =>
      if is_digit c then let '(ds, r) := span_digits s' in (c :: ds, r)
      else ([], s)
  | [] => ([], [])
  end.

(** One or more digits. *)
Definition digits1 (s : jsstring) : option (jsstring * jsstring) :=
  match span_digits s with
  | ([], _) => None
  | (ds, r) => Some (ds, r)
  end.

(** [0], or a digit from 1 to 9 followed by digits. *)
Definition parse_int_part (s : jsstring) : option (jsstring * jsstring) :=
  match s with
  | c :: s' =>
      if c =? ch "0" then Some ([c], s')
      else if is_digit c then
        let '(ds, r) := span_digits s' in Some (c :: ds, r)
      else None
  | [] => None
  end.

(** An optional fraction.  A [.] that no digit follows is an error here;
    no JSON text has a [.] directly after a complete value. *)
Definition parse_frac (s : jsstring) : option (jsstring * jsstring) :=
  match s with
  | c :: s' =>
      if c =? ch "." then
        '(ds, r) ← digits1 s'; Some (c :: ds, r)
      else Some ([], s)
  | [] => Some ([], [])
  end.

(** An optional exponent, with the same remark. *)
Definition parse_exp (s : jsstring) : option (jsstring * jsstring) :=
  match s with
  | c :: s' =>
      if (c =? ch "e") || (c =? ch "E") then
        let '(sign, s'') :=
          match s' with
          | d :: t => if (d =? ch "+") || (d =? ch "-") then ([d], t) else ([], s')
          | [] => ([], s')
          end in
        '(ds, r) ← digits1 s''; Some (c :: sign ++ ds, r)
      else Some ([], s)
  | [] => Some ([], [])
  end.

Definition parse_number (s : jsstring) : option (jsstring * jsstring) :=
  let '(sign, s1) :=
    match s with
    | c :: s' => if c =? ch "-" then ([c], s') else ([], s)
    | [] => ([], s)
    end in
  '(i, s2) ← parse_int_part s1;
  '(f, s3) ← parse_frac s2;
  '(e, s4) ← parse_exp s3;
  Some (sign ++ i ++ f ++ e, s4).

(** [strip_prefix p s] is what follows [p] in [s], when [s] starts with
    [p]. *)
Fixpoint strip_prefix (p s : jsstring) : option jsstring :=
  match p, s with
  | [], _ => Some s
  | a :: p', b :: s' => if a =? b then strip_prefix p' s' else None
  | _ :: _, [] => None
  end.

Definition parse_literal (s : jsstring) : presult json :=
  match strip_prefix (lit "true") s with
  | Some r => POk (JBool true) r
  | None =>
      match strip_prefix (lit "false") s with
      | Some r => POk (JBool false) r
      | None =>
          match strip_prefix (lit "null") s with
          | Some r => POk JNull r
          | None => PErr
          end
      end
  end.

(** A value at the head of [s] (white space already skipped);
    [parse_elements] reads the elements of an array from its first value to
    the closing bracket, [parse_members] the members of an object from its
    first key to the closing brace. *)
Fixpoint parse_value (fuel : nat) (s : jsstring) : presult json :=
  match fuel with
  | O => PFuel
  | S f =>
      match s with
      | [] => PErr
      | c :: s' =>
          if c =? ch "[" then
            match skip_ws s' with
            | [] => PErr
            | d :: s'' =>
                if d =? ch "]" then POk (JArray []) s''
                else parse_elements f [] (d :: s'')
            end
          else if c =? ch "{" then
            match skip_ws s' with
            | [] => PErr
            | d :: s'' =>
                if d =? ch "}" then POk (JObject []) s''
                else parse_members f [] (d :: s'')
            end
          else if c =? dquote then
            match parse_string_body [] s' with
            | Some (str, rest) => POk (JString str) rest
            | None => PErr
            end
          else if (c =? ch "-") || is_digit c then
            match parse_number s with
            | Some (lexeme, rest) => POk (JNumber lexeme) rest
            | None => PErr
            end
          else parse_literal s
      end
  end
with parse_elements (fuel : nat) (acc : list json) (s : jsstring)
  : presult json :=
  match fuel with
  | O => PFuel
  | S f =>
      match parse_value f s with
      | POk v rest =>
          match skip_ws rest with
          | [] => PErr
          | d :: rest' =>
              if d =? ch "," then parse_elements f (v :: acc) (skip_ws rest')
              else if d =? ch "]" then POk (JArray (rev (v :: acc))) rest'
              else PErr
          end
      | PErr => PErr
      | PFuel => PFuel
      end
  end
with parse_members (fuel : nat) (acc : list (jsstring * json)) (s : jsstring)
  : presult json :=
  match fuel with
  | O => PFuel
  | S f =>
      match s with
      | [] => PErr
      | q :: s1 =>
          if q =? dquote then
            match parse_string_body [] s1 with
            | None => PErr
            | Some (key, s2) =>
                match skip_ws s2 with
                | [] => PErr
                | colon :: s3 =>
                    if colon =? ch ":" then
                      match parse_value f (skip_ws s3) with
                      | POk v rest =>
                          match skip_ws rest with
                          | [] => PErr
                          | d :: rest' =>
                              if d =? ch "," then
                                parse_members f ((key, v) :: acc) (skip_ws rest')
                              else if d =? ch "}" then
                                POk (JObject (rev ((key, v) :: acc))) rest'
                              else PErr
                          end
                      | PErr => PErr
                      | PFuel => PFuel
                      end
                    else PErr
                end
            end
          else PErr
      end
  end.

(** Recursion fuel that no text exhausts (lemma [parse_value_fuel]). *)
Definition json_fuel (text : jsstring) : nat := S (2 * length text).

(** [JSON.parse(text)]: [None] stands for the [SyntaxError] it throws. *)
Definition JSON_parse (text : jsstring) : option json :=
  match parse_value (json_fuel text) (skip_ws text) with
  | POk v rest =>
      match skip_ws rest with
      | [] => Some v
      | _ :: _ => None
      end
  | PErr | PFuel => None
  end.

(** ** The route: [normalizeItem] and [coerceToStringArray] *)

(** [/^\d+\.|^[\-•]\s*/] *)
Definition re_marker : regex :=
  RAlt (RSeq RBol (RSeq (RPlus is_digit) (RChar (char_is (ch ".")))))
       (RSeq RBol
          (RSeq (RChar (fun c => (c =? ch "-") || (c =? bullet)))
                (RStar is_space))).

(** [/\[[\s\S]*\]/] *)
Definition re_array : regex :=
  RSeq (RChar (char_is (ch "[")))
       (RSeq (RStar (fun c => is_space c || negb (is_space c)))
             (RChar (char_is (ch "]")))).

(** [/\r?\n|•|-\s+/] *)
Definition re_separator : regex :=
  RAlt (RSeq (ROpt (char_is 13)) (RChar (char_is 10)))
       (RAlt (RChar (char_is bullet))
             (RSeq (RChar (char_is (ch "-"))) (RPlus is_space))).

Definition normalizeItem (s : jsstring) : jsstring :=
  trim (String_replace_empty re_marker s).

(** [parsed.filter((v) => typeof v === "string")]: the elements that are
    strings, in order. *)
Definition string_elements (parsed : list json) : list jsstring :=
  omap (fun v => match v with JString s => Some s | _ => None end) parsed.

(** [JSON.parse(s)] inside [try { ... } catch {}], followed by the
    [Array.isArray] test: the elements of the array, or [None] when the
    parse throws or yields something else. *)
Definition parse_array (s : jsstring) : option (list json) :=
  match JSON_parse s with
  | Some (JArray parsed) => Some parsed
  | _ => None
  end.

Definition coerce_fallback (text : jsstring) : list jsstring :=
  slice0 10
    (map normalizeItem
       (List.filter truthy (map trim (String_split re_separator text)))).

Definition coerceToStringArray (text : jsstring) : list jsstring :=
  match parse_array text with
  | Some parsed => map normalizeItem (string_elements parsed)
  | None =>
      match String_match re_array text with
      | Some m0 =>
          match parse_array m0 with
          | Some parsed => map normalizeItem (string_elements parsed)
          | None => coerce_fallback text
          end
      | None => coerce_fallback text
      end
  end.

(** ** Numbers and [Number.parseInt]

    The numbers of the route are integer-valued doubles, NaN or an infinity.
    [Num z] is the double whose value is the integer [z]; negative zero is
    identified with zero, which every use in the route ([< 0], the [Map] key
    comparison, the response body, the prompt) treats alike. *)

Inductive number : Type :=
| NaN
| Infinity (negative : bool)
| Num (z : Z).

(** The double nearest to the natural number [m], ties to even; [None] when
    that is an infinity. *)
Definition round_to_double (m : Z) : option Z :=
  if (m <? 2 ^ 53)%Z then Some m
  else
    let e := (Z.log2 m - 52)%Z in
    let q := Z.shiftr m e in
    let r := (m - Z.shiftl q e)%Z in
    let half := Z.shiftl 1 (e - 1) in
    let q' := if (half <? r)%Z || ((r =? half)%Z && Z.odd q) then (q + 1)%Z else q in
    let v := Z.shiftl q' e in
    if (v <? 2 ^ 1024)%Z then Some v else None.

Fixpoint digits_value (acc : Z) (ds : jsstring) : Z :=
  match ds with
  | [] => acc
  | d :: ds' => digits_value (10 * acc + Z.of_N (d - 48))%Z ds'
  end.

(** The sign step of [parseInt]: whether a leading [-] was read, and the
    text after the sign. *)
Definition strip_sign (s : jsstring) : bool * jsstring :=
  match s with
  | c :: s' =>
      if c =? ch "-" then (true, s')
      else if c =? ch "+" then (false, s')
      else (false, s)
  | [] => (false, s)
  end.

(** [Number.parseInt(s, 10)]: leading white space is skipped, a sign is
    read, then the longest run of decimal digits; what follows the digits is
    ignored.  The result is the double nearest to the integer the digits
    denote (past the twentieth significant digit the language lets an
    implementation read the digits as zeros; the exact value is taken
    here). *)
Definition parseInt10 (s : jsstring) : number :=
  let '(negative, s1) := strip_sign (trimStart s) in
  match fst (span_digits s1) with
  | [] => NaN
  | ds =>
      match round_to_double (digits_value 0 ds) with
      | Some v => Num (if negative then - v else v)
      | None => Infinity negative
      end
  end.

Definition Number_isFinite (x : number) : bool :=
  match x with Num _ => true | _ => false end.

(** [x < 0] *)
Definition lt_zero (x : number) : bool :=
  match x with
  | Num z => (z <? 0)%Z
  | Infinity negative => negative
  | NaN => false
  end.

(** ** The route: [GET] *)

Definition GEMINI_ENDPOINT : jsstring :=
  lit "https://generativelanguage.googleapis.com/v1beta/models/gemini-2.0-flash:generateContent".

Record CachedYear : Type := {
  at_ : Z;                  (* the field [at] *)
  items : list jsstring
}.

Definition CACHE_TTL_MS : Z := 1000 * 60 * 60 * 24 * 7.

(** The state of [YEAR_CACHE], a [Map<number, CachedYear>]. *)
Abbreviation YearCache := (gmap Z CachedYear).

(** [url.searchParams]: the name/value pairs of the query, in order. *)
Record Request : Type := {
  searchParams : list (jsstring * jsstring)
}.

(** [url.searchParams.get(name)]: the first value of [name], [None] for
    [null]. *)
Fixpoint searchParams_get (name : jsstring) (params : list (jsstring * jsstring))
  : option jsstring :=
  match params with
  | [] => None
  | (n, v) :: params' =>
      if decide (n = name) then Some v else searchParams_get name params'
  end.

(** [process.env] and [Date.now()] as one request sees them. *)
Record Env : Type := {
  GEMINI_API_KEY : option jsstring;
  Date_now : Z
}.

(** The upstream call: the endpoint, the [x-goog-api-key] header and the
    year the prompt is written for; the rest of the body is constant. *)
Record FetchRequest : Type := {
  fetch_url : jsstring;
  fetch_api_key : jsstring;
  fetch_prompt_year : Z
}.

(** What the route observes of the upstream call.  [rawText] has the type the
    source declares for it, [string | undefined]. *)
Inductive FetchResult : Type :=
| FetchRejected                              (* [fetch] rejects *)
| NotOk (text : option jsstring)             (* [!response.ok]; [None]: [response.text()] rejects *)
| OkNoJson                                   (* [response.json()] rejects *)
| OkJson (rawText : option jsstring).
    (* [response.json()] resolves; [rawText] is what the chain
       [data?.candidates?.[0]?.content?.parts?.[0]?.text] yields *)

Inductive Body : Type :=
| ErrorBody (error : string) (detail : option jsstring)
| ItemsBody (year : Z) (items : list jsstring).

Record Response : Type := {
  status : Z;
  body : Body;
  cache_control : option string
}.

Definition error_response (st : Z) (msg : string) (detail : option jsstring)
  : Response :=
  {| status := st; body := ErrorBody msg detail; cache_control := None |}.

Definition items_response (year : Z) (its : list jsstring) : Response :=
  {| status := 200; body := ItemsBody year its;
     cache_control := Some "public, max-age=0, s-maxage=86400"%string |}.

(** The handler up to [await fetch(...)]: it has either responded or issued
    the upstream call, remembering [year] and [now]. *)
Inductive Suspension : Type :=
| Responded (r : Response)
| Fetching (call : FetchRequest) (year now : Z).

(** [!force && cached && now - cached.at < CACHE_TTL_MS] *)
Definition cache_hit (force : bool) (now : Z) (cached : option CachedYear)
  : option CachedYear :=
  match cached with
  | Some c =>
      if negb force && (now - at_ c <? CACHE_TTL_MS)%Z then Some c else None
  | None => None
  end.

(** [Number.parseInt] applied, in radix 10, to the [year] parameter or to
    the empty string when the parameter is missing. *)
Definition request_year (request : Request) : number :=
  let yearParam := searchParams_get (lit "year") (searchParams request) in
  parseInt10 (default [] yearParam).

(** [forceParam === "1" || forceParam === "true"] *)
Definition request_force (request : Request) : bool :=
  let forceParam := searchParams_get (lit "force") (searchParams request) in
  bool_decide (forceParam = Some (lit "1"))
  || bool_decide (forceParam = Some (lit "true")).

Definition GET_start (env : Env) (request : Request) (YEAR_CACHE : YearCache)
  : Suspension :=
  let year := request_year request in
  let force := request_force request in
  if negb (Number_isFinite year) || lt_zero year then
    Responded (error_response 400 "Invalid or missing year" None)
  else
    match year with
    | Num year =>
        let now := Date_now env in
        match cache_hit force now (YEAR_CACHE !! year) with
        | Some cached => Responded (items_response year (items cached))
        | None =>
            match GEMINI_API_KEY env with
            | None | Some [] =>
                Responded (error_response 500 "Server missing GEMINI_API_KEY" None)
            | Some apiKey =>
                Fetching
                  {| fetch_url := GEMINI_ENDPOINT; fetch_api_key := apiKey;
                     fetch_prompt_year := year |}
                  year now
            end
        end
    | _ => Responded (error_response 400 "Invalid or missing year" None)
    end.

Definition unexpected : Response :=
  error_response 500 "Unexpected server error" None.

(** The handler from the settling of [fetch] on; [YEAR_CACHE] is the state
    of the map at that moment. *)
Definition GET_finish (year now : Z) (res : FetchResult) (YEAR_CACHE : YearCache)
  : Response * YearCache :=
  match res with
  | FetchRejected => (unexpected, YEAR_CACHE)
  | NotOk None => (unexpected, YEAR_CACHE)
  | NotOk (Some text) =>
      (error_response 502 "Upstream error" (Some text), YEAR_CACHE)
  | OkNoJson => (unexpected, YEAR_CACHE)
  | OkJson rawText =>
      match rawText with
      | None | Some [] =>
          (error_response 502 "No content returned" None, YEAR_CACHE)
      | Some rawText =>
          let its := slice0 5 (coerceToStringArray rawText) in
          if Nat.eqb (length its) 0 then
            (error_response 502 "Empty content" None, YEAR_CACHE)
          else
            (items_response year its,
             <[year := {| at_ := now; items := its |}]> YEAR_CACHE)
      end
  end.

(** One request served without interleaving: the response, the cache
    afterwards, and the upstream calls made. *)
Definition GET (env : Env) (upstream : FetchRequest → FetchResult)
    (request : Request) (YEAR_CACHE : YearCache)
  : Response * YearCache * list FetchRequest :=
  match GET_start env request YEAR_CACHE with
  | Responded r => (r, YEAR_CACHE, [])
  | Fetching call year now =>
      let '(r, YEAR_CACHE') := GET_finish year now (upstream call) YEAR_CACHE in
      (r, YEAR_CACHE', [call])
  end.

(** ** The fetch client: the effect of the [Achievement] component

    The component instance is a state machine.  Its state is the [year]
    prop, the two [useState] cells, the [cacheRef] map and one record per run
    of the effect: the closure of [fetchAchievement] with its own
    [isCurrent] variable and the [await] it is suspended at.  The events are
    a render with a year and the settling of a pending promise. *)

Module Client.

Inductive Status : Type := idle | loading | error | success.

(** Where a run of [fetchAchievement] stands. *)
Inductive Phase : Type :=
| AwaitFetch      (* suspended at [await fetch(...)] *)
| AwaitJson       (* suspended at [await res.json()] *)
| Returned.

(** One run of the effect; [eff_year] is the [year] its closure captured. *)
Record Effect : Type := {
  eff_year : Z;
  isCurrent : bool;
  phase : Phase
}.

Record Achievement : Type := {
  year : Z;
  items : list jsstring;
  status : Status;
  cacheRef : gmap Z (list jsstring);
  effects : list Effect        (* every run so far, the latest last *)
}.

Inductive Event : Type :=
| Render (y : Z)
    (* the parent renders the component with [year = y]; when the year
       changed, the cleanup of the previous run and the new run of the
       effect belong to this event *)
| FetchSettled (id : nat) (ok : option bool)
    (* the [fetch] of run [id] settles: [None] when it rejects, else [res.ok] *)
| JsonSettled (id : nat) (data_items : option (option (list jsstring))).
    (* the [res.json()] of run [id] settles: [None] when it rejects, else
       [data.items] when that is an array *)

Definition set_phase (p : Phase) (e : Effect) : Effect :=
  {| eff_year := eff_year e; isCurrent := isCurrent e; phase := p |}.

(** The cleanup function of a run: [isCurrent = false]. *)
Definition cleanup (e : Effect) : Effect :=
  {| eff_year := eff_year e; isCurrent := false; phase := phase e |}.

(** The cleanup of the latest run, the one React calls before it runs the
    effect again. *)
Definition cleanup_latest (es : list Effect) : list Effect :=
  alter cleanup (pred (length es)) es.

(** The effect body: a new run of [fetchAchievement] up to its first
    [await] or its early [return]. *)
Definition run_effect (st : Achievement) : Achievement :=
  let fresh p := {| eff_year := year st; isCurrent := true; phase := p |} in
  match cacheRef st !! year st with
  | Some (c :: cs) =>
      {| year := year st; items := c :: cs; status := success;
         cacheRef := cacheRef st;
         effects := effects st ++ [fresh Returned] |}
  | _ =>
      {| year := year st; items := []; status := loading;
         cacheRef := cacheRef st;
         effects := effects st ++ [fresh AwaitFetch] |}
  end.

(** The component when it is mounted with [year = y]. *)
Definition mount (y : Z) : Achievement :=
  run_effect
    {| year := y; items := []; status := idle; cacheRef := ∅; effects := [] |}.

Definition with_effects (st : Achievement) (es : list Effect) : Achievement :=
  {| year := year st; items := items st; status := status st;
     cacheRef := cacheRef st; effects := es |}.

(** The [catch] block: [if (!isCurrent) return; setStatus("error")]. *)
Definition on_catch (st : Achievement) (id : nat) (e : Effect) : Achievement :=
  let es := <[id := set_phase Returned e]> (effects st) in
  if isCurrent e then
    {| year := year st; items := items st; status := error;
       cacheRef := cacheRef st; effects := es |}
  else with_effects st es.

Definition step (st : Achievement) (ev : Event) : Achievement :=
  match ev with
  | Render y =>
      if decide (y = year st) then st
      else
        run_effect
          {| year := y; items := items st; status := status st;
             cacheRef := cacheRef st;
             effects := cleanup_latest (effects st) |}
  | FetchSettled id ok =>
      match effects st !! id with
      | Some e =>
          match phase e with
          | AwaitFetch =>
              match ok with
              | Some true =>
                  with_effects st (<[id := set_phase AwaitJson e]> (effects st))
              | Some false | None => on_catch st id e
              end
          | _ => st
          end
      | None => st
      end
  | JsonSettled id data_items =>
      match effects st !! id with
      | Some e =>
          match phase e with
          | AwaitJson =>
              match data_items with
              | None => on_catch st id e
              | Some d =>
                  let es := <[id := set_phase Returned e]> (effects st) in
                  if isCurrent e then
                    let nextItems := default [] d in
                    {| year := year st; items := nextItems; status := success;
                       cacheRef := <[eff_year e := nextItems]> (cacheRef st);
                       effects := es |}
                  else with_effects st es
              end
          | _ => st
          end
      | None => st
      end
  end.

Definition run (st : Achievement) (evs : list Event) : Achievement :=
  foldl step st evs.

(** What the user sees and what later requests read. *)
Definition view (st : Achievement)
  : list jsstring * Status * gmap Z (list jsstring) :=
  (items st, status st, cacheRef st).

(** The run an event settles a promise of. *)
Definition settles (ev : Event) : option nat :=
  match ev with
  | Render _ => None
  | FetchSettled id _ | JsonSettled id _ => Some id
  end.

End Client.

(** * The vocabulary of the specification *)


(** The states [YEAR_CACHE] can take.  The only write of the route is the
    one at the end of a handler that went to the upstream service; handlers
    of concurrent requests interleave at their [await], so the cache a
    handler writes to need not be the one it started from ([cache0]). *)
Inductive reachable : YearCache → Prop :=
| reach_init : reachable ∅
| reach_finish env request cache0 call y now res cache :
    GET_start env request cache0 = Fetching call y now →
    reachable cache →
    reachable (snd (GET_finish y now res cache)).

(** The refresh path: a cache miss, an expired entry, or a forced refresh. *)
Definition refreshes (force : bool) (now : Z) (cached : option CachedYear)
  : Prop :=
  cached = None
  ∨ (∃ c, cached = Some c ∧ (CACHE_TTL_MS ≤ now - at_ c)%Z)
  ∨ force = true.

(** The credential is unset (or set to the empty string, which [!apiKey]
    does not tell apart). *)
Definition no_credential (env : Env) : Prop :=
  GEMINI_API_KEY env = None ∨ GEMINI_API_KEY env = Some [].


(** * Sample requests, environments and upstream services *)

Definition request_for (yearParam : jsstring) : Request :=
  {| searchParams := [(lit "year", yearParam)] |}.

Definition request_forced (yearParam : jsstring) : Request :=
  {| searchParams := [(lit "year", yearParam); (lit "force", lit "true")] |}.

Definition request_without_year : Request := {| searchParams := [] |}.

Definition env_at (now : Z) : Env :=
  {| GEMINI_API_KEY := Some (lit "key"); Date_now := now |}.

Definition env_without_key (now : Z) : Env :=
  {| GEMINI_API_KEY := None; Date_now := now |}.

(** An upstream service whose answer carries [text]. *)
Definition upstream_text (text : jsstring) : FetchRequest → FetchResult :=
  fun _ => OkJson (Some text).

(** A cache holding one entry. *)
Definition cache_of (y at0 : Z) (its : list jsstring) : YearCache :=
  {[ y := {| at_ := at0; items := its |} ]}.


(** A year parameter that denotes a finite non-negative integer: it is
    present and is a non-empty run of decimal digits whose value is a finite
    double. *)
Definition denotes_year (yearParam : option jsstring) : Prop :=
  ∃ ds, yearParam = Some ds ∧ ds ≠ []
    ∧ Forall (fun c => is_digit c = true) ds
    ∧ is_Some (round_to_double (digits_value 0 ds)).

(** What [!Number.isFinite(year) || year < 0] rejects. *)
Definition invalid_year (x : number) : Prop :=
  x = NaN ∨ (∃ negative, x = Infinity negative) ∨ (∃ z, x = Num z ∧ (z < 0)%Z).


(** A run of the client effect whose cleanup has been called. *)
Definition stale (st : Client.Achievement) (id : nat) : Prop :=
  ∃ e, Client.effects st !! id = Some e ∧ Client.isCurrent e = false.

(** The states of the component in which every run but the latest has been
    cleaned up and the latest run is the one of the current year. *)
Definition client_inv (st : Client.Achievement) : Prop :=
  (∀ id, S id < length (Client.effects st) → stale st id)%nat
  ∧ (∃ e, last (Client.effects st) = Some e
          ∧ Client.eff_year e = Client.year st).


(** The text reaches the line-splitting fallback: neither the whole text nor
    the bracketed substring parses as a JSON array. *)
Definition takes_fallback (text : jsstring) : Prop :=
  parse_array text = None
  ∧ ∀ m0, String_match re_array text = Some m0 → parse_array m0 = None.

(** A payload of white space only (the empty payload included). *)
Definition whitespace_only (text : jsstring) : Prop :=
  Forall (fun c => is_space c = true) text.

(** The lines of a text, joined by line feeds. *)
Fixpoint join_lines (ls : list jsstring) : jsstring :=
  match ls with
  | [] => []
  | [l] => l
  | l :: ls' => l ++ 10 :: join_lines ls'
  end.

(** Twelve short lines, and a JSON array of eleven strings. *)
Definition twelve_lines : jsstring :=
  join_lines (map (fun c => [c]) (lit "abcdefghijkl")).

Definition eleven_strings : jsstring :=
  litq "['a','b','c','d','e','f','g','h','i','j','k']".


(** The error message of the route for a payload without usable content. *)
Definition blank_payload_error (rawText : option jsstring) : string :=
  match rawText with
  | None | Some [] => "No content returned"
  | Some (_ :: _) => "Empty content"
  end.


(** ** The coercion in the words of the specification

    The three strategies of the coercion, written on the text itself rather
    than with regular expressions. *)



(** The text after the first occurrence of [c]. *)
Fixpoint after_first (c : N) (s : jsstring) : option jsstring :=
  match s with
  | [] => None
  | d :: s' => if d =? c then Some s' else after_first c s'
  end.

(** The text up to and including the last occurrence of [c]. *)
Fixpoint upto_last (c : N) (s : jsstring) : option jsstring :=
  match s with
  | [] => None
  | d :: s' =>
      match upto_last c s' with
      | Some t => Some (d :: t)
      | None => if d =? c then Some [d] else None
      end
  end.

(** The bracket-delimited substring that starts first: from the first
    opening bracket to the last closing bracket after it. *)
Definition first_bracketed (text : jsstring) : option jsstring :=
  match after_first (ch "[") text with
  | Some s' =>
      match upto_last (ch "]") s' with
      | Some t => Some (ch "[" :: t)
      | None => None
      end
  | None => None
  end.







(** The three texts of the parsing-precedence property. *)
Definition text_array : jsstring := litq "['A','B']".

Definition text_intro : jsstring :=
  litq "Intro: ['1. Landed on the moon', '- Cured a disease']".

Definition text_lines : jsstring :=
  join_lines [lit "1. First"; lit "2. Second"; lit "3. Third"].


(** * Further vocabulary *)

(** The responses of the route: the seven shapes [GET] builds. *)
Definition route_response (r : Response) : Prop :=
  (∃ y its, r = items_response y its)
  ∨ r = error_response 400 "Invalid or missing year" None
  ∨ r = error_response 500 "Server missing GEMINI_API_KEY" None
  ∨ (∃ detail, r = error_response 502 "Upstream error" (Some detail))
  ∨ r = error_response 502 "No content returned" None
  ∨ r = error_response 502 "Empty content" None
  ∨ r = error_response 500 "Unexpected server error" None.

(** A string without white space at either end. *)
Definition trimmed (s : jsstring) : Prop :=
  (∀ c, head s = Some c → is_space c = false)
  ∧ (∀ c, last s = Some c → is_space c = false).


(** ** Numbers as text, and the request of the fetch client *)

(** The decimal digits of [n], most significant first, in front of [acc]. *)
Fixpoint decimal_digits (fuel : nat) (n : Z) (acc : jsstring) : jsstring :=
  match fuel with
  | O => acc
  | S f =>
      let acc' := Z.to_N (48 + n mod 10) :: acc in
      if (n <? 10)%Z then acc' else decimal_digits f (n / 10) acc'
  end.

(** [String(n)], as a template literal and [JSON.stringify] produce it, for
    an integer [0 ≤ n < 2^53]: the decimal numeral of [n]. *)
Definition Number_toString (n : Z) : jsstring :=
  decimal_digits (S (Z.to_nat (Z.log2 n))) n [].

(** The request behind [fetch(`/api/achievement?year=${year}`)]: the query
    holds the one pair [year=<digits>], which needs no decoding. *)
Definition fetch_request (year : Z) : Request :=
  {| searchParams := [(lit "year", Number_toString year)] |}.


(** ** What the [Achievement] component renders *)

(** The four outputs of the component's render (the text of the two
    paragraphs aside): the loading line, the error line, the line for an
    empty list, and the list of items. *)
Inductive Display : Type :=
| LoadingLine      (* "Loading highlights..." *)
| ErrorLine        (* "No data available for this year." *)
| EmptyLine        (* "No highlights found." *)
| ItemList (its : list jsstring).

Definition Achievement_render (st : Client.Achievement) : Display :=
  match Client.status st with
  | Client.loading => LoadingLine
  | Client.error => ErrorLine
  | _ =>
      match Client.items st with
      | [] => EmptyLine
      | its => ItemList its
      end
  end.

(** A run of [fetchAchievement] that is suspended at an [await]. *)
Definition is_pending (p : Client.Phase) : bool :=
  match p with Client.Returned => false | _ => true end.

(** The states of a mounted component: the latest run of the effect is the
    live one, of the current year; the status is [loading] exactly while
    that run is pending, and then and after an error no item is held; after
    a success the items are the cached list of the current year; a request
    is pending only for a year without a non-empty cached list. *)
Definition client_display_inv (st : Client.Achievement) : Prop :=
  ∃ e, last (Client.effects st) = Some e
    ∧ Client.isCurrent e = true
    ∧ Client.eff_year e = Client.year st
    ∧ (is_pending (Client.phase e) = true ↔ Client.status st = Client.loading)
    ∧ (Client.status st = Client.loading ∨ Client.status st = Client.error →
       Client.items st = [])
    ∧ (Client.status st = Client.success →
       Client.cacheRef st !! Client.year st = Some (Client.items st))
    ∧ Client.status st ≠ Client.idle
    ∧ (is_pending (Client.phase e) = true →
       ∀ c cs, Client.cacheRef st !! Client.year st ≠ Some (c :: cs)).


(** ** The page: [clamp] and the [Home] component

    The component instance as a state machine, like the fetch client: the
    [useState] cells and the [dragStartX] ref are the state, together with
    the callbacks that [setTimeout] and [requestAnimationFrame] hold; a
    handler runs on the committed state.  Pointer coordinates are whole
    pixels, on which the subtraction of the source is exact. *)

Module Page.

Definition START_YEAR : Z := 1800.
Definition END_YEAR : Z := 2025.

Definition clamp (value min max : Z) : Z :=
  if (value <? min)%Z then min
  else if (max <? value)%Z then max
  else value.

(** [Array.from({ length: totalYears }, (_, i) => START_YEAR + i)] *)
Definition years : list Z :=
  let totalYears := (END_YEAR - START_YEAR + 1)%Z in
  map (fun i => (START_YEAR + Z.of_nat i)%Z) (seq 0 (Z.to_nat totalYears)).

Definition years_length : Z := Z.of_nat (length years).

Definition ANIM_MS : Z := 280.
Definition MAX_DRAG : Z := 120.

Inductive Dir : Type := left | right.

(** The callbacks waiting to run: the one of the exit timer (with the
    [swipedLeft] it captured, which is also its [goingNext]), the one of the
    animation frame, and the one of the enter timer. *)
Inductive Task : Type :=
| AfterExit (swipedLeft : bool)
| NextFrame
| AfterEnter.

Record Home : Type := {
  yearIndex : Z;
  dragStartX : option Z;
  dragX : Z;
  isExiting : bool;
  exitDir : option Dir;
  isEntering : bool;
  enterDir : option Dir;
  atCenter : bool;
  tasks : list Task
}.

(** The component when it is mounted. *)
Definition init : Home :=
  {| yearIndex := END_YEAR - START_YEAR; dragStartX := None; dragX := 0;
     isExiting := false; exitDir := None; isEntering := false;
     enterDir := None; atCenter := true; tasks := [] |}.

(** [years[yearIndex]]; [None] for [undefined]. *)
Definition currentYear (st : Home) : option Z :=
  if (yearIndex st <? 0)%Z then None else years !! Z.to_nat (yearIndex st).

Definition setYearIndex (f : Z → Z) (st : Home) : Home :=
  {| yearIndex := f (yearIndex st); dragStartX := dragStartX st;
     dragX := dragX st; isExiting := isExiting st; exitDir := exitDir st;
     isEntering := isEntering st; enterDir := enterDir st;
     atCenter := atCenter st; tasks := tasks st |}.

Definition setDragStartX (x : option Z) (st : Home) : Home :=
  {| yearIndex := yearIndex st; dragStartX := x;
     dragX := dragX st; isExiting := isExiting st; exitDir := exitDir st;
     isEntering := isEntering st; enterDir := enterDir st;
     atCenter := atCenter st; tasks := tasks st |}.

Definition setDragX (x : Z) (st : Home) : Home :=
  {| yearIndex := yearIndex st; dragStartX := dragStartX st;
     dragX := x; isExiting := isExiting st; exitDir := exitDir st;
     isEntering := isEntering st; enterDir := enterDir st;
     atCenter := atCenter st; tasks := tasks st |}.

Definition setExit (b : bool) (d : option Dir) (st : Home) : Home :=
  {| yearIndex := yearIndex st; dragStartX := dragStartX st;
     dragX := dragX st; isExiting := b; exitDir := d;
     isEntering := isEntering st; enterDir := enterDir st;
     atCenter := atCenter st; tasks := tasks st |}.

Definition setEnter (b : bool) (d : option Dir) (st : Home) : Home :=
  {| yearIndex := yearIndex st; dragStartX := dragStartX st;
     dragX := dragX st; isExiting := isExiting st; exitDir := exitDir st;
     isEntering := b; enterDir := d;
     atCenter := atCenter st; tasks := tasks st |}.

Definition setAtCenter (b : bool) (st : Home) : Home :=
  {| yearIndex := yearIndex st; dragStartX := dragStartX st;
     dragX := dragX st; isExiting := isExiting st; exitDir := exitDir st;
     isEntering := isEntering st; enterDir := enterDir st;
     atCenter := b; tasks := tasks st |}.

Definition setTasks (ts : list Task) (st : Home) : Home :=
  {| yearIndex := yearIndex st; dragStartX := dragStartX st;
     dragX := dragX st; isExiting := isExiting st; exitDir := exitDir st;
     isEntering := isEntering st; enterDir := enterDir st;
     atCenter := atCenter st; tasks := ts |}.

(** [setTimeout(callback, ANIM_MS)] and [requestAnimationFrame(callback)] *)
Definition schedule (t : Task) (st : Home) : Home :=
  setTasks (tasks st ++ [t]) st.

Definition handlePrev (st : Home) : Home :=
  if (0 <? yearIndex st)%Z then setYearIndex (fun y => y - 1)%Z st else st.

Definition handleNext (st : Home) : Home :=
  if (yearIndex st <? years_length - 1)%Z
  then setYearIndex (fun y => y + 1)%Z st else st.

Inductive Key : Type := ArrowLeft | ArrowRight | OtherKey.

Definition handleKeyDown (key : Key) (st : Home) : Home :=
  match key with
  | ArrowLeft => handlePrev st
  | ArrowRight => handleNext st
  | OtherKey => st
  end.

Definition handlePointerDown (clientX : Z) (st : Home) : Home :=
  if isExiting st || isEntering st then st
  else setDragStartX (Some clientX) st.

Definition handlePointerMove (clientX : Z) (st : Home) : Home :=
  match dragStartX st with
  | None => st
  | Some x0 =>
      let delta := (clientX - x0)%Z in
      setDragX (clamp delta (- MAX_DRAG) MAX_DRAG) st
  end.

Definition handlePointerUp (clientX : Z) (st : Home) : Home :=
  let threshold := 80%Z in
  let delta :=
    match dragStartX st with
    | None => 0%Z
    | Some x0 => (clientX - x0)%Z
    end in
  let st := setDragStartX None st in
  if (Z.abs delta <? threshold)%Z then setDragX 0 st
  else
    let swipedLeft := (delta <? 0)%Z in
    let goingNext := swipedLeft in
    if (goingNext && (years_length - 1 <=? yearIndex st)%Z)
       || (negb goingNext && (yearIndex st <=? 0)%Z)
    then setDragX 0 st
    else
      schedule (AfterExit swipedLeft)
        (setDragX 0
           (setExit true (Some (if swipedLeft then left else right)) st)).

(** The body of a callback. *)
Definition run_task (t : Task) (st : Home) : Home :=
  match t with
  | AfterExit swipedLeft =>
      let goingNext := swipedLeft in
      schedule NextFrame
        (setAtCenter false
           (setEnter true (Some (if swipedLeft then right else left))
              (setExit false None
                 (setYearIndex
                    (fun y => if goingNext then y + 1 else y - 1)%Z st))))
  | NextFrame => schedule AfterEnter (setAtCenter true st)
  | AfterEnter => setEnter false None st
  end.

Inductive Event : Type :=
| KeyDown (key : Key)
| ClickPrev
| ClickNext
| PointerDown (clientX : Z)
| PointerMove (clientX : Z)
| PointerUp (clientX : Z)
| Run (n : nat).      (* the [n]-th waiting callback is called *)

Definition step (st : Home) (ev : Event) : Home :=
  match ev with
  | KeyDown key => handleKeyDown key st
  | ClickPrev => handlePrev st
  | ClickNext => handleNext st
  | PointerDown x => handlePointerDown x st
  | PointerMove x => handlePointerMove x st
  | PointerUp x => handlePointerUp x st
  | Run n =>
      match tasks st !! n with
      | Some t => run_task t (setTasks (delete n (tasks st)) st)
      | None => st
      end
  end.

Definition run (st : Home) (evs : list Event) : Home := foldl step st evs.

End Page.

(** The year index is one of the indices of [years]. *)
Definition index_in_range (st : Page.Home) : Prop :=
  (0 ≤ Page.yearIndex st < Page.years_length)%Z.

(** No animation is under way. *)
Definition at_rest (st : Page.Home) : Prop :=
  Page.tasks st = [] ∧ Page.isExiting st = false ∧ Page.isEntering st = false.

(** The stages of the swipe animation: at most one callback waits; while the
    exit timer waits the card is exiting, while the frame or the enter timer
    waits it is entering, and in both cases no drag is under way. *)
Definition animation_inv (st : Page.Home) : Prop :=
  match Page.tasks st with
  | [] => Page.isExiting st = false ∧ Page.isEntering st = false
  | [Page.AfterExit _] =>
      Page.isExiting st = true ∧ Page.isEntering st = false
      ∧ Page.dragStartX st = None
  | [Page.NextFrame] | [Page.AfterEnter] =>
      Page.isExiting st = false ∧ Page.isEntering st = true
      ∧ Page.dragStartX st = None
  | _ => False
  end.


(** An event of the page other than the call of a waiting callback. *)
Definition is_input (ev : Page.Event) : Prop :=
  match ev with Page.Run _ => False | _ => True end.

(** A pointer event. *)
Definition is_pointer (ev : Page.Event) : Prop :=
  match ev with
  | Page.PointerDown _ | Page.PointerMove _ | Page.PointerUp _ => True
  | _ => False
  end.


(** ** The response on the wire: [JSON.stringify] and [res.json()]

    [NextResponse.json(body)] sends [JSON.stringify(body)]; the client reads
    it back with [res.json()]. *)

(** The lower-case hexadecimal digit of [d < 16]. *)
Definition hex_char (d : N) : N := if d <? 10 then 48 + d else 87 + d.

(** [\uXXXX] *)
Definition unicode_escape (c : N) : jsstring :=
  [backslash; ch "u"; hex_char (c / 4096); hex_char (c / 256 mod 16);
   hex_char (c / 16 mod 16); hex_char (c mod 16)].

Definition is_high_surrogate (c : N) : bool := (55296 <=? c) && (c <=? 56319).
Definition is_low_surrogate (c : N) : bool := (56320 <=? c) && (c <=? 57343).

(** [QuoteJSONString] on a code unit that is not half of a surrogate pair:
    the short escapes, [\uXXXX] for the other control characters and for a
    lone surrogate, the code unit itself otherwise. *)
Definition quote_unit (c : N) : jsstring :=
  if c =? 8 then [backslash; ch "b"]
  else if c =? 9 then [backslash; ch "t"]
  else if c =? 10 then [backslash; ch "n"]
  else if c =? 12 then [backslash; ch "f"]
  else if c =? 13 then [backslash; ch "r"]
  else if c =? dquote then [backslash; dquote]
  else if c =? backslash then [backslash; backslash]
  else if (c <? 32) || is_high_surrogate c || is_low_surrogate c
  then unicode_escape c
  else [c].

(** The text between the quotes; a surrogate pair is copied. *)
Fixpoint quote_units (s : jsstring) : jsstring :=
  match s with
  | [] => []
  | c :: s' =>
      if is_high_surrogate c then
        match s' with
        | d :: s'' =>
            if is_low_surrogate d then c :: d :: quote_units s''
            else quote_unit c ++ quote_units s'
        | [] => quote_unit c
        end
      else quote_unit c ++ quote_units s'
  end.

(** [JSON.stringify(s)] for a string. *)
Definition JSON_quote (s : jsstring) : jsstring :=
  dquote :: quote_units s ++ [dquote].

Fixpoint stringify_elements (its : list jsstring) : jsstring :=
  match its with
  | [] => []
  | [i] => JSON_quote i
  | i :: its' => JSON_quote i ++ ch "," :: stringify_elements its'
  end.

(** [JSON.stringify(items)] for an array of strings. *)
Definition stringify_strings (its : list jsstring) : jsstring :=
  ch "[" :: stringify_elements its ++ [ch "]"].

(** [JSON.stringify] of the body of a response, for a year [0 ≤ y < 2^53]:
    [{ year, items }], [{ error }] or [{ error, detail }], the properties in
    the order the route writes them. *)
Definition response_text (r : Response) : jsstring :=
  match body r with
  | ItemsBody y its =>
      lit "{" ++ JSON_quote (lit "year") ++ lit ":" ++ Number_toString y
        ++ lit "," ++ JSON_quote (lit "items") ++ lit ":"
        ++ stringify_strings its ++ lit "}"
  | ErrorBody msg None =>
      lit "{" ++ JSON_quote (lit "error") ++ lit ":" ++ JSON_quote (lit msg)
        ++ lit "}"
  | ErrorBody msg (Some detail) =>
      lit "{" ++ JSON_quote (lit "error") ++ lit ":" ++ JSON_quote (lit msg)
        ++ lit "," ++ JSON_quote (lit "detail") ++ lit ":"
        ++ JSON_quote detail ++ lit "}"
  end.

(** The value the body denotes. *)
Definition response_json (r : Response) : json :=
  match body r with
  | ItemsBody y its =>
      JObject [(lit "year", JNumber (Number_toString y));
               (lit "items", JArray (map JString its))]
  | ErrorBody msg None => JObject [(lit "error", JString (lit msg))]
  | ErrorBody msg (Some detail) =>
      JObject [(lit "error", JString (lit msg));
               (lit "detail", JString detail)]
  end.

(** [res.ok]: the status is in the range 200 to 299. *)
Definition response_ok (r : Response) : bool :=
  (200 <=? status r)%Z && (status r <=? 299)%Z.

(** [data?.key] on a parsed value: the last member of an object with that
    key; [None] stands for [undefined]. *)
Fixpoint json_member (key : jsstring) (members : list (jsstring * json))
  : option json :=
  match members with
  | [] => None
  | (k, v) :: members' =>
      match json_member key members' with
      | Some v' => Some v'
      | None => if decide (k = key) then Some v else None
      end
  end.

(** [Array.isArray(data?.items) ? data.items : undefined] *)
Definition data_items (data : json) : option (list json) :=
  match data with
  | JObject members =>
      match json_member (lit "items") members with
      | Some (JArray elems) => Some elems
      | _ => None
      end
  | _ => None
  end.



(** * Properties *)

(** ** The JavaScript model on sample inputs *)

Example JSON_parse_nested :
  JSON_parse (litq "  ['aA', {'k': [true, null, -1.5e3]}]  ")
    = Some (JArray [JString (lit "aA");
                    JObject [(lit "k",
                              JArray [JBool true; JNull;
                                      JNumber (lit "-1.5e3")])]]).
Proof. by vm_compute. Qed.

Example JSON_parse_rejects :
  JSON_parse (lit "[1,]") = None
  ∧ JSON_parse (lit "01") = None
  ∧ JSON_parse (lit "[1 2]") = None
  ∧ JSON_parse (lit "['a']") = None
  ∧ JSON_parse (litq "['a'] x") = None
  ∧ JSON_parse (lit "1.") = None
  ∧ JSON_parse (lit "-") = None
  ∧ JSON_parse (litq "'a" ++ 10 :: litq "b'") = None
  ∧ JSON_parse (litq "'\x'") = None
  ∧ JSON_parse (litq "{'a':1,}") = None
  ∧ JSON_parse (lit "tru") = None
  ∧ JSON_parse [] = None.
Proof. repeat split; by vm_compute. Qed.

Example String_split_samples :
  String_split re_separator (lit "- a" ++ 10 :: lit "- b")
    = [[]; lit "a"; []; lit "b"]
  ∧ String_split re_separator (lit "a-b") = [lit "a-b"]
  ∧ String_split re_separator (lit "a" ++ [13; 10] ++ lit "b" ++ 13 :: lit "c")
    = [lit "a"; lit "b" ++ 13 :: lit "c"]
  ∧ String_split re_separator (lit "x" ++ bullet :: lit "y -   z")
    = [lit "x"; lit "y "; lit "z"]
  ∧ String_split re_separator [] = [[]].
Proof. repeat split; by vm_compute. Qed.

Example normalizeItem_samples :
  normalizeItem (lit "12. x") = lit "x"
  ∧ normalizeItem (lit "1.5 x") = lit "5 x"
  ∧ normalizeItem (lit "-  x ") = lit "x"
  ∧ normalizeItem (bullet :: lit "x") = lit "x"
  ∧ normalizeItem (lit "x - 1. y") = lit "x - 1. y"
  ∧ normalizeItem (lit " 1. x") = lit "1. x"
  ∧ normalizeItem (lit "1969: x") = lit "1969: x".
Proof. repeat split; by vm_compute. Qed.

Example String_match_samples :
  String_match re_array (lit "a [1] b [2] c") = Some (lit "[1] b [2]")
  ∧ String_match re_array (lit "] [") = None
  ∧ String_match re_array (lit "[ [") = None.
Proof. repeat split; by vm_compute. Qed.

Example parseInt10_samples :
  parseInt10 (lit "2024") = Num 2024
  ∧ parseInt10 (lit "  +12abc") = Num 12
  ∧ parseInt10 (lit "1.5") = Num 1
  ∧ parseInt10 (lit "1e3") = Num 1
  ∧ parseInt10 (lit "0x10") = Num 0
  ∧ parseInt10 (lit "-0") = Num 0
  ∧ parseInt10 (lit "-5") = Num (-5)
  ∧ parseInt10 (lit "abc") = NaN
  ∧ parseInt10 (lit "+") = NaN
  ∧ parseInt10 (lit "- 5") = NaN
  ∧ parseInt10 [] = NaN
  ∧ parseInt10 (lit "9007199254740993") = Num 9007199254740992
  ∧ parseInt10 (lit "1" ++ replicate 309 (ch "0")) = Infinity false
  ∧ parseInt10 (lit "-1" ++ replicate 309 (ch "0")) = Infinity true.
Proof. repeat split; by vm_compute. Qed.

Example round_to_double_samples :
  round_to_double (2 ^ 53 + 1) = Some (2 ^ 53)%Z
  ∧ round_to_double (2 ^ 53 + 3) = Some (2 ^ 53 + 4)%Z
  ∧ round_to_double (2 ^ 1024 - 2 ^ 970 - 1) = Some (2 ^ 1024 - 2 ^ 971)%Z
  ∧ round_to_double (2 ^ 1024 - 2 ^ 970) = None.
Proof. repeat split; by vm_compute. Qed.

(** [round_to_double] yields a multiple of the spacing of the doubles around
    [m], at most half a spacing away from [m]. *)
Lemma round_to_double_nearest m v :
  (2 ^ 53 ≤ m)%Z → round_to_double m = Some v →
  let e := (Z.log2 m - 52)%Z in
  (∃ q, v = q * 2 ^ e ∧ 2 ^ 52 ≤ q ≤ 2 ^ 53)%Z
  ∧ (Z.abs (v - m) ≤ 2 ^ (e - 1))%Z.
Proof.
  intros Hm. unfold round_to_double.
  destruct (Z.ltb_spec m (2 ^ 53)); [lia|].
  set (e := (Z.log2 m - 52)%Z). intros Hv. cbv zeta.
  assert (He : (1 ≤ e)%Z).
  { assert (53 ≤ Z.log2 m)%Z; [by apply Z.log2_le_pow2; lia | lia]. }
  assert (Hpow : (2 ^ e = 2 * 2 ^ (e - 1))%Z).
  { rewrite <- Z.pow_succ_r by lia. f_equal. lia. }
  assert (Hhalf : (0 < 2 ^ (e - 1))%Z) by (apply Z.pow_pos_nonneg; lia).
  assert (Hlog : (2 ^ 52 * 2 ^ e ≤ m < 2 ^ 53 * 2 ^ e)%Z).
  { destruct (Z.log2_spec m) as [H1 H2]; [lia|].
    rewrite <- !Z.pow_add_r by lia.
    replace (52 + e)%Z with (Z.log2 m) by lia.
    replace (53 + e)%Z with (Z.succ (Z.log2 m)) by lia. done. }
  revert Hv. rewrite !Z.shiftl_mul_pow2, Z.shiftr_div_pow2, Z.mul_1_l by lia.
  set (q := (m / 2 ^ e)%Z).
  assert (Hdiv : (m = 2 ^ e * q + m mod 2 ^ e)%Z)
    by (apply Z.div_mod; lia).
  assert (Hmod : (0 ≤ m mod 2 ^ e < 2 ^ e)%Z)
    by (apply Z.mod_pos_bound; lia).
  assert (Hq : (2 ^ 52 ≤ q < 2 ^ 53)%Z).
  { split.
    - apply Z.div_le_lower_bound; lia.
    - apply Z.div_lt_upper_bound; lia. }
  set (r := (m - q * 2 ^ e)%Z). assert (Hr : r = (m mod 2 ^ e)%Z) by (unfold r; lia).
  destruct ((2 ^ (e - 1) <? r)%Z || ((r =? 2 ^ (e - 1))%Z && Z.odd q)) eqn:Hup.
  - destruct (Z.ltb_spec ((q + 1) * 2 ^ e) (2 ^ 1024)); [|discriminate].
    intros [= <-]. split; [exists (q + 1)%Z; lia|].
    assert (2 ^ (e - 1) ≤ r)%Z; [|lia].
    apply orb_true_iff in Hup as [Hup|Hup].
    + apply Z.ltb_lt in Hup. lia.
    + apply andb_true_iff in Hup as [Hup _]. apply Z.eqb_eq in Hup. lia.
  - destruct (Z.ltb_spec (q * 2 ^ e) (2 ^ 1024)); [|discriminate].
    intros [= <-]. split; [exists q; lia|].
    apply orb_false_iff in Hup as [Hup _]. apply Z.ltb_ge in Hup. lia.
Qed.

(** ** [JSON.parse]: the recursion fuel is never exhausted *)

Lemma skip_ws_length s : (length (skip_ws s) ≤ length s)%nat.
Proof.
  induction s as [|c s IH]; simpl; [lia|].
  destruct (is_json_ws c); simpl; lia.
Qed.

Lemma span_digits_length s : (length (snd (span_digits s)) ≤ length s)%nat.
Proof.
  induction s as [|c s IH]; simpl; [lia|].
  destruct (is_digit c); [|simpl; lia].
  destruct (span_digits s) as [ds r]. simpl in *. lia.
Qed.

Lemma digits1_length s ds r :
  digits1 s = Some (ds, r) → (length r ≤ length s)%nat.
Proof.
  unfold digits1. pose proof (span_digits_length s) as H.
  destruct (span_digits s) as [[|d ds'] r']; [discriminate|].
  intros [= _ <-]. exact H.
Qed.

Lemma parse_int_part_length s i r :
  parse_int_part s = Some (i, r) → (length r < length s)%nat.
Proof.
  destruct s as [|c s]; simpl; [discriminate|].
  destruct (c =? ch "0"); [intros [= _ <-]; lia|].
  destruct (is_digit c); [|discriminate].
  pose proof (span_digits_length s) as H.
  destruct (span_digits s) as [ds r']. intros [= _ <-]. simpl in H. lia.
Qed.

Lemma parse_frac_length s f r :
  parse_frac s = Some (f, r) → (length r ≤ length s)%nat.
Proof.
  destruct s as [|c s]; simpl; [by intros [= _ <-]|].
  destruct (c =? ch "."); [|intros [= _ <-]; simpl; lia].
  destruct (digits1 s) as [[ds r']|] eqn:E; simpl; [|discriminate].
  intros [= _ <-]. apply digits1_length in E. lia.
Qed.

Lemma parse_exp_length s e r :
  parse_exp s = Some (e, r) → (length r ≤ length s)%nat.
Proof.
  destruct s as [|c s]; simpl; [by intros [= _ <-]|].
  destruct ((c =? ch "e") || (c =? ch "E")); [|intros [= _ <-]; simpl; lia].
  destruct s as [|d t].
  - simpl. discriminate.
  - destruct ((d =? ch "+") || (d =? ch "-")).
    + destruct (digits1 t) as [[ds r']|] eqn:E; simpl; [|discriminate].
      intros [= _ <-]. apply digits1_length in E. simpl. lia.
    + destruct (digits1 (d :: t)) as [[ds r']|] eqn:E; simpl; [|discriminate].
      intros [= _ <-]. apply digits1_length in E. simpl in *. lia.
Qed.

Lemma parse_number_length s lexeme r :
  parse_number s = Some (lexeme, r) → (length r < length s)%nat.
Proof.
  unfold parse_number.
  set (p := match s with
            | c :: s' => if c =? ch "-" then ([c], s') else ([], s)
            | [] => ([], s)
            end).
  assert (Hp : (length (snd p) ≤ length s)%nat).
  { unfold p. destruct s as [|c s']; simpl; [lia|].
    destruct (c =? ch "-"); simpl; lia. }
  destruct p as [sign s1]. simpl in Hp.
  destruct (parse_int_part s1) as [[i s2]|] eqn:Ei; simpl; [|discriminate].
  destruct (parse_frac s2) as [[f s3]|] eqn:Ef; simpl; [|discriminate].
  destruct (parse_exp s3) as [[e s4]|] eqn:Ee; simpl; [|discriminate].
  intros [= _ <-].
  apply parse_int_part_length in Ei. apply parse_frac_length in Ef.
  apply parse_exp_length in Ee. lia.
Qed.

Lemma parse_string_body_length n :
  ∀ s acc str r, (length s ≤ n)%nat →
    parse_string_body acc s = Some (str, r) → (length r < length s)%nat.
Proof.
  induction n as [|n IH]; intros s acc str r Hn.
  - destruct s; [discriminate | simpl in Hn; lia].
  - destruct s as [|c s]; [discriminate|]. simpl in Hn. simpl.
    destruct (c =? dquote); [intros [= _ <-]; simpl; lia|].
    destruct (c =? backslash).
    + destruct s as [|e s]; [discriminate|].
      destruct (e =? ch "u").
      * destruct s as [|h1 [|h2 [|h3 [|h4 s]]]]; try discriminate.
        destruct (hex4 h1 h2 h3 h4); [|discriminate].
        intros H. apply IH in H; simpl in *; lia.
      * destruct (simple_escape e); [|discriminate].
        intros H. apply IH in H; simpl in *; lia.
    + destruct (c <? 32); [discriminate|].
      intros H. apply IH in H; simpl in *; lia.
Qed.

Lemma strip_prefix_length p : ∀ s r,
  strip_prefix p s = Some r → (length r + length p = length s)%nat.
Proof.
  induction p as [|a p IH]; intros s r; simpl.
  - intros [= <-]. lia.
  - destruct s as [|b s]; [discriminate|].
    destruct (a =? b); [|discriminate].
    intros H. apply IH in H. simpl. lia.
Qed.

Lemma parse_literal_length s v r :
  parse_literal s = POk v r → (length r < length s)%nat.
Proof.
  unfold parse_literal.
  destruct (strip_prefix (lit "true") s) eqn:E1.
  { intros [= _ <-]. apply strip_prefix_length in E1. simpl in E1. lia. }
  destruct (strip_prefix (lit "false") s) eqn:E2.
  { intros [= _ <-]. apply strip_prefix_length in E2. simpl in E2. lia. }
  destruct (strip_prefix (lit "null") s) eqn:E3; [|discriminate].
  intros [= _ <-]. apply strip_prefix_length in E3. simpl in E3. lia.
Qed.

Lemma parse_value_S f c s' :
  parse_value (S f) (c :: s') =
    if c =? ch "[" then
      match skip_ws s' with
      | [] => PErr
      | d :: s'' =>
          if d =? ch "]" then POk (JArray []) s''
          else parse_elements f [] (d :: s'')
      end
    else if c =? ch "{" then
      match skip_ws s' with
      | [] => PErr
      | d :: s'' =>
          if d =? ch "}" then POk (JObject []) s''
          else parse_members f [] (d :: s'')
      end
    else if c =? dquote then
      match parse_string_body [] s' with
      | Some (str, rest) => POk (JString str) rest
      | None => PErr
      end
    else if (c =? ch "-") || is_digit c then
      match parse_number (c :: s') with
      | Some (lexeme, rest) => POk (JNumber lexeme) rest
      | None => PErr
      end
    else parse_literal (c :: s').
Proof. reflexivity. Qed.

Lemma parse_elements_S f acc s :
  parse_elements (S f) acc s =
    match parse_value f s with
    | POk v rest =>
        match skip_ws rest with
        | [] => PErr
        | d :: rest' =>
            if d =? ch "," then parse_elements f (v :: acc) (skip_ws rest')
            else if d =? ch "]" then POk (JArray (rev (v :: acc))) rest'
            else PErr
        end
    | PErr => PErr
    | PFuel => PFuel
    end.
Proof. reflexivity. Qed.

Lemma parse_members_S f acc q s1 :
  parse_members (S f) acc (q :: s1) =
    if q =? dquote then
      match parse_string_body [] s1 with
      | None => PErr
      | Some (key, s2) =>
          match skip_ws s2 with
          | [] => PErr
          | colon :: s3 =>
              if colon =? ch ":" then
                match parse_value f (skip_ws s3) with
                | POk v rest =>
                    match skip_ws rest with
                    | [] => PErr
                    | d :: rest' =>
                        if d =? ch "," then
                          parse_members f ((key, v) :: acc) (skip_ws rest')
                        else if d =? ch "}" then
                          POk (JObject (rev ((key, v) :: acc))) rest'
                        else PErr
                    end
                | PErr => PErr
                | PFuel => PFuel
                end
              else PErr
          end
      end
    else PErr.
Proof. reflexivity. Qed.

(** Every parser consumes at least one code unit. *)
Lemma parse_consumes fuel :
  (∀ s v r, parse_value fuel s = POk v r → (length r < length s)%nat)
  ∧ (∀ acc s v r, parse_elements fuel acc s = POk v r → (length r < length s)%nat)
  ∧ (∀ acc s v r, parse_members fuel acc s = POk v r → (length r < length s)%nat).
Proof.
  induction fuel as [|f (IHv & IHe & IHm)]; [by repeat split|].
  split; [|split].
  - intros [|c s'] v r; [discriminate|]. rewrite parse_value_S.
    destruct (c =? ch "[").
    { pose proof (skip_ws_length s') as Hw.
      destruct (skip_ws s') as [|d s'']; [discriminate|].
      destruct (d =? ch "]"); [intros [= _ <-]; simpl in *; lia|].
      intros H. apply IHe in H. simpl in *. lia. }
    destruct (c =? ch "{").
    { pose proof (skip_ws_length s') as Hw.
      destruct (skip_ws s') as [|d s'']; [discriminate|].
      destruct (d =? ch "}"); [intros [= _ <-]; simpl in *; lia|].
      intros H. apply IHm in H. simpl in *. lia. }
    destruct (c =? dquote).
    { destruct (parse_string_body [] s') as [[str rest]|] eqn:E; [|discriminate].
      intros [= _ <-]. apply (parse_string_body_length (length s')) in E; simpl; lia. }
    destruct ((c =? ch "-") || is_digit c).
    { destruct (parse_number (c :: s')) as [[lexeme rest]|] eqn:E; [|discriminate].
      intros [= _ <-]. by apply parse_number_length in E. }
    apply parse_literal_length.
  - intros acc s v r. rewrite parse_elements_S.
    destruct (parse_value f s) as [v0 rest| |] eqn:E; try discriminate.
    apply IHv in E. pose proof (skip_ws_length rest) as Hw.
    destruct (skip_ws rest) as [|d rest']; [discriminate|].
    destruct (d =? ch ",").
    { intros H. apply IHe in H. pose proof (skip_ws_length rest').
      simpl in *. lia. }
    destruct (d =? ch "]"); [|discriminate].
    intros [= _ <-]. simpl in *. lia.
  - intros acc [|q s1] v r; [discriminate|]. rewrite parse_members_S.
    destruct (q =? dquote); [|discriminate].
    destruct (parse_string_body [] s1) as [[key s2]|] eqn:Ek; [|discriminate].
    apply (parse_string_body_length (length s1)) in Ek; [|lia].
    pose proof (skip_ws_length s2) as Hw2.
    destruct (skip_ws s2) as [|colon s3]; [discriminate|].
    destruct (colon =? ch ":"); [|discriminate].
    pose proof (skip_ws_length s3) as Hw3.
    destruct (parse_value f (skip_ws s3)) as [v0 rest| |] eqn:E; try discriminate.
    apply IHv in E. pose proof (skip_ws_length rest) as Hw.
    destruct (skip_ws rest) as [|d rest']; [discriminate|].
    destruct (d =? ch ",").
    { intros H. apply IHm in H. pose proof (skip_ws_length rest').
      simpl in *. lia. }
    destruct (d =? ch "}"); [|discriminate].
    intros [= _ <-]. simpl in *. lia.
Qed.

(** With more fuel than twice the length of the input, no parser runs out
    of fuel. *)
Lemma parse_fuel_enough fuel :
  (∀ s, (2 * length s < fuel)%nat → parse_value fuel s ≠ PFuel)
  ∧ (∀ acc s, (2 * length s + 1 < fuel)%nat → parse_elements fuel acc s ≠ PFuel)
  ∧ (∀ acc s, (2 * length s + 1 < fuel)%nat → parse_members fuel acc s ≠ PFuel).
Proof.
  induction fuel as [|f (IHv & IHe & IHm)];
    [repeat split; intros; lia|].
  destruct (parse_consumes f) as (Cv & Ce & Cm).
  split; [|split].
  - intros [|c s'] Hf; [done|]. rewrite parse_value_S. simpl in Hf.
    pose proof (skip_ws_length s') as Hw.
    destruct (c =? ch "[").
    { destruct (skip_ws s') as [|d s'']; [done|].
      destruct (d =? ch "]"); [done|]. apply IHe. simpl in *. lia. }
    destruct (c =? ch "{").
    { destruct (skip_ws s') as [|d s'']; [done|].
      destruct (d =? ch "}"); [done|]. apply IHm. simpl in *. lia. }
    destruct (c =? dquote).
    { by destruct (parse_string_body [] s') as [[str rest]|]. }
    destruct ((c =? ch "-") || is_digit c).
    { by destruct (parse_number (c :: s')) as [[lexeme rest]|]. }
    unfold parse_literal.
    by repeat destruct (strip_prefix _ _).
  - intros acc s Hf. rewrite parse_elements_S.
    destruct (parse_value f s) as [v0 rest| |] eqn:E; [|done|].
    + apply Cv in E. pose proof (skip_ws_length rest) as Hw.
      destruct (skip_ws rest) as [|d rest']; [done|].
      destruct (d =? ch ",").
      { apply IHe. pose proof (skip_ws_length rest'). simpl in *. lia. }
      by destruct (d =? ch "]").
    + exfalso. revert E. apply IHv. lia.
  - intros acc [|q s1] Hf; [done|]. rewrite parse_members_S. simpl in Hf.
    destruct (q =? dquote); [|done].
    destruct (parse_string_body [] s1) as [[key s2]|] eqn:Ek; [|done].
    apply (parse_string_body_length (length s1)) in Ek; [|lia].
    pose proof (skip_ws_length s2) as Hw2.
    destruct (skip_ws s2) as [|colon s3]; [done|].
    destruct (colon =? ch ":"); [|done].
    pose proof (skip_ws_length s3) as Hw3.
    destruct (parse_value f (skip_ws s3)) as [v0 rest| |] eqn:E; [|done|].
    + apply Cv in E. pose proof (skip_ws_length rest) as Hw.
      destruct (skip_ws rest) as [|d rest']; [done|].
      destruct (d =? ch ",").
      { apply IHm. pose proof (skip_ws_length rest'). simpl in *. lia. }
      by destruct (d =? ch "}").
    + exfalso. revert E. apply IHv. simpl in *. lia.
Qed.

(** [JSON_parse] never fails for lack of fuel: its parse either yields a
    value or is a syntax error. *)
Lemma parse_value_fuel text :
  parse_value (json_fuel text) (skip_ws text) ≠ PFuel.
Proof.
  apply parse_fuel_enough. unfold json_fuel.
  pose proof (skip_ws_length text). lia.
Qed.

(** More fuel does not change a result. *)
Lemma parse_fuel_mono fuel :
  (∀ s extra, parse_value fuel s ≠ PFuel →
      parse_value (fuel + extra) s = parse_value fuel s)
  ∧ (∀ acc s extra, parse_elements fuel acc s ≠ PFuel →
      parse_elements (fuel + extra) acc s = parse_elements fuel acc s)
  ∧ (∀ acc s extra, parse_members fuel acc s ≠ PFuel →
      parse_members (fuel + extra) acc s = parse_members fuel acc s).
Proof.
  induction fuel as [|f (IHv & IHe & IHm)]; [by repeat split|].
  split; [|split].
  - intros [|c s'] extra; [done|].
    change (S f + extra)%nat with (S (f + extra)). rewrite !parse_value_S.
    destruct (c =? ch "[").
    { destruct (skip_ws s') as [|d s'']; [done|].
      destruct (d =? ch "]"); [done | apply IHe]. }
    destruct (c =? ch "{"); [|done].
    destruct (skip_ws s') as [|d s'']; [done|].
    destruct (d =? ch "}"); [done | apply IHm].
  - intros acc s extra.
    change (S f + extra)%nat with (S (f + extra)). rewrite !parse_elements_S.
    destruct (parse_value f s) as [v0 rest| |] eqn:E; [| |done].
    + rewrite IHv, E by (by rewrite E).
      destruct (skip_ws rest) as [|d rest']; [done|].
      destruct (d =? ch ","); [apply IHe | done].
    + by rewrite IHv, E by (by rewrite E).
  - intros acc [|q s1] extra; [done|].
    change (S f + extra)%nat with (S (f + extra)). rewrite !parse_members_S.
    destruct (q =? dquote); [|done].
    destruct (parse_string_body [] s1) as [[key s2]|]; [|done].
    destruct (skip_ws s2) as [|colon s3]; [done|].
    destruct (colon =? ch ":"); [|done].
    destruct (parse_value f (skip_ws s3)) as [v0 rest| |] eqn:E; [| |done].
    + rewrite IHv, E by (by rewrite E).
      destruct (skip_ws rest) as [|d rest']; [done|].
      destruct (d =? ch ","); [apply IHm | done].
    + by rewrite IHv, E by (by rewrite E).
Qed.

(** ** The regular expressions of the route, read on the text *)








Lemma is_digit_range c : is_digit c = true ↔ 48 ≤ c ≤ 57.
Proof. unfold is_digit. rewrite andb_true_iff, !N.leb_le. done. Qed.







Lemma upto_last_prefix c s : ∀ t,
  upto_last c s = Some t → take (length t) s = t ∧ (length t ≤ length s)%nat.
Proof.
  induction s as [|d s IH]; intros t; simpl; [discriminate|].
  destruct (upto_last c s) as [t'|].
  - intros [= <-]. destruct (IH t' eq_refl) as [H1 H2]. simpl.
    split; [by rewrite H1 | lia].
  - destruct (d =? c); [|discriminate]. intros [= <-]. simpl.
    split; [by rewrite take_0 | lia].
Qed.

Lemma upto_last_None c s :
  upto_last c s = None ↔ Forall (fun d => (d =? c) = false) s.
Proof.
  induction s as [|d s IH]; simpl; [split; [constructor | done]|].
  destruct (upto_last c s) as [t|].
  - split; [discriminate|]. intros H. inversion H as [|? ? _ Hs]; subst.
    by apply IH in Hs.
  - destruct (d =? c) eqn:Hd.
    + split; [discriminate|]. intros H. inversion H; subst. congruence.
    + split; [|done]. intros _. constructor; [done | by apply IH].
Qed.

Lemma first_bracketed_no_closing s :
  Forall (fun d => (d =? ch "]") = false) s → first_bracketed s = None.
Proof.
  unfold first_bracketed. induction 1 as [|d s Hd Hs IH]; simpl; [done|].
  destruct (d =? ch "["); [|exact IH].
  apply upto_last_None in Hs. by rewrite Hs.
Qed.

Lemma star_any_closing i s :
  star_loop (fun c => is_space c || negb (is_space c))
    (rmatch (RChar (char_is (ch "]"))) (fun _ rest => Some rest)) i s
  = match upto_last (ch "]") s with
    | Some t => Some (drop (length t) s)
    | None => None
    end.
Proof.
  revert i. induction s as [|c s IH]; intros i; [done|].
  cbn [star_loop upto_last]. rewrite orb_negb_r, IH.
  destruct (upto_last (ch "]") s) as [t|]; [done|].
  cbn [first_some rmatch]. unfold char_is. by destruct (c =? ch "]").
Qed.

Lemma exec_from_array s : ∀ i before,
  match exec_from re_array i before s with
  | Some (_, m, _) => Some m
  | None => None
  end = first_bracketed s.
Proof.
  induction s as [|c s' IH]; intros i before; [done|].
  cbn [exec_from]. unfold match_at, re_array. cbn [rmatch].
  unfold first_bracketed, char_is. cbn [after_first].
  destruct (N.eqb_spec c (ch "[")) as [->|Hc].
  - rewrite star_any_closing.
    destruct (upto_last (ch "]") s') as [t|] eqn:Ht.
    + destruct (upto_last_prefix _ _ _ Ht) as [Hp Hl].
      unfold consumed. rewrite length_drop. cbn [length].
      replace (S (length s') - (length s' - length t))%nat
        with (S (length t)) by lia.
      cbn [take]. by rewrite Hp.
    + fold re_array. fold (match_at re_array). rewrite IH.
      apply first_bracketed_no_closing. by apply upto_last_None.
  - fold re_array. rewrite IH. done.
Qed.

Lemma String_match_array text :
  String_match re_array text = first_bracketed text.
Proof. unfold String_match, exec. apply exec_from_array. Qed.

Lemma after_first_split c s : ∀ s',
  after_first c s = Some s' → ∃ pre, s = pre ++ c :: s'.
Proof.
  induction s as [|d s IH]; intros s'; simpl; [discriminate|].
  destruct (N.eqb_spec d c) as [->|Hd].
  - intros [= <-]. by exists [].
  - intros H. destruct (IH s' H) as [pre ->]. by exists (d :: pre).
Qed.

Lemma first_bracketed_substring text m :
  first_bracketed text = Some m → ∃ pre post, text = pre ++ m ++ post.
Proof.
  unfold first_bracketed.
  destruct (after_first (ch "[") text) as [s'|] eqn:Ha; [|discriminate].
  destruct (upto_last (ch "]") s') as [t|] eqn:Hu; [|discriminate].
  intros [= <-]. destruct (after_first_split _ _ _ Ha) as [pre ->].
  destruct (upto_last_prefix _ _ _ Hu) as [Hp _].
  exists pre, (drop (length t) s'). do 2 f_equal.
  rewrite <- (take_drop (length t) s') at 1. by rewrite Hp.
Qed.


(** The sample texts, code unit by code unit where quotes occur. *)
Lemma text_array_units :
  text_array = [91; 34; 65; 34; 44; 34; 66; 34; 93]
  ∧ text_intro = lit "Intro: [" ++ dquote :: lit "1. Landed on the moon"
                   ++ dquote :: lit ", " ++ dquote :: lit "- Cured a disease"
                   ++ [dquote; 93]
  ∧ text_lines = lit "1. First" ++ 10 :: lit "2. Second" ++ 10 :: lit "3. Third".
Proof. by vm_compute. Qed.


(** ** The caps of the coercion *)

Lemma coerce_fallback_length text : (length (coerce_fallback text) ≤ 10)%nat.
Proof. unfold coerce_fallback, slice0. rewrite length_take. lia. Qed.

Lemma coerce_takes_fallback text :
  takes_fallback text → coerceToStringArray text = coerce_fallback text.
Proof.
  intros [H1 H2]. unfold coerceToStringArray. rewrite H1.
  destruct (String_match re_array text) as [m0|]; [|done].
  by rewrite (H2 m0).
Qed.

Lemma coerce_whole_array text parsed :
  parse_array text = Some parsed →
  coerceToStringArray text = map normalizeItem (string_elements parsed).
Proof. unfold coerceToStringArray. by intros ->. Qed.

Lemma coerce_bracketed_array text m0 parsed :
  parse_array text = None →
  String_match re_array text = Some m0 →
  parse_array m0 = Some parsed →
  coerceToStringArray text = map normalizeItem (string_elements parsed).
Proof. unfold coerceToStringArray. by intros -> -> ->. Qed.

(** C8. A text that reaches the line-splitting fallback (as every text does
    none of whose substrings parses as a JSON array) yields at most ten
    fragments (and ten are reached, although the response keeps five of
    them); the two JSON-array paths yield one item per string element of the
    parsed array, with no cap: eleven strings give eleven items. *)
Theorem C8_fallback_cap_of_ten :
  (∀ text,
      takes_fallback text →
      coerceToStringArray text = coerce_fallback text
      ∧ (length (coerceToStringArray text) ≤ 10)%nat)
  ∧ (∀ text,
      (∀ pre m post, text = pre ++ m ++ post → parse_array m = None) →
      takes_fallback text)
  ∧ (takes_fallback twelve_lines
     ∧ length (coerceToStringArray twelve_lines) = 10%nat
     ∧ ∀ y now cache,
         fst (GET_finish y now (OkJson (Some twelve_lines)) cache)
           = items_response y (map (fun c => [c]) (lit "abcde")))
  ∧ (∀ text parsed,
      parse_array text = Some parsed →
      length (coerceToStringArray text) = length (string_elements parsed))
  ∧ (∀ text m0 parsed,
      parse_array text = None →
      String_match re_array text = Some m0 →
      parse_array m0 = Some parsed →
      length (coerceToStringArray text) = length (string_elements parsed))
  ∧ (is_Some (parse_array eleven_strings)
     ∧ length (coerceToStringArray eleven_strings) = 11%nat)
  ∧ (parse_array (lit "Here: " ++ eleven_strings) = None
     ∧ String_match re_array (lit "Here: " ++ eleven_strings)
         = Some eleven_strings
     ∧ length (coerceToStringArray (lit "Here: " ++ eleven_strings)) = 11%nat).
Proof.
  split; [|split; [|split; [|split; [|split; [|split]]]]].
  - intros text H. rewrite (coerce_takes_fallback text H).
    split; [done | apply coerce_fallback_length].
  - intros text H. split.
    + apply (H [] text []). by rewrite app_nil_r.
    + intros m0. rewrite String_match_array. intros Hm.
      destruct (first_bracketed_substring _ _ Hm) as (pre & post & ->).
      by apply (H pre m0 post).
  - split; [|split].
    + split; [vm_compute; reflexivity|].
      intros m0. vm_compute. discriminate.
    + vm_compute; reflexivity.
    + intros y now cache. vm_compute; reflexivity.
  - intros text parsed H. rewrite (coerce_whole_array text parsed H).
    by rewrite length_map.
  - intros text m0 parsed H1 H2 H3.
    rewrite (coerce_bracketed_array text m0 parsed H1 H2 H3).
    by rewrite length_map.
  - split; [vm_compute; eauto | vm_compute; reflexivity].
  - split; [|split]; vm_compute; reflexivity.
Qed.

Lemma C8_fallback_cap_of_ten_witness :
  (coerceToStringArray twelve_lines = coerce_fallback twelve_lines
   ∧ (length (coerceToStringArray twelve_lines) ≤ 10)%nat)
  ∧ length (coerceToStringArray eleven_strings)
      = length (string_elements (map (fun c => JString [c]) (lit "abcdefghijk"))).
Proof.
  split.
  - apply (proj1 C8_fallback_cap_of_ten twelve_lines).
    split; [vm_compute; reflexivity|].
    intros m0. vm_compute. discriminate.
  - apply (proj1 (proj2 (proj2 (proj2 C8_fallback_cap_of_ten))) eleven_strings).
    vm_compute; reflexivity.
Defined.

(** ** The cache-hit path *)

Lemma GET_start_valid env request cache y :
  request_year request = Num y → (0 ≤ y)%Z →
  GET_start env request cache =
    match cache_hit (request_force request) (Date_now env) (cache !! y) with
    | Some cached => Responded (items_response y (items cached))
    | None =>
        match GEMINI_API_KEY env with
        | None | Some [] =>
            Responded (error_response 500 "Server missing GEMINI_API_KEY" None)
        | Some apiKey =>
            Fetching
              {| fetch_url := GEMINI_ENDPOINT; fetch_api_key := apiKey;
                 fetch_prompt_year := y |}
              y (Date_now env)
        end
    end.
Proof.
  intros Hy Hpos. unfold GET_start. rewrite Hy. simpl.
  destruct (Z.ltb_spec y 0); [lia | reflexivity].
Qed.

Lemma cache_hit_fresh now c :
  (now - at_ c < CACHE_TTL_MS)%Z → cache_hit false now (Some c) = Some c.
Proof.
  intros H. unfold cache_hit. simpl.
  destruct (Z.ltb_spec (now - at_ c) CACHE_TTL_MS); [reflexivity | lia].
Qed.

Lemma cache_hit_force now cached : cache_hit true now cached = None.
Proof. destruct cached; reflexivity. Qed.

Lemma cache_hit_Some force now cached c :
  cache_hit force now cached = Some c →
  cached = Some c ∧ force = false ∧ (now - at_ c < CACHE_TTL_MS)%Z.
Proof.
  unfold cache_hit. destruct cached as [c'|]; [|discriminate].
  destruct force; simpl; [discriminate|].
  destruct (Z.ltb_spec (now - at_ c') CACHE_TTL_MS); [|discriminate].
  intros [= <-]. auto.
Qed.

Lemma GET_hit env upstream request cache y c :
  request_year request = Num y → (0 ≤ y)%Z →
  request_force request = false →
  cache !! y = Some c →
  (Date_now env - at_ c < CACHE_TTL_MS)%Z →
  GET env upstream request cache = (items_response y (items c), cache, []).
Proof.
  intros Hy Hpos Hf Hc Hfresh. unfold GET.
  rewrite (GET_start_valid _ _ _ y Hy Hpos), Hf, Hc, cache_hit_fresh by done.
  reflexivity.
Qed.

Lemma cache_hit_None_iff force now cached :
  cache_hit force now cached = None ↔ refreshes force now cached.
Proof.
  unfold cache_hit, refreshes. destruct cached as [c|].
  - destruct force; simpl.
    + split; [auto | reflexivity].
    + destruct (Z.ltb_spec (now - at_ c) CACHE_TTL_MS); split.
      * discriminate.
      * intros [? | [(c' & [= <-] & ?) | ?]]; [discriminate | lia | discriminate].
      * intros _. right; left. eauto.
      * reflexivity.
  - split; [auto | reflexivity].
Qed.

(** ** The refresh path *)

Lemma GET_finish_cases y now res cache :
  (∃ msg detail st,
      GET_finish y now res cache = (error_response st msg detail, cache)
      ∧ st ≠ 200%Z)
  ∨ (∃ text,
      res = OkJson (Some text)
      ∧ coerceToStringArray text ≠ []
      ∧ GET_finish y now res cache =
          (items_response y (slice0 5 (coerceToStringArray text)),
           <[y := {| at_ := now; items := slice0 5 (coerceToStringArray text) |}]>
             cache)).
Proof.
  destruct res as [|[text|]| |[text|]]; simpl;
    try (left; eexists _, _, _; split; [reflexivity | done]).
  destruct text as [|c text];
    [left; eexists _, _, _; split; [reflexivity | done]|].
  destruct (coerceToStringArray (c :: text)) as [|i its] eqn:E.
  - left. eexists _, _, _; split; [reflexivity | done].
  - right. exists (c :: text). rewrite E. done.
Qed.

Lemma GET_finish_success y now text cache :
  text ≠ [] → coerceToStringArray text ≠ [] →
  GET_finish y now (OkJson (Some text)) cache =
    (items_response y (slice0 5 (coerceToStringArray text)),
     <[y := {| at_ := now; items := slice0 5 (coerceToStringArray text) |}]>
       cache).
Proof.
  intros Ht Hc. destruct text as [|c text]; [done|]. simpl.
  destruct (coerceToStringArray (c :: text)); done.
Qed.




(** What [GET_start] answers without going upstream. *)
Lemma GET_start_responded env request cache r :
  GET_start env request cache = Responded r →
  r = error_response 400 "Invalid or missing year" None
  ∨ r = error_response 500 "Server missing GEMINI_API_KEY" None
  ∨ ∃ y c, request_year request = Num y ∧ (0 ≤ y)%Z
      ∧ cache_hit (request_force request) (Date_now env) (cache !! y) = Some c
      ∧ r = items_response y (items c).
Proof.
  unfold GET_start.
  destruct (request_year request) as [| |y] eqn:Hy; simpl;
    try (intros [= <-]; by left).
  destruct (Z.ltb_spec y 0); [intros [= <-]; by left|].
  destruct (cache_hit _ _ _) as [c|] eqn:Hc.
  - intros [= <-]. right; right. by exists y, c.
  - destruct (GEMINI_API_KEY env) as [[|]|]; intros [= <-] || discriminate;
      right; by left.
Qed.

Lemma GET_start_fetching env request cache call y now :
  GET_start env request cache = Fetching call y now →
  request_year request = Num y ∧ (0 ≤ y)%Z ∧ now = Date_now env
  ∧ cache_hit (request_force request) now (cache !! y) = None
  ∧ ∃ apiKey, GEMINI_API_KEY env = Some apiKey ∧ apiKey ≠ []
      ∧ call = {| fetch_url := GEMINI_ENDPOINT; fetch_api_key := apiKey;
                  fetch_prompt_year := y |}.
Proof.
  unfold GET_start.
  destruct (request_year request) as [| |y'] eqn:Hy; simpl; try discriminate.
  destruct (Z.ltb_spec y' 0); [discriminate|].
  destruct (cache_hit _ _ _) as [c|] eqn:Hc; [discriminate|].
  destruct (GEMINI_API_KEY env) as [[|k apiKey]|]; try discriminate.
  intros [= <- <- <-]. repeat split; try done. by exists (k :: apiKey).
Qed.

Lemma GET_refresh_success env upstream request cache y apiKey text :
  request_year request = Num y → (0 ≤ y)%Z →
  refreshes (request_force request) (Date_now env) (cache !! y) →
  GEMINI_API_KEY env = Some apiKey → apiKey ≠ [] →
  let call := {| fetch_url := GEMINI_ENDPOINT; fetch_api_key := apiKey;
                 fetch_prompt_year := y |} in
  upstream call = OkJson (Some text) →
  text ≠ [] → coerceToStringArray text ≠ [] →
  let its := slice0 5 (coerceToStringArray text) in
  GET env upstream request cache =
    (items_response y its,
     <[y := {| at_ := Date_now env; items := its |}]> cache, [call]).
Proof.
  intros Hy Hpos Hr Hk Hk' call Hup Ht Hc its. unfold GET.
  rewrite (GET_start_valid _ _ _ y Hy Hpos).
  apply cache_hit_None_iff in Hr. rewrite Hr, Hk.
  destruct apiKey as [|k apiKey]; [done|]. fold call. rewrite Hup.
  by rewrite GET_finish_success.
Qed.




(** ** The bound on the items *)





(** ** Forced refresh *)

Lemma GET_finish_response y now res cache1 cache2 :
  fst (GET_finish y now res cache1) = fst (GET_finish y now res cache2).
Proof.
  destruct res as [|[t|]| |[[|c t]|]]; simpl; try done.
  by destruct (coerceToStringArray (c :: t)).
Qed.

(** C4. With [force] set, the answer of a request for a valid year does not
    depend on the cache (a non-expired entry is not returned in its place),
    the request goes upstream whenever the credential is configured, and a
    successful upstream call with a non-empty parse overwrites the entry of
    that year with the fresh items, whatever the cache holds when the
    handler resumes. *)
Theorem C4_force_bypasses_and_overwrites :
  ∀ env upstream request y,
    request_year request = Num y → (0 ≤ y)%Z →
    request_force request = true →
    (∀ cache1 cache2,
        fst (fst (GET env upstream request cache1))
          = fst (fst (GET env upstream request cache2))
        ∧ snd (GET env upstream request cache1)
          = snd (GET env upstream request cache2))
    ∧ (∀ cache apiKey,
        GEMINI_API_KEY env = Some apiKey → apiKey ≠ [] →
        snd (GET env upstream request cache)
          = [ {| fetch_url := GEMINI_ENDPOINT; fetch_api_key := apiKey;
                 fetch_prompt_year := y |} ])
    ∧ (∀ cache apiKey text,
        GEMINI_API_KEY env = Some apiKey → apiKey ≠ [] →
        let call := {| fetch_url := GEMINI_ENDPOINT; fetch_api_key := apiKey;
                       fetch_prompt_year := y |} in
        upstream call = OkJson (Some text) →
        coerceToStringArray text ≠ [] →
        let its := slice0 5 (coerceToStringArray text) in
        GET env upstream request cache
          = (items_response y its,
             <[y := {| at_ := Date_now env; items := its |}]> cache, [call]))
    ∧ (∀ now text cache,
        coerceToStringArray text ≠ [] →
        snd (GET_finish y now (OkJson (Some text)) cache) !! y
          = Some {| at_ := now; items := slice0 5 (coerceToStringArray text) |}).
Proof.
  intros env upstream request y Hy Hpos Hf.
  assert (Hstart : ∀ cache, GET_start env request cache =
            match GEMINI_API_KEY env with
            | None | Some [] =>
                Responded (error_response 500 "Server missing GEMINI_API_KEY" None)
            | Some apiKey =>
                Fetching
                  {| fetch_url := GEMINI_ENDPOINT; fetch_api_key := apiKey;
                     fetch_prompt_year := y |} y (Date_now env)
            end).
  { intros cache. rewrite (GET_start_valid _ _ _ y Hy Hpos), Hf.
    by rewrite cache_hit_force. }
  split; [|split; [|split]].
  - intros cache1 cache2. unfold GET. rewrite !Hstart.
    destruct (GEMINI_API_KEY env) as [[|k apiKey]|]; try done.
    set (call := {| fetch_url := _ |}).
    pose proof (GET_finish_response y (Date_now env) (upstream call) cache1 cache2).
    by do 2 destruct (GET_finish _ _ _ _).
  - intros cache apiKey Hk Hk'. unfold GET. rewrite Hstart, Hk.
    destruct apiKey as [|k apiKey]; [done|].
    by destruct (GET_finish _ _ _ _).
  - intros cache apiKey text Hk Hk' call Hup Hne its.
    eapply GET_refresh_success; try done.
    + rewrite Hf. by right; right.
    + intros ->. by vm_compute in Hne.
  - intros now text cache Hne. rewrite GET_finish_success; [|  |done].
    + apply lookup_insert_eq.
    + intros ->. by vm_compute in Hne.
Qed.

Lemma C4_force_bypasses_and_overwrites_witness :
  let cache := cache_of 1969 1000 [lit "Old entry"] in
  let call := {| fetch_url := GEMINI_ENDPOINT; fetch_api_key := lit "key";
                 fetch_prompt_year := 1969 |} in
  (∀ cache1 cache2,
      fst (fst (GET (env_at 2000) (upstream_text (litq "['A','B']"))
                  (request_forced (lit "1969")) cache1))
        = fst (fst (GET (env_at 2000) (upstream_text (litq "['A','B']"))
                      (request_forced (lit "1969")) cache2))
      ∧ snd (GET (env_at 2000) (upstream_text (litq "['A','B']"))
               (request_forced (lit "1969")) cache1)
        = snd (GET (env_at 2000) (upstream_text (litq "['A','B']"))
                 (request_forced (lit "1969")) cache2))
  ∧ GET (env_at 2000) (upstream_text (litq "['A','B']"))
        (request_forced (lit "1969")) cache
      = (items_response 1969 [lit "A"; lit "B"],
         <[1969%Z := {| at_ := 2000; items := [lit "A"; lit "B"] |}]> cache,
         [call]).
Proof.
  intros cache call.
  destruct (C4_force_bypasses_and_overwrites (env_at 2000)
              (upstream_text (litq "['A','B']"))
              (request_forced (lit "1969")) 1969%Z)
    as (H1 & _ & H3 & _).
  - vm_compute; reflexivity.
  - lia.
  - vm_compute; reflexivity.
  - split; [exact H1|].
    apply (H3 cache (lit "key") (litq "['A','B']")).
    + reflexivity.
    + discriminate.
    + reflexivity.
    + vm_compute; discriminate.
Defined.

(** ** Validation of the year *)

Lemma round_to_double_pos m v :
  (0 < m)%Z → round_to_double m = Some v → (0 < v)%Z.
Proof.
  intros Hm. unfold round_to_double.
  destruct (Z.ltb_spec m (2 ^ 53)); [intros [= <-]; exact Hm|].
  set (e := (Z.log2 m - 52)%Z).
  set (q := Z.shiftr m e).
  match goal with |- context [if ?b then (q + 1)%Z else q] => set (up := b) end.
  set (q' := if up then (q + 1)%Z else q).
  destruct (Z.ltb_spec (Z.shiftl q' e) (2 ^ 1024)); [|discriminate].
  intros [= <-].
  assert (He : (0 ≤ e)%Z).
  { assert (53 ≤ Z.log2 m)%Z; [|lia]. by apply Z.log2_le_pow2. }
  assert (Hq : (1 ≤ q)%Z).
  { unfold q. rewrite Z.shiftr_div_pow2 by done.
    apply Z.div_le_lower_bound; [by apply Z.pow_pos_nonneg|].
    rewrite Z.mul_1_r. transitivity (2 ^ Z.log2 m)%Z.
    - apply Z.pow_le_mono_r; lia.
    - by apply Z.log2_spec. }
  rewrite Z.shiftl_mul_pow2 by done.
  apply Z.mul_pos_pos; [|by apply Z.pow_pos_nonneg].
  unfold q'. destruct up; lia.
Qed.

Lemma request_year_missing request :
  searchParams_get (lit "year") (searchParams request) = None →
  request_year request = NaN.
Proof. unfold request_year. by intros ->. Qed.

Lemma parseInt10_no_digit s :
  fst (span_digits (snd (strip_sign (trimStart s)))) = [] →
  parseInt10 s = NaN.
Proof.
  unfold parseInt10. destruct (strip_sign (trimStart s)) as [negative s1].
  simpl. by intros ->.
Qed.

Lemma parseInt10_negative s s1 :
  strip_sign (trimStart s) = (true, s1) →
  (0 < digits_value 0 (fst (span_digits s1)))%Z →
  invalid_year (parseInt10 s).
Proof.
  intros Hs Hv. unfold parseInt10. rewrite Hs.
  destruct (fst (span_digits s1)) as [|d ds] eqn:Hds; [by left|].
  destruct (round_to_double _) as [v|] eqn:Hr.
  - right; right. exists (- v)%Z. split; [done|].
    apply round_to_double_pos in Hr; lia.
  - right; left. by exists true.
Qed.

Lemma GET_start_invalid env request cache :
  invalid_year (request_year request) →
  GET_start env request cache
    = Responded (error_response 400 "Invalid or missing year" None).
Proof.
  unfold GET_start.
  intros [-> | [[negative ->] | (z & -> & Hz)]]; try done.
  simpl. by destruct (Z.ltb_spec z 0); [|lia].
Qed.

(** C5, as the route has it.  A request whose year parameter [parseInt]
    does not read as a finite non-negative number (it is missing, no decimal
    digit follows the optional white space and sign, the digits are too many
    for a finite double, or a minus sign precedes a non-zero digit run) is
    answered with status 400 and the error "Invalid or missing year", goes
    to no upstream call and leaves the cache as it was; and no other request
    is answered with status 400. *)
Theorem C5_invalid_year_rejected :
  (∀ env upstream request cache,
      invalid_year (request_year request) →
      GET env upstream request cache
        = (error_response 400 "Invalid or missing year" None, cache, [])
      ∧ status (error_response 400 "Invalid or missing year" None) = 400%Z)
  ∧ (∀ env upstream request cache,
      status (fst (fst (GET env upstream request cache))) = 400%Z →
      invalid_year (request_year request))
  ∧ (∀ request,
      searchParams_get (lit "year") (searchParams request) = None →
      invalid_year (request_year request))
  ∧ (∀ request yearParam,
      searchParams_get (lit "year") (searchParams request) = Some yearParam →
      fst (span_digits (snd (strip_sign (trimStart yearParam)))) = [] →
      invalid_year (request_year request))
  ∧ (∀ request yearParam s1,
      searchParams_get (lit "year") (searchParams request) = Some yearParam →
      strip_sign (trimStart yearParam) = (true, s1) →
      (0 < digits_value 0 (fst (span_digits s1)))%Z →
      invalid_year (request_year request)).
Proof.
  split; [|split; [|split; [|split]]].
  - intros env upstream request cache H. split; [|reflexivity].
    unfold GET. by rewrite GET_start_invalid.
  - intros env upstream request cache. unfold GET.
    destruct (GET_start env request cache) as [r0|call y now] eqn:Hs.
    + simpl. revert Hs. unfold GET_start.
      destruct (request_year request) as [| |y] eqn:Hy; simpl.
      * intros _ _. by left.
      * intros _ _. right; left. by eexists.
      * destruct (Z.ltb_spec y 0).
        { intros _ _. right; right. by exists y. }
        destruct (cache_hit _ _ _); [by intros [= <-]|].
        destruct (GEMINI_API_KEY env) as [[|]|]; intros [= <-] || discriminate;
          done.
    + destruct (GET_finish_cases y now (upstream call) cache)
        as [(msg & detail & st & E & Hst) | (text & _ & Hne & E)].
      * revert E. destruct (upstream call) as [|[t|]| |[[|c t]|]]; simpl;
          try (intros [= <- <- <-]; done).
        destruct (coerceToStringArray (c :: t)); simpl;
          intros [= <- <- <-] || intros [=]; done.
      * rewrite E. done.
  - intros request H. left. by apply request_year_missing.
  - intros request yearParam Hp Hd. left. unfold request_year. rewrite Hp.
    by apply parseInt10_no_digit.
  - intros request yearParam s1 Hp Hs Hv. unfold request_year. rewrite Hp.
    by eapply parseInt10_negative.
Qed.

Lemma C5_invalid_year_rejected_witness :
  (GET (env_at 1000) (upstream_text (litq "['A']")) (request_for (lit "-5"))
       (cache_of 5 900 [lit "Old entry"])
     = (error_response 400 "Invalid or missing year" None,
        cache_of 5 900 [lit "Old entry"], [])
   ∧ status (error_response 400 "Invalid or missing year" None) = 400%Z)
  ∧ invalid_year (request_year request_without_year)
  ∧ invalid_year (request_year (request_for (lit "abc")))
  ∧ invalid_year (request_year (request_for (lit "-5"))).
Proof.
  assert (Hneg : invalid_year (request_year (request_for (lit "-5")))).
  { apply (proj2 (proj2 (proj2 (proj2 C5_invalid_year_rejected)))
             (request_for (lit "-5")) (lit "-5") (lit "5")).
    - vm_compute; reflexivity.
    - vm_compute; reflexivity.
    - vm_compute; reflexivity. }
  split; [|split; [|split]].
  - apply (proj1 C5_invalid_year_rejected). exact Hneg.
  - apply (proj1 (proj2 (proj2 C5_invalid_year_rejected))).
    vm_compute; reflexivity.
  - apply (proj1 (proj2 (proj2 (proj2 C5_invalid_year_rejected)))
             (request_for (lit "abc")) (lit "abc")).
    + vm_compute; reflexivity.
    + vm_compute; reflexivity.
  - exact Hneg.
Defined.

(** The year parameter [1.5] does not denote an integer, yet the request is
    not rejected: [parseInt] reads the year 1, the route goes upstream,
    answers with status 200 and stores an entry for the year 1.  The same
    happens for [12abc], read as the year 12. *)
Lemma C5_counterexample :
  let call y := {| fetch_url := GEMINI_ENDPOINT; fetch_api_key := lit "key";
                   fetch_prompt_year := y |} in
  ¬ denotes_year
      (searchParams_get (lit "year") (searchParams (request_for (lit "1.5"))))
  ∧ GET (env_at 1000) (upstream_text (litq "['A']")) (request_for (lit "1.5")) ∅
      = (items_response 1 [lit "A"],
         <[1%Z := {| at_ := 1000; items := [lit "A"] |}]> ∅, [call 1%Z])
  ∧ status (items_response 1 [lit "A"]) ≠ 400%Z
  ∧ ¬ denotes_year
      (searchParams_get (lit "year") (searchParams (request_for (lit "12abc"))))
  ∧ GET (env_at 1000) (upstream_text (litq "['A']")) (request_for (lit "12abc")) ∅
      = (items_response 12 [lit "A"],
         <[12%Z := {| at_ := 1000; items := [lit "A"] |}]> ∅, [call 12%Z]).
Proof.
  intros call. split; [|split; [|split; [|split]]].
  - intros (ds & Hds & _ & Hall & _). vm_compute in Hds. inversion Hds; subst ds.
    inversion Hall as [|? ? _ Hall']; subst.
    inversion Hall' as [|? ? Hdot _]; subst. vm_compute in Hdot. discriminate.
  - vm_compute; reflexivity.
  - discriminate.
  - intros (ds & Hds & _ & Hall & _). vm_compute in Hds. inversion Hds; subst ds.
    inversion Hall as [|? ? _ Hall']; subst.
    inversion Hall' as [|? ? _ Hall'']; subst.
    inversion Hall'' as [|? ? Ha _]; subst. vm_compute in Ha. discriminate.
  - vm_compute; reflexivity.
Qed.

(** ** Payloads of white space *)

Lemma is_space_range c : is_space c = true → c ≤ 32 ∨ 160 ≤ c.
Proof.
  unfold is_space. rewrite !orb_true_iff, !andb_true_iff, !N.eqb_eq, !N.leb_le.
  lia.
Qed.

Lemma is_space_neq c d : is_space c = true → 32 < d < 160 → (c =? d) = false.
Proof.
  intros H Hd. apply is_space_range in H. apply N.eqb_neq. lia.
Qed.

Lemma is_space_not_digit c : is_space c = true → is_digit c = false.
Proof.
  intros H. apply is_space_range in H. unfold is_digit.
  apply andb_false_iff. rewrite !N.leb_gt. lia.
Qed.

Lemma whitespace_only_skip_ws s : whitespace_only s → whitespace_only (skip_ws s).
Proof.
  induction 1 as [|c s Hc Hs IH]; simpl; [constructor|].
  destruct (is_json_ws c); [exact IH | by constructor].
Qed.

Lemma parse_literal_head c s :
  (c =? 116) = false → (c =? 102) = false → (c =? 110) = false →
  parse_literal (c :: s) = PErr.
Proof.
  intros Ht Hf Hn. unfold parse_literal.
  change (lit "true") with (116 :: lit "rue").
  change (lit "false") with (102 :: lit "alse").
  change (lit "null") with (110 :: lit "ull").
  cbn [strip_prefix]. rewrite !(N.eqb_sym _ c), Ht, Hf, Hn. done.
Qed.

Lemma parse_value_whitespace fuel s :
  whitespace_only s → ∀ v rest, parse_value fuel s ≠ POk v rest.
Proof.
  intros Hs v rest. destruct fuel as [|f]; [done|].
  destruct Hs as [|c s Hc Hs]; [done|]. simpl.
  rewrite (is_space_neq c (ch "[")), (is_space_neq c (ch "{")),
    (is_space_neq c dquote), (is_space_neq c (ch "-")),
    (is_space_not_digit c) by (done || (vm_compute; lia)).
  simpl. rewrite parse_literal_head; [done | ..]; by apply is_space_neq.
Qed.

Lemma JSON_parse_whitespace text : whitespace_only text → JSON_parse text = None.
Proof.
  intros H. unfold JSON_parse.
  pose proof (parse_value_whitespace (json_fuel text) (skip_ws text)
                (whitespace_only_skip_ws text H)) as Hp.
  destruct (parse_value _ _) as [v rest| |]; [by destruct (Hp v rest) | done | done].
Qed.

Lemma exec_from_first_char (p : N → bool) r' s :
  Forall (fun c => p c = false) s →
  ∀ i before, exec_from (RSeq (RChar p) r') i before s = None.
Proof.
  induction 1 as [|c s Hc Hs IH]; intros i before; simpl; [done|].
  unfold match_at. simpl. rewrite Hc. apply IH.
Qed.

Lemma String_match_array_whitespace text :
  whitespace_only text → String_match re_array text = None.
Proof.
  intros H. unfold String_match, exec, re_array.
  rewrite exec_from_first_char; [done|].
  eapply Forall_impl; [exact H|]. intros c Hc. unfold char_is.
  apply is_space_neq; [done | by vm_compute].
Qed.

Lemma split_loop_whitespace r s :
  whitespace_only s →
  ∀ i skip piece, whitespace_only piece →
    Forall whitespace_only (split_loop r i skip piece s).
Proof.
  induction 1 as [|c s Hc Hs IH]; intros i skip piece Hp; simpl.
  - constructor; [|constructor]. by apply Forall_rev.
  - assert (Hrev : whitespace_only (rev piece)).
    { by apply Forall_rev. }
    assert (Hc1 : whitespace_only [c]) by (by constructor).
    assert (Hcp : whitespace_only (c :: piece)) by (by constructor).
    destruct skip as [|n]; [|by apply IH].
    destruct (match_at r i (c :: s)) as [rest|]; [|by apply IH].
    destruct (_ - _)%nat.
    + destruct piece; [by apply IH | constructor; [done | by apply IH]].
    + constructor; [done | apply IH; constructor].
Qed.

Lemma trimStart_whitespace s : whitespace_only s → trimStart s = [].
Proof. induction 1 as [|c s Hc Hs IH]; simpl; [done | by rewrite Hc]. Qed.

Lemma trim_whitespace s : whitespace_only s → trim s = [].
Proof. intros H. unfold trim. by rewrite trimStart_whitespace. Qed.

Lemma filter_truthy_whitespace pieces :
  Forall whitespace_only pieces → List.filter truthy (map trim pieces) = [].
Proof.
  induction 1 as [|p pieces Hp _ IH]; simpl; [done|].
  by rewrite trim_whitespace.
Qed.

Lemma coerce_fallback_whitespace text :
  whitespace_only text → coerce_fallback text = [].
Proof.
  intros H. unfold coerce_fallback. rewrite filter_truthy_whitespace; [done|].
  unfold String_split. destruct text as [|c text].
  - destruct (match_at re_separator 0 []); constructor; [constructor|constructor].
  - apply split_loop_whitespace; [done | constructor].
Qed.

Lemma coerce_whitespace text :
  whitespace_only text → coerceToStringArray text = [].
Proof.
  intros H. unfold coerceToStringArray, parse_array.
  rewrite JSON_parse_whitespace, String_match_array_whitespace by done.
  by apply coerce_fallback_whitespace.
Qed.

Lemma GET_finish_blank y now rawText cache :
  whitespace_only (default [] rawText) →
  GET_finish y now (OkJson rawText) cache
    = (error_response 502 (blank_payload_error rawText) None, cache).
Proof.
  intros H. destruct rawText as [[|c text]|]; simpl; try done.
  by rewrite coerce_whitespace.
Qed.

(** C6, as the route has it.  An upstream answer whose text is missing or
    empty is answered with status 502 and the error "No content returned"; a
    non-empty text of white space only is answered with status 502 and the
    error "Empty content"; in both cases nothing is written to the cache. *)
Theorem C6_blank_payload :
  (∀ y now rawText cache,
      whitespace_only (default [] rawText) →
      GET_finish y now (OkJson rawText) cache
        = (error_response 502 (blank_payload_error rawText) None, cache)
      ∧ status (error_response 502 (blank_payload_error rawText) None) = 502%Z)
  ∧ (∀ env upstream request cache call y now rawText,
      GET_start env request cache = Fetching call y now →
      upstream call = OkJson rawText →
      whitespace_only (default [] rawText) →
      GET env upstream request cache
        = (error_response 502 (blank_payload_error rawText) None, cache, [call]))
  ∧ blank_payload_error None = "No content returned"%string
  ∧ blank_payload_error (Some []) = "No content returned"%string
  ∧ (∀ text, text ≠ [] →
      blank_payload_error (Some text) = "Empty content"%string).
Proof.
  split; [|split; [|split; [|split]]]; try done.
  - intros y now rawText cache H. split; [|reflexivity].
    by apply GET_finish_blank.
  - intros env upstream request cache call y now rawText Hs Hup H.
    unfold GET. by rewrite Hs, Hup, GET_finish_blank.
  - intros [|c text]; done.
Qed.

Lemma C6_blank_payload_witness :
  (GET_finish 1969 1000 (OkJson (Some (lit "   ")))
       (cache_of 1969 10 [lit "Old entry"])
     = (error_response 502 "Empty content" None,
        cache_of 1969 10 [lit "Old entry"])
   ∧ status (error_response 502 "Empty content" None) = 502%Z)
  ∧ GET (env_at 1000) (upstream_text []) (request_for (lit "1969")) ∅
      = (error_response 502 "No content returned" None, ∅,
         [ {| fetch_url := GEMINI_ENDPOINT; fetch_api_key := lit "key";
              fetch_prompt_year := 1969 |} ])
  ∧ blank_payload_error (Some (lit "   ")) = "Empty content"%string.
Proof.
  split; [|split].
  - apply (proj1 C6_blank_payload 1969%Z 1000%Z (Some (lit "   "))
             (cache_of 1969 10 [lit "Old entry"])).
    repeat constructor.
  - apply (proj1 (proj2 C6_blank_payload) (env_at 1000) (upstream_text [])
             (request_for (lit "1969")) ∅
             {| fetch_url := GEMINI_ENDPOINT; fetch_api_key := lit "key";
                fetch_prompt_year := 1969 |} 1969%Z 1000%Z (Some [])).
    + vm_compute; reflexivity.
    + reflexivity.
    + constructor.
  - apply (proj2 (proj2 (proj2 (proj2 C6_blank_payload))) (lit "   ")).
    discriminate.
Defined.

(** A payload of one space is white space only, and the route answers it
    with the error "Empty content", not "No content returned". *)
Lemma C6_counterexample :
  whitespace_only (lit " ")
  ∧ GET (env_at 1000) (upstream_text (lit " ")) (request_for (lit "1969")) ∅
      = (error_response 502 "Empty content" None, ∅,
         [ {| fetch_url := GEMINI_ENDPOINT; fetch_api_key := lit "key";
              fetch_prompt_year := 1969 |} ])
  ∧ body (error_response 502 "Empty content" None)
      ≠ ErrorBody "No content returned" None.
Proof.
  split; [repeat constructor|]. split; [vm_compute; reflexivity | discriminate].
Qed.

(** ** The credential *)

(** C7. On the refresh path (cache miss, expired entry or forced refresh) a
    request for a valid year made while the credential is unset is answered
    with status 500 and the error "Server missing GEMINI_API_KEY", goes to no
    upstream call and leaves the cache as it was. *)
Theorem C7_missing_credential :
  ∀ env upstream request cache y,
    request_year request = Num y → (0 ≤ y)%Z →
    refreshes (request_force request) (Date_now env) (cache !! y) →
    GEMINI_API_KEY env = None →
    GET env upstream request cache
      = (error_response 500 "Server missing GEMINI_API_KEY" None, cache, [])
    ∧ status (error_response 500 "Server missing GEMINI_API_KEY" None) = 500%Z.
Proof.
  intros env upstream request cache y Hy Hpos Hr Hk. split; [|reflexivity].
  unfold GET. rewrite (GET_start_valid _ _ _ y Hy Hpos).
  apply cache_hit_None_iff in Hr. by rewrite Hr, Hk.
Qed.

Lemma C7_missing_credential_witness :
  GET (env_without_key (1000 + 604800000)) (upstream_text (litq "['A']"))
      (request_for (lit "1969")) (cache_of 1969 1000 [lit "Old entry"])
    = (error_response 500 "Server missing GEMINI_API_KEY" None,
       cache_of 1969 1000 [lit "Old entry"], [])
  ∧ status (error_response 500 "Server missing GEMINI_API_KEY" None) = 500%Z.
Proof.
  apply (C7_missing_credential (env_without_key (1000 + 604800000))
           (upstream_text (litq "['A']")) (request_for (lit "1969"))
           (cache_of 1969 1000 [lit "Old entry"]) 1969%Z).
  - vm_compute; reflexivity.
  - lia.
  - right; left. exists {| at_ := 1000; items := [lit "Old entry"] |}.
    split; [vm_compute; reflexivity | vm_compute; discriminate].
  - reflexivity.
Defined.

(** C10. A request without [force] for a year with a non-expired entry is
    answered with status 200 and the cached items even when the credential
    is unset; the answer "Server missing GEMINI_API_KEY" is given on the
    refresh path only. *)
Theorem C10_hit_needs_no_credential :
  (∀ env upstream request cache y c,
      request_year request = Num y → (0 ≤ y)%Z →
      request_force request = false →
      cache !! y = Some c →
      (Date_now env - at_ c < CACHE_TTL_MS)%Z →
      GEMINI_API_KEY env = None →
      GET env upstream request cache = (items_response y (items c), cache, [])
      ∧ status (items_response y (items c)) = 200%Z)
  ∧ (∀ env upstream request cache r cache' calls detail,
      GET env upstream request cache = (r, cache', calls) →
      body r = ErrorBody "Server missing GEMINI_API_KEY" detail →
      ∃ y, request_year request = Num y ∧ (0 ≤ y)%Z
        ∧ refreshes (request_force request) (Date_now env) (cache !! y)
        ∧ no_credential env).
Proof.
  split.
  - intros. split; [by eapply GET_hit | reflexivity].
  - intros env upstream request cache r cache' calls detail. unfold GET.
    destruct (GET_start env request cache) as [r0|call y now] eqn:Hs.
    + intros [= <- <- <-] Hb. revert Hs. unfold GET_start.
      destruct (request_year request) as [| |y] eqn:Hy; simpl;
        try (intros [= <-]; discriminate).
      destruct (Z.ltb_spec y 0); [intros [= <-]; discriminate|].
      destruct (cache_hit _ _ _) as [c|] eqn:Hc; [intros [= <-]; discriminate|].
      apply cache_hit_None_iff in Hc. intros Hs. exists y.
      repeat split; try done. unfold no_credential.
      destruct (GEMINI_API_KEY env) as [[|]|]; auto. discriminate.
    + destruct (upstream call) as [|[t|]| |[[|c t]|]]; simpl;
        try (intros [= <- <- <-]; discriminate).
      destruct (coerceToStringArray (c :: t)); simpl;
        intros [= <- <- <-]; discriminate.
Qed.

Lemma C10_hit_needs_no_credential_witness :
  (GET (env_without_key 5000) (upstream_text []) (request_for (lit "1969"))
       (cache_of 1969 1000 [lit "Moon landing"])
     = (items_response 1969 [lit "Moon landing"],
        cache_of 1969 1000 [lit "Moon landing"], [])
   ∧ status (items_response 1969 [lit "Moon landing"]) = 200%Z)
  ∧ ∃ y, request_year (request_for (lit "1969")) = Num y ∧ (0 ≤ y)%Z
      ∧ refreshes (request_force (request_for (lit "1969")))
          (Date_now (env_without_key 5000)) ((∅ : YearCache) !! y)
      ∧ no_credential (env_without_key 5000).
Proof.
  split.
  - apply (proj1 C10_hit_needs_no_credential (env_without_key 5000)
             (upstream_text []) (request_for (lit "1969"))
             (cache_of 1969 1000 [lit "Moon landing"]) 1969%Z
             {| at_ := 1000; items := [lit "Moon landing"] |}).
    + vm_compute; reflexivity.
    + lia.
    + vm_compute; reflexivity.
    + vm_compute; reflexivity.
    + vm_compute; reflexivity.
    + reflexivity.
  - apply (proj2 C10_hit_needs_no_credential (env_without_key 5000)
             (upstream_text []) (request_for (lit "1969")) ∅
             (error_response 500 "Server missing GEMINI_API_KEY" None) ∅ []
             None).
    + vm_compute; reflexivity.
    + reflexivity.
Defined.

(** ** The fetch client *)

Lemma settle_stale_view st id ev :
  stale st id → Client.settles ev = Some id →
  Client.view (Client.step st ev) = Client.view st.
Proof.
  intros (e & He & Hc) Hev.
  destruct ev as [y|id' ok|id' d]; simpl in Hev; [discriminate| |];
    injection Hev as ->; simpl; rewrite He.
  - destruct (Client.phase e); try done.
    unfold Client.on_catch. rewrite Hc. by destruct ok as [[]|].
  - destruct (Client.phase e); try done.
    unfold Client.on_catch. rewrite Hc. by destruct d.
Qed.

Lemma stale_insert_phase st id id' e' p :
  Client.effects st !! id' = Some e' →
  stale st id →
  stale (Client.with_effects st
           (<[id' := Client.set_phase p e']> (Client.effects st))) id.
Proof.
  intros He' (e & He & Hc). unfold stale. simpl.
  destruct (decide (id' = id)) as [->|Hne].
  - rewrite He in He'. injection He' as <-.
    exists (Client.set_phase p e). split; [|done].
    apply list_lookup_insert_eq. by eapply lookup_lt_Some.
  - exists e. by rewrite list_lookup_insert_ne.
Qed.

Lemma stale_effects st st' id :
  Client.effects st' = Client.effects st → stale st id → stale st' id.
Proof. unfold stale. by intros ->. Qed.

Lemma stale_run_effect st id : stale st id → stale (Client.run_effect st) id.
Proof.
  intros (e & He & Hc). unfold stale, Client.run_effect.
  exists e. split; [|done].
  destruct (Client.cacheRef st !! Client.year st) as [[|c cs]|]; simpl;
    by apply lookup_app_l_Some.
Qed.

Lemma stale_step st ev id : stale st id → stale (Client.step st ev) id.
Proof.
  intros Hs. destruct ev as [y|id' ok|id' d]; simpl.
  - case_decide; [done|]. apply stale_run_effect.
    destruct Hs as (e & He & Hc). unfold stale, Client.cleanup_latest. simpl.
    destruct (decide (pred (length (Client.effects st)) = id)) as [<-|Hne].
    + exists (Client.cleanup e). by rewrite list_lookup_alter_eq, He.
    + exists e. by rewrite list_lookup_alter_ne.
  - destruct (Client.effects st !! id') as [e'|] eqn:He'; [|done].
    destruct (Client.phase e'); try done.
    destruct ok as [[]|]; try by apply stale_insert_phase.
    all: unfold Client.on_catch; destruct (Client.isCurrent e');
      [|by apply stale_insert_phase];
      eapply stale_effects; [|by apply (stale_insert_phase _ _ _ _ Client.Returned He')];
      done.
  - destruct (Client.effects st !! id') as [e'|] eqn:He'; [|done].
    destruct (Client.phase e'); try done.
    destruct d as [d|].
    + destruct (Client.isCurrent e'); [|by apply stale_insert_phase].
      eapply stale_effects;
        [|by apply (stale_insert_phase _ _ _ _ Client.Returned He')]; done.
    + unfold Client.on_catch. destruct (Client.isCurrent e');
        [|by apply stale_insert_phase].
      eapply stale_effects;
        [|by apply (stale_insert_phase _ _ _ _ Client.Returned He')]; done.
Qed.

Lemma stale_run evs : ∀ st id, stale st id → stale (Client.run st evs) id.
Proof.
  induction evs as [|ev evs IH]; intros st id Hs; [done|].
  simpl. apply IH. by apply stale_step.
Qed.

Lemma render_makes_stale st id y2 :
  S id = length (Client.effects st) → y2 ≠ Client.year st →
  stale (Client.step st (Client.Render y2)) id.
Proof.
  intros Hid Hy. simpl. case_decide; [done|]. apply stale_run_effect.
  unfold stale, Client.cleanup_latest. simpl. rewrite <- Hid. simpl.
  destruct (Client.effects st !! id) as [e|] eqn:He.
  - exists (Client.cleanup e). by rewrite list_lookup_alter_eq, He.
  - apply lookup_ge_None in He. lia.
Qed.

Lemma settle_effects st ev id :
  Client.settles ev = Some id →
  Client.year (Client.step st ev) = Client.year st
  ∧ (Client.effects (Client.step st ev) = Client.effects st
     ∨ ∃ e p, Client.effects st !! id = Some e
        ∧ Client.effects (Client.step st ev)
            = <[id := Client.set_phase p e]> (Client.effects st)).
Proof.
  intros Hev.
  destruct ev as [y|id' ok|id' d]; simpl in Hev; [discriminate| |];
    injection Hev as ->; simpl;
    (destruct (Client.effects st !! id) as [e|] eqn:He; [|by auto]);
    (destruct (Client.phase e); [| |]; try by auto).
  - destruct ok as [[]|]; unfold Client.on_catch;
      try destruct (Client.isCurrent e); simpl; split; try done;
      right; by eexists _, _.
  - destruct d as [d|]; unfold Client.on_catch;
      destruct (Client.isCurrent e); simpl; split; try done;
      right; by eexists _, _.
Qed.

Lemma client_inv_mount y : client_inv (Client.mount y).
Proof.
  unfold client_inv, Client.mount, Client.run_effect. simpl.
  rewrite lookup_empty. simpl. split; [intros id; lia|]. by eexists.
Qed.

Lemma run_effect_shape st :
  Client.year (Client.run_effect st) = Client.year st
  ∧ ∃ p, Client.effects (Client.run_effect st)
      = Client.effects st
          ++ [ {| Client.eff_year := Client.year st; Client.isCurrent := true;
                  Client.phase := p |} ].
Proof.
  unfold Client.run_effect.
  destruct (Client.cacheRef st !! Client.year st) as [[|c cs]|]; simpl;
    (split; [done | by eexists]).
Qed.

Lemma client_inv_step st ev : client_inv st → client_inv (Client.step st ev).
Proof.
  intros [Ha (e & Hlast & Hyear)].
  destruct (Client.settles ev) as [id|] eqn:Hev.
  - destruct (settle_effects st ev id Hev) as [Hy Hes]. split.
    + intros id' Hid'. apply stale_step, Ha.
      destruct Hes as [Hes | (e' & p & _ & Hes)]; rewrite Hes in Hid';
        [done | by rewrite length_insert in Hid'].
    + rewrite Hy. destruct Hes as [-> | (e' & p & He' & ->)]; [by exists e|].
      rewrite last_lookup, length_insert, list_lookup_insert.
      rewrite last_lookup in Hlast. case_decide as Hd.
      * destruct Hd as [Hd _]. rewrite <- Hd, He' in Hlast.
        injection Hlast as <-.
        by eexists.
      * by exists e.
  - destruct ev as [y| |]; try discriminate.
    destruct (decide (y = Client.year st)) as [->|Hd].
    { simpl. rewrite decide_True by done. split; [done | by exists e]. }
    set (st1 := {| Client.year := y; Client.items := Client.items st;
                   Client.status := Client.status st;
                   Client.cacheRef := Client.cacheRef st;
                   Client.effects := Client.cleanup_latest (Client.effects st) |}).
    assert (Hstep : Client.step st (Client.Render y) = Client.run_effect st1).
    { simpl. by rewrite decide_False. }
    destruct (run_effect_shape st1) as [Hy (p & Hes)]. split.
    + intros id Hid. rewrite Hstep, Hes, length_app in Hid. simpl in Hid.
      unfold Client.cleanup_latest in Hid. rewrite length_alter in Hid.
      destruct (decide (S id = length (Client.effects st))) as [Heq|Hne].
      * by apply (render_makes_stale st id y).
      * apply (stale_step st (Client.Render y)), Ha. lia.
    + rewrite Hstep, Hy, Hes, last_snoc. by eexists.
Qed.

Lemma client_inv_run evs : ∀ st, client_inv st → client_inv (Client.run st evs).
Proof.
  induction evs as [|ev evs IH]; intros st H; [done|].
  simpl. by apply IH, client_inv_step.
Qed.

(** C9. When the year changes from Y1 to Y2 while the request of Y1 is
    pending, no later settling of that request changes the items, the status
    or the client cache, whatever happens in between; and in a running
    component a settling promise changes them only if it belongs to the
    latest run of the effect, the run of the year currently requested. *)
Theorem C9_stale_response_discarded :
  (∀ st id y2 evs ev,
      S id = length (Client.effects st) →
      y2 ≠ Client.year st →
      Client.settles ev = Some id →
      let st2 := Client.run (Client.step st (Client.Render y2)) evs in
      Client.view (Client.step st2 ev) = Client.view st2)
  ∧ (∀ y0 evs ev id,
      let st := Client.run (Client.mount y0) evs in
      Client.settles ev = Some id →
      Client.view (Client.step st ev) ≠ Client.view st →
      S id = length (Client.effects st)
      ∧ ∃ e, Client.effects st !! id = Some e
          ∧ Client.eff_year e = Client.year st
          ∧ Client.isCurrent e = true).
Proof.
  split.
  - intros st id y2 evs ev Hid Hy Hev st2.
    apply (settle_stale_view st2 id ev); [|done].
    by apply stale_run, render_makes_stale.
  - intros y0 evs ev id st Hev Hview.
    assert (Hinv : client_inv st) by apply client_inv_run, client_inv_mount.
    destruct Hinv as [Ha (e & Hlast & Hyear)].
    destruct (Client.effects st !! id) as [e'|] eqn:He'.
    + assert (Hid : S id = length (Client.effects st)).
      { destruct (decide (S id = length (Client.effects st))); [done|].
        apply lookup_lt_Some in He'.
        exfalso. apply Hview, (settle_stale_view st id ev); [|done].
        apply Ha. lia. }
      split; [done|]. exists e'. split; [done|].
      rewrite last_lookup, <- Hid in Hlast. simpl in Hlast.
      rewrite Hlast in He'. injection He' as <-. split; [done|].
      destruct (Client.isCurrent e) eqn:Hc; [done|].
      exfalso. apply Hview, (settle_stale_view st id ev); [|done].
      exists e. by rewrite Hlast.
    + exfalso. apply Hview.
      destruct ev as [y|id' ok|id' d]; simpl in Hev; [discriminate| |];
        injection Hev as ->; simpl; by rewrite He'.
Qed.

Lemma C9_stale_response_discarded_witness :
  (let st2 :=
     Client.run (Client.step (Client.mount 2025) (Client.Render 2024))
       [Client.FetchSettled 0 (Some true);
        Client.FetchSettled 1 (Some true)] in
   Client.view
     (Client.step st2 (Client.JsonSettled 0 (Some (Some [lit "Y1 item"]))))
     = Client.view st2)
  ∧ (let st := Client.run (Client.mount 2025)
                 [Client.FetchSettled 0 (Some true)] in
     S 0 = length (Client.effects st)
     ∧ ∃ e, Client.effects st !! 0%nat = Some e
         ∧ Client.eff_year e = Client.year st
         ∧ Client.isCurrent e = true).
Proof.
  split.
  - apply (proj1 C9_stale_response_discarded (Client.mount 2025) 0%nat 2024%Z
             [Client.FetchSettled 0 (Some true);
              Client.FetchSettled 1 (Some true)]
             (Client.JsonSettled 0 (Some (Some [lit "Y1 item"])))).
    + reflexivity.
    + vm_compute; discriminate.
    + reflexivity.
  - apply (proj2 C9_stale_response_discarded 2025%Z
             [Client.FetchSettled 0 (Some true)]
             (Client.JsonSettled 0 (Some (Some [lit "Y1 item"]))) 0%nat).
    + reflexivity.
    + intros H. apply (f_equal (fun v => snd (fst v))) in H.
      vm_compute in H. discriminate.
Defined.

(** * Further properties of the route *)

(** ** The responses and the writes of [GET] *)

Lemma GET_finish_shapes y now res cache :
  (∃ r, GET_finish y now res cache = (r, cache)
     ∧ status r ≠ 200%Z
     ∧ (r = error_response 500 "Unexpected server error" None
        ∨ (∃ detail, r = error_response 502 "Upstream error" (Some detail))
        ∨ r = error_response 502 "No content returned" None
        ∨ r = error_response 502 "Empty content" None))
  ∨ (∃ its, its ≠ []
     ∧ GET_finish y now res cache
         = (items_response y its,
            <[y := {| at_ := now; items := its |}]> cache)).
Proof.
  destruct res as [|[t|]| |[[|c t]|]]; simpl;
    try (left; eexists; split; [reflexivity|]; split; [done|]; by eauto 6).
  destruct (coerceToStringArray (c :: t)) as [|i its] eqn:E; simpl.
  - left. eexists; split; [reflexivity|]. split; [done|]. by eauto 6.
  - right. eexists. split; [|reflexivity]. done.
Qed.

(** Every answer of [GET] has one of the seven shapes of the route: its
    status is 200, 400, 500 or 502, and it carries the [Cache-Control]
    header exactly when the status is 200. *)
Theorem GET_response_shapes env upstream request cache :
  let r := fst (fst (GET env upstream request cache)) in
  route_response r
  ∧ (status r = 200 ∨ status r = 400 ∨ status r = 500 ∨ status r = 502)%Z
  ∧ (cache_control r = Some "public, max-age=0, s-maxage=86400"%string
     ↔ status r = 200%Z)
  ∧ (cache_control r = None ↔ status r ≠ 200%Z).
Proof.
  assert (H : route_response (fst (fst (GET env upstream request cache)))).
  { unfold GET.
    destruct (GET_start env request cache) as [r0|call y now] eqn:Hs.
    - apply GET_start_responded in Hs
        as [-> | [-> | (y & c & _ & _ & _ & ->)]]; unfold route_response;
        simpl; eauto 10.
    - destruct (GET_finish_shapes y now (upstream call) cache)
        as [(r & -> & _ & [-> | [[d ->] | [-> | ->]]]) | (its & _ & ->)];
        unfold route_response; simpl; eauto 10. }
  cbv zeta. split; [exact H|].
  destruct H as [(y & its & ->) | [-> | [-> | [[d ->] | [-> | [-> | ->]]]]]];
    simpl; (split; [lia|]); split; split; try done; try lia.
Qed.

Lemma GET_write env upstream request cache r cache' calls :
  GET env upstream request cache = (r, cache', calls) →
  (cache' = cache ∧ status r ≠ 200%Z)
  ∨ (cache' = cache ∧ calls = [] ∧ status r = 200%Z)
  ∨ (∃ y its call,
        request_year request = Num y ∧ (0 ≤ y)%Z ∧ its ≠ []
        ∧ calls = [call] ∧ r = items_response y its
        ∧ cache' = <[y := {| at_ := Date_now env; items := its |}]> cache).
Proof.
  unfold GET. destruct (GET_start env request cache) as [r0|call y now] eqn:Hs.
  - intros [= <- <- <-].
    destruct (decide (status r0 = 200%Z)); [right; left | left]; done.
  - apply GET_start_fetching in Hs as (Hy & Hpos & -> & _).
    destruct (GET_finish_shapes y (Date_now env) (upstream call) cache)
      as [(r1 & -> & Hst & _) | (its & Hne & ->)]; intros [= <- <- <-].
    + by left.
    + right; right. by exists y, its, call.
Qed.

Lemma GET_calls_length env upstream request cache :
  (length (snd (GET env upstream request cache)) ≤ 1)%nat.
Proof.
  unfold GET. destruct (GET_start env request cache); [simpl; lia|].
  destruct (GET_finish _ _ _ _). simpl. lia.
Qed.

(** [GET] writes to the cache only when it answers 200 after an upstream
    call, and then only the entry of the year it parsed: every other answer
    leaves the cache as it was, and the entries of all other years are never
    touched. *)
Theorem GET_writes_only_its_year env upstream request cache :
  let '(r, cache', calls) := GET env upstream request cache in
  (status r ≠ 200%Z → cache' = cache)
  ∧ (calls = [] → cache' = cache)
  ∧ (cache' ≠ cache → status r = 200%Z ∧ length calls = 1%nat)
  ∧ (∀ y', request_year request ≠ Num y' → cache' !! y' = cache !! y')
  ∧ (length calls ≤ 1)%nat.
Proof.
  pose proof (GET_calls_length env upstream request cache) as Hl.
  destruct (GET env upstream request cache) as [[r cache'] calls] eqn:HG.
  simpl in Hl.
  apply GET_write in HG
    as [[-> Hst] | [(-> & -> & Hst) | (y & its & call & Hy & _ & _ & -> & -> & ->)]].
  - by repeat (split; [done|]).
  - by repeat (split; [done|]).
  - split; [done|]. split; [done|]. split; [done|]. split; [|done].
    intros y' Hy'. apply lookup_insert_ne. congruence.
Qed.

(** ** When the cache answers *)

(** For a valid year, [GET] answers 200 without an upstream call exactly
    when the request is not forced and the entry of the year is younger than
    seven days; an entry that is exactly seven days old is refreshed, and an
    entry stamped in the future counts as fresh. *)
Theorem GET_served_from_cache_iff env upstream request cache y :
  request_year request = Num y → (0 ≤ y)%Z →
  let '(r, _, calls) := GET env upstream request cache in
  (status r = 200%Z ∧ calls = []
   ↔ request_force request = false
     ∧ ∃ c, cache !! y = Some c ∧ (Date_now env - at_ c < 604800000)%Z)
  ∧ (status r = 200%Z ∧ calls = [] →
     ∃ c, cache !! y = Some c ∧ r = items_response y (items c)).
Proof.
  intros Hy Hpos. unfold GET. rewrite (GET_start_valid _ _ _ y Hy Hpos).
  destruct (cache_hit _ _ _) as [c|] eqn:Hc.
  - apply cache_hit_Some in Hc as (Hc & Hf & Hfresh). split.
    + split; [|done]. intros _. split; [done|]. by exists c.
    + intros _. by exists c.
  - assert (Hno : ¬ (request_force request = false
               ∧ ∃ c, cache !! y = Some c
                   ∧ (Date_now env - at_ c < 604800000)%Z)).
    { intros (Hf & c & Hc' & Hfresh).
      by rewrite Hf, Hc', cache_hit_fresh in Hc. }
    destruct (GEMINI_API_KEY env) as [[|k apiKey]|]; simpl;
      try (split; [split; [intros [[=] _] | done] | intros [[=] _]]).
    destruct (GET_finish _ _ _ _). by split; [split; [intros [_ [=]] | done] | intros [_ [=]]].
Qed.

Lemma GET_served_from_cache_iff_witness :
  let '(r, _, calls) :=
    GET (env_at (1000 + 604800000)) (upstream_text (litq "['New']"))
      (request_for (lit "1969")) (cache_of 1969 1000 [lit "Old"]) in
  (status r = 200%Z ∧ calls = []
   ↔ request_force (request_for (lit "1969")) = false
     ∧ ∃ c, cache_of 1969 1000 [lit "Old"] !! 1969%Z = Some c
         ∧ (Date_now (env_at (1000 + 604800000)) - at_ c < 604800000)%Z)
  ∧ (status r = 200%Z ∧ calls = [] →
     ∃ c, cache_of 1969 1000 [lit "Old"] !! 1969%Z = Some c
       ∧ r = items_response 1969 (items c)).
Proof.
  apply (GET_served_from_cache_iff (env_at (1000 + 604800000))
           (upstream_text (litq "['New']")) (request_for (lit "1969"))
           (cache_of 1969 1000 [lit "Old"]) 1969%Z).
  - vm_compute; reflexivity.
  - lia.
Defined.

(** ** A refresh that fails *)

(** When a refresh does not end in a 200 (the upstream call is rejected,
    answers with an error status, or its text yields no item), the previous
    entry of the year stays in the cache, and a later request without
    [force] that comes less than seven days after that entry was written is
    still answered with its items. *)
Theorem failed_refresh_keeps_entry
    env1 upstream1 request1 env2 upstream2 request2 cache y c :
  request_year request1 = Num y → request_year request2 = Num y →
  (0 ≤ y)%Z →
  cache !! y = Some c →
  status (fst (fst (GET env1 upstream1 request1 cache))) ≠ 200%Z →
  request_force request2 = false →
  (Date_now env2 - at_ c < CACHE_TTL_MS)%Z →
  snd (fst (GET env1 upstream1 request1 cache)) = cache
  ∧ GET env2 upstream2 request2 (snd (fst (GET env1 upstream1 request1 cache)))
      = (items_response y (items c), cache, []).
Proof.
  intros Hy1 Hy2 Hpos Hc Hst Hf Hfresh.
  destruct (GET env1 upstream1 request1 cache) as [[r cache'] calls] eqn:HG.
  simpl in *.
  apply GET_write in HG
    as [[-> _] | [(-> & _ & Hst') | (y' & its & call & _ & _ & _ & _ & -> & _)]];
    try done.
  all: split; [done | by apply GET_hit].
Qed.

Lemma failed_refresh_keeps_entry_witness :
  snd (fst (GET (env_at 5000) (fun _ => NotOk (Some (lit "quota")))
              (request_forced (lit "1969")) (cache_of 1969 1000 [lit "Old"])))
    = cache_of 1969 1000 [lit "Old"]
  ∧ GET (env_at 9000) (upstream_text []) (request_for (lit "1969"))
      (snd (fst (GET (env_at 5000) (fun _ => NotOk (Some (lit "quota")))
                   (request_forced (lit "1969"))
                   (cache_of 1969 1000 [lit "Old"]))))
      = (items_response 1969 [lit "Old"], cache_of 1969 1000 [lit "Old"], []).
Proof.
  apply (failed_refresh_keeps_entry (env_at 5000)
           (fun _ => NotOk (Some (lit "quota"))) (request_forced (lit "1969"))
           (env_at 9000) (upstream_text []) (request_for (lit "1969"))
           (cache_of 1969 1000 [lit "Old"]) 1969%Z
           {| at_ := 1000; items := [lit "Old"] |}).
  - vm_compute; reflexivity.
  - vm_compute; reflexivity.
  - lia.
  - vm_compute; reflexivity.
  - vm_compute; discriminate.
  - vm_compute; reflexivity.
  - vm_compute; reflexivity.
Defined.

(** ** Arrays without strings *)

(** An upstream text that parses as a JSON array without a string element
    (an empty array, or numbers, objects and nested arrays only) yields no
    item: the answer is 502 "Empty content" and nothing is stored; the
    fallback is not tried on such a text. *)
Theorem array_without_strings_is_empty y now text parsed cache :
  parse_array text = Some parsed →
  string_elements parsed = [] →
  coerceToStringArray text = []
  ∧ GET_finish y now (OkJson (Some text)) cache
      = (error_response 502 "Empty content" None, cache).
Proof.
  intros Hp Hs.
  assert (Hc : coerceToStringArray text = []).
  { by rewrite (coerce_whole_array text parsed Hp), Hs. }
  split; [done|]. destruct text as [|c t]; [by vm_compute in Hp|].
  simpl. by rewrite Hc.
Qed.

Lemma array_without_strings_is_empty_witness :
  coerceToStringArray (litq "[1, {'a': 'x'}, ['y'], null]") = []
  ∧ GET_finish 1969 1000 (OkJson (Some (litq "[1, {'a': 'x'}, ['y'], null]")))
      (cache_of 1969 10 [lit "Old"])
      = (error_response 502 "Empty content" None, cache_of 1969 10 [lit "Old"]).
Proof.
  apply (array_without_strings_is_empty 1969%Z 1000%Z
           (litq "[1, {'a': 'x'}, ['y'], null]")
           [JNumber (lit "1"); JObject [(lit "a", JString (lit "x"))];
            JArray [JString (lit "y")]; JNull]).
  - vm_compute; reflexivity.
  - reflexivity.
Defined.

(** An upstream text that parses as a JSON array with at least one string
    element is answered 200 with the first five of its strings, normalized,
    and stored: the test for "Empty content" counts items, not characters,
    so items that normalize to the empty string are served like any other. *)
Theorem array_with_a_string_is_content y now text parsed cache :
  parse_array text = Some parsed →
  string_elements parsed ≠ [] →
  let its := slice0 5 (map normalizeItem (string_elements parsed)) in
  GET_finish y now (OkJson (Some text)) cache
    = (items_response y its, <[y := {| at_ := now; items := its |}]> cache).
Proof.
  intros Hp Hs its.
  assert (Hc : coerceToStringArray text = map normalizeItem (string_elements parsed))
    by apply (coerce_whole_array text parsed Hp).
  unfold its. rewrite <- Hc. apply GET_finish_success.
  - intros ->. by vm_compute in Hp.
  - rewrite Hc. by destruct (string_elements parsed).
Qed.

Lemma array_with_a_string_is_content_witness :
  GET_finish 1969 1000 (OkJson (Some (litq "['', '- ', 7]"))) ∅
    = (items_response 1969 [[]; []],
       <[1969%Z := {| at_ := 1000; items := [[]; []] |}]> ∅).
Proof.
  apply (array_with_a_string_is_content 1969%Z 1000%Z (litq "['', '- ', 7]")
           [JString []; JString (lit "- "); JNumber (lit "7")] ∅).
  - vm_compute; reflexivity.
  - discriminate.
Defined.

(** ** Trimming *)

Lemma trimStart_head s c : head (trimStart s) = Some c → is_space c = false.
Proof.
  induction s as [|d s IH]; simpl; [done|].
  destruct (is_space d) eqn:Hd; [exact IH|]. by intros [= <-].
Qed.

Lemma trimStart_snoc l c :
  is_space c = false → trimStart (l ++ [c]) = trimStart l ++ [c].
Proof.
  intros Hc. induction l as [|d l IH]; simpl; [by rewrite Hc|].
  by destruct (is_space d).
Qed.

Lemma trimEnd_cons s c :
  is_space c = false → trimEnd (c :: s) = c :: trimEnd s.
Proof.
  intros Hc. unfold trimEnd. simpl.
  by rewrite trimStart_snoc, rev_app_distr.
Qed.

Lemma last_rev {A} (l : list A) : last (rev l) = head l.
Proof. destruct l as [|a l]; [done|]. simpl. apply last_snoc. Qed.

Lemma head_rev {A} (l : list A) : head (rev l) = last l.
Proof. by rewrite <- (rev_involutive l) at 2; rewrite last_rev. Qed.

Lemma trimEnd_last s c : last (trimEnd s) = Some c → is_space c = false.
Proof. unfold trimEnd. rewrite last_rev. apply trimStart_head. Qed.

Lemma trim_trimmed s : trimmed (trim s).
Proof.
  split; [|apply trimEnd_last].
  unfold trim. pose proof (trimStart_head s) as H.
  destruct (trimStart s) as [|d t]; [done|].
  rewrite trimEnd_cons by (by apply H). by intros c [= <-]; apply H.
Qed.

Lemma trimStart_id s :
  (∀ c, head s = Some c → is_space c = false) → trimStart s = s.
Proof. destruct s as [|d s]; [done|]. simpl. intros H. by rewrite H. Qed.

Lemma trim_id s : trimmed s → trim s = s.
Proof.
  intros [Hh Hl]. unfold trim, trimEnd. rewrite (trimStart_id s Hh).
  rewrite trimStart_id; [apply rev_involutive|].
  intros c. rewrite head_rev. apply Hl.
Qed.

Lemma normalizeItem_trimmed s : trimmed (normalizeItem s).
Proof. apply trim_trimmed. Qed.

Lemma coerce_trimmed text : Forall trimmed (coerceToStringArray text).
Proof.
  assert (Hm : ∀ l, Forall trimmed (map normalizeItem l)).
  { intros l. apply Forall_map, Forall_forall. intros. apply trim_trimmed. }
  unfold coerceToStringArray, coerce_fallback, slice0.
  destruct (parse_array text); [apply Hm|].
  destruct (String_match re_array text) as [m0|];
    [destruct (parse_array m0); [apply Hm|]|]; apply Forall_take, Hm.
Qed.

(** [trim] removes the white space at both ends and nothing else needs
    removing afterwards; every item the coercion returns, by whichever
    path, and every item of a cache the route can reach, is free of leading
    and trailing white space. *)
Theorem items_are_trimmed :
  (∀ s, trimmed (trim s) ∧ trim (trim s) = trim s)
  ∧ (∀ s, trimmed (normalizeItem s))
  ∧ (∀ text, Forall trimmed (coerceToStringArray text))
  ∧ (∀ cache, reachable cache →
       ∀ y c, cache !! y = Some c → Forall trimmed (items c)).
Proof.
  split; [|split; [|split]].
  - intros s. split; [apply trim_trimmed | apply trim_id, trim_trimmed].
  - exact normalizeItem_trimmed.
  - exact coerce_trimmed.
  - induction 1 as [|env request cache0 call y now res cache _ _ IH].
    + intros y c. by rewrite lookup_empty.
    + destruct (GET_finish_cases y now res cache)
        as [(msg & detail & st & -> & _) | (text & _ & _ & ->)]; [exact IH|].
      cbn [snd]. intros y' c. rewrite lookup_insert. case_decide; [|apply IH].
      intros Heq. assert (Hc : c = {| at_ := now;
                 items := slice0 5 (coerceToStringArray text) |}) by congruence.
      rewrite Hc. cbn [items]. apply Forall_take, coerce_trimmed.
Qed.

(** ** [parseInt] on its input, and the year the client sends *)

Lemma trimStart_app_ws ws s :
  whitespace_only ws → trimStart (ws ++ s) = trimStart s.
Proof. induction 1 as [|c ws Hc _ IH]; simpl; [done | by rewrite Hc]. Qed.

Lemma is_digit_not_space c : is_digit c = true → is_space c = false.
Proof.
  intros Hd. destruct (is_space c) eqn:Hs; [|done].
  apply is_space_not_digit in Hs. congruence.
Qed.

Lemma span_digits_app ds rest :
  Forall (fun c => is_digit c = true) ds →
  (∀ c, head rest = Some c → is_digit c = false) →
  span_digits (ds ++ rest) = (ds, rest).
Proof.
  intros Hds Hrest. induction Hds as [|d ds Hd _ IH]; simpl.
  - destruct rest as [|c rest]; [done|]. simpl. by rewrite (Hrest c).
  - by rewrite Hd, IH.
Qed.

Lemma strip_sign_digit d s :
  is_digit d = true → strip_sign (d :: s) = (false, d :: s).
Proof.
  intros Hd. apply is_digit_range in Hd. unfold strip_sign.
  replace (d =? ch "-") with false
    by (symmetry; apply N.eqb_neq; change (ch "-") with 45; lia).
  replace (d =? ch "+") with false
    by (symmetry; apply N.eqb_neq; change (ch "+") with 43; lia).
  done.
Qed.

Lemma parseInt10_leading ws ds rest :
  whitespace_only ws →
  ds ≠ [] → Forall (fun c => is_digit c = true) ds →
  (∀ c, head rest = Some c → is_digit c = false) →
  let value (negative : bool) :=
    match round_to_double (digits_value 0 ds) with
    | Some v => Num (if negative then - v else v)
    | None => Infinity negative
    end in
  parseInt10 (ws ++ ds ++ rest) = value false
  ∧ parseInt10 (ws ++ ch "+" :: ds ++ rest) = value false
  ∧ parseInt10 (ws ++ ch "-" :: ds ++ rest) = value true.
Proof.
  intros Hws Hne Hds Hrest value.
  assert (Hd : ∃ d ds', ds = d :: ds' ∧ is_digit d = true).
  { destruct Hds as [|d ds' Hd _]; [done | by exists d, ds']. }
  destruct Hd as (d & ds' & -> & Hd).
  pose proof (span_digits_app (d :: ds') rest Hds Hrest) as Hspan.
  cbn [app] in Hspan.
  unfold parseInt10. cbn [app].
  split; [|split]; rewrite (trimStart_app_ws ws _ Hws).
  - cbn [trimStart]. rewrite (is_digit_not_space d Hd).
    rewrite strip_sign_digit by done. by rewrite Hspan.
  - change (trimStart (ch "+" :: d :: ds' ++ rest))
      with (ch "+" :: d :: ds' ++ rest).
    change (strip_sign (ch "+" :: d :: ds' ++ rest))
      with (false, d :: ds' ++ rest).
    cbv iota beta. by rewrite Hspan.
  - change (trimStart (ch "-" :: d :: ds' ++ rest))
      with (ch "-" :: d :: ds' ++ rest).
    change (strip_sign (ch "-" :: d :: ds' ++ rest))
      with (true, d :: ds' ++ rest).
    cbv iota beta. by rewrite Hspan.
Qed.

(** [parseInt] reads the digit run that follows the optional white space and
    sign and ignores everything after it: the result is the double nearest
    to the value of the digits, negated after a minus sign, and an infinity
    when the digits are too many for a double. *)
Theorem parseInt10_reads_leading_digits ws ds rest :
  whitespace_only ws →
  ds ≠ [] → Forall (fun c => is_digit c = true) ds →
  (∀ c, head rest = Some c → is_digit c = false) →
  let value (negative : bool) :=
    match round_to_double (digits_value 0 ds) with
    | Some v => Num (if negative then - v else v)
    | None => Infinity negative
    end in
  parseInt10 (ws ++ ds ++ rest) = value false
  ∧ parseInt10 (ws ++ ch "+" :: ds ++ rest) = value false
  ∧ parseInt10 (ws ++ ch "-" :: ds ++ rest) = value true.
Proof. apply parseInt10_leading. Qed.

Lemma parseInt10_reads_leading_digits_witness :
  parseInt10 (lit "  " ++ lit "12" ++ lit "abc") = Num 12
  ∧ parseInt10 (lit "  " ++ ch "+" :: lit "12" ++ lit "abc") = Num 12
  ∧ parseInt10 (lit "  " ++ ch "-" :: lit "12" ++ lit "abc") = Num (-12).
Proof.
  apply (parseInt10_reads_leading_digits (lit "  ") (lit "12") (lit "abc")).
  - repeat constructor.
  - discriminate.
  - repeat constructor.
  - intros c [= <-]. reflexivity.
Defined.

Lemma decimal_digits_acc fuel : ∀ n acc,
  decimal_digits fuel n acc = decimal_digits fuel n [] ++ acc.
Proof.
  induction fuel as [|f IH]; intros n acc; [done|]. cbn [decimal_digits].
  destruct (n <? 10)%Z; [done|].
  rewrite (IH _ (_ :: acc)), (IH _ [_]). by rewrite <- app_assoc.
Qed.

Lemma digits_value_app l1 : ∀ a l2,
  digits_value a (l1 ++ l2) = digits_value (digits_value a l1) l2.
Proof. induction l1 as [|d l1 IH]; intros a l2; [done | apply IH]. Qed.

Lemma decimal_digit_unit m :
  (0 ≤ m < 10)%Z →
  is_digit (Z.to_N (48 + m)) = true ∧ Z.of_N (Z.to_N (48 + m) - 48) = m.
Proof. intros H. rewrite is_digit_range. lia. Qed.

Lemma decimal_digits_value f : ∀ n,
  (0 ≤ n < 2 ^ Z.of_nat (S f))%Z →
  decimal_digits (S f) n [] ≠ []
  ∧ Forall (fun c => is_digit c = true) (decimal_digits (S f) n [])
  ∧ digits_value 0 (decimal_digits (S f) n []) = n.
Proof.
  induction f as [|f IH]; intros n Hn.
  - change (2 ^ Z.of_nat 1)%Z with 2%Z in Hn. cbn [decimal_digits].
    destruct (Z.ltb_spec n 10); [|lia].
    assert (Hm : (0 ≤ n mod 10 < 10)%Z) by (apply Z.mod_pos_bound; lia).
    destruct (decimal_digit_unit _ Hm) as [Hd Hv].
    split; [done|]. split; [by repeat constructor|].
    cbn [digits_value]. rewrite Hv, Z.mod_small; lia.
  - remember (S f) as f' eqn:Hf'. cbn [decimal_digits].
    assert (Hm : (0 ≤ n mod 10 < 10)%Z) by (apply Z.mod_pos_bound; lia).
    destruct (decimal_digit_unit _ Hm) as [Hd Hv].
    destruct (Z.ltb_spec n 10).
    + split; [done|]. split; [by repeat constructor|].
      cbn [digits_value]. rewrite Hv, Z.mod_small; lia.
    + rewrite decimal_digits_acc.
      assert (Hq : (0 ≤ n / 10 < 2 ^ Z.of_nat f')%Z).
      { split; [apply Z.div_pos; lia|].
        apply Z.div_lt_upper_bound; [lia|].
        rewrite Nat2Z.inj_succ, Z.pow_succ_r in Hn by lia. lia. }
      subst f'. destruct (IH _ Hq) as (Hne & Hall & Hval).
      split; [by destruct (decimal_digits (S f) (n / 10) [])|].
      split; [apply Forall_app; split; [done | by repeat constructor]|].
      rewrite digits_value_app, Hval. cbn [digits_value]. rewrite Hv.
      pose proof (Z.div_mod n 10). lia.
Qed.

Lemma Number_toString_digits n :
  (0 ≤ n)%Z →
  Number_toString n ≠ []
  ∧ Forall (fun c => is_digit c = true) (Number_toString n)
  ∧ digits_value 0 (Number_toString n) = n.
Proof.
  intros Hn. apply decimal_digits_value. split; [done|].
  rewrite Nat2Z.inj_succ, Z2Nat.id by apply Z.log2_nonneg.
  destruct (decide (n = 0%Z)) as [->|]; [done|].
  apply Z.log2_spec. lia.
Qed.

Lemma parseInt10_Number_toString n :
  (0 ≤ n < 2 ^ 53)%Z → parseInt10 (Number_toString n) = Num n.
Proof.
  intros Hn. destruct (Number_toString_digits n) as (Hne & Hall & Hval); [lia|].
  destruct (parseInt10_leading [] (Number_toString n) []) as [H _];
    try done; [constructor|].
  rewrite app_nil_r in H. cbn [app] in H. rewrite H, Hval.
  unfold round_to_double. by destruct (Z.ltb_spec n (2 ^ 53)); [|lia].
Qed.

Lemma GET_valid_not_400 env upstream request cache y :
  request_year request = Num y → (0 ≤ y)%Z →
  status (fst (fst (GET env upstream request cache))) ≠ 400%Z.
Proof.
  intros Hy Hpos. unfold GET. rewrite (GET_start_valid _ _ _ y Hy Hpos).
  destruct (cache_hit _ _ _); [done|].
  destruct (GEMINI_API_KEY env) as [[|k apiKey]|]; try done.
  set (call := {| fetch_url := _ |}).
  destruct (GET_finish_shapes y (Date_now env) (upstream call) cache)
    as [(r & -> & _ & [-> | [[d ->] | [-> | ->]]]) | (its & _ & ->)]; done.
Qed.

(** The year the fetch client writes into its URL is the year the route
    reads: for every integer year from 0 up to 2^53, [parseInt] of the
    decimal text gives the year back.  The client never sets [force], so its
    request is never rejected as invalid and a server entry younger than
    seven days always answers it without an upstream call. *)
Theorem client_year_reaches_the_route y :
  (0 ≤ y < 2 ^ 53)%Z →
  parseInt10 (Number_toString y) = Num y
  ∧ request_year (fetch_request y) = Num y
  ∧ request_force (fetch_request y) = false
  ∧ (∀ env upstream cache,
       status (fst (fst (GET env upstream (fetch_request y) cache))) ≠ 400%Z)
  ∧ (∀ env upstream cache c,
       cache !! y = Some c →
       (Date_now env - at_ c < CACHE_TTL_MS)%Z →
       GET env upstream (fetch_request y) cache
         = (items_response y (items c), cache, [])).
Proof.
  intros Hy.
  assert (Hyear : request_year (fetch_request y) = Num y).
  { unfold request_year, fetch_request. cbn [searchParams searchParams_get].
    rewrite decide_True by done. by apply parseInt10_Number_toString. }
  assert (Hforce : request_force (fetch_request y) = false) by reflexivity.
  split; [by apply parseInt10_Number_toString|].
  split; [done|]. split; [done|]. split.
  - intros env upstream cache. apply (GET_valid_not_400 _ _ _ _ y); [done | lia].
  - intros env upstream cache c Hc Hfresh. apply GET_hit; try done. lia.
Qed.

Lemma client_year_reaches_the_route_witness :
  parseInt10 (Number_toString 2025) = Num 2025
  ∧ request_year (fetch_request 2025) = Num 2025
  ∧ request_force (fetch_request 2025) = false
  ∧ (∀ env upstream cache,
       status (fst (fst (GET env upstream (fetch_request 2025) cache))) ≠ 400%Z)
  ∧ (∀ env upstream cache c,
       cache !! 2025%Z = Some c →
       (Date_now env - at_ c < CACHE_TTL_MS)%Z →
       GET env upstream (fetch_request 2025) cache
         = (items_response 2025 (items c), cache, [])).
Proof. apply (client_year_reaches_the_route 2025%Z). lia. Defined.

(** * Further properties of the fetch client *)

Lemma last_insert_latest {A} (l : list A) id x :
  S id = length l → last (<[id := x]> l) = Some x.
Proof.
  intros Hid. rewrite last_lookup, length_insert, <- Hid. simpl.
  apply list_lookup_insert_eq. lia.
Qed.

Lemma last_insert_other {A} (l : list A) id x :
  S id ≠ length l → last (<[id := x]> l) = last l.
Proof.
  intros Hid. rewrite !last_lookup, length_insert.
  destruct (decide (id < length l)%nat).
  - apply list_lookup_insert_ne. lia.
  - by rewrite list_insert_ge by lia.
Qed.

Lemma latest_lookup st id e e' :
  last (Client.effects st) = Some e → S id = length (Client.effects st) →
  Client.effects st !! id = Some e' → e' = e.
Proof.
  intros Hlast Hid He'. rewrite last_lookup, <- Hid in Hlast. simpl in Hlast.
  congruence.
Qed.

Lemma not_latest_stale st id e' :
  client_inv st → S id ≠ length (Client.effects st) →
  Client.effects st !! id = Some e' → Client.isCurrent e' = false.
Proof.
  intros [Hstale _] Hid He'. destruct (Hstale id) as (e'' & He'' & Hc).
  - apply lookup_lt_Some in He'. lia.
  - congruence.
Qed.

Lemma client_display_inv_mount y : client_display_inv (Client.mount y).
Proof.
  unfold client_display_inv, Client.mount, Client.run_effect. simpl.
  rewrite lookup_empty. simpl. eexists. split; [done|]. simpl.
  repeat (split; try done).
Qed.

Lemma client_display_inv_step st ev :
  client_inv st → client_display_inv st →
  client_display_inv (Client.step st ev).
Proof.
  intros Hinv (e & Hlast & Hcur & Hyear & Hpend & Hempty & Hsucc & Hidle & Hmiss).
  destruct ev as [y|id ok|id d]; simpl.
  - case_decide; [by exists e|]. unfold Client.run_effect. simpl.
    destruct (Client.cacheRef st !! y) as [[|c cs]|] eqn:Hc;
      unfold client_display_inv; simpl;
      eexists; rewrite last_snoc; (split; [done|]); simpl;
      repeat (split; try done); try (intros [|]; done).
    + intros c cs. by rewrite Hc.
    + intros c cs. by rewrite Hc.
  - destruct (Client.effects st !! id) as [e'|] eqn:He'; [|by exists e].
    destruct (Client.phase e') eqn:Hp; try by exists e.
    destruct (decide (S id = length (Client.effects st))) as [Hid|Hid].
    + assert (e' = e) by (by eapply latest_lookup). subst e'.
      assert (Hload : Client.status st = Client.loading)
        by (apply Hpend; by rewrite Hp).
      destruct ok as [[]|]; unfold Client.on_catch; rewrite ?Hcur;
        unfold client_display_inv; simpl;
        eexists; rewrite last_insert_latest by done; (split; [done|]); simpl;
        repeat (split; try done); try (intros [|]; done); try by auto.
      all: try (intros _; apply Hempty; by left).
      all: try (intros _; apply Hmiss; by rewrite Hp).
    + assert (Hs : Client.isCurrent e' = false) by (by eapply not_latest_stale).
      destruct ok as [[]|]; unfold Client.on_catch; rewrite ?Hs;
        unfold client_display_inv; simpl;
        exists e; rewrite last_insert_other by done; done.
  - destruct (Client.effects st !! id) as [e'|] eqn:He'; [|by exists e].
    destruct (Client.phase e') eqn:Hp; try by exists e.
    destruct (decide (S id = length (Client.effects st))) as [Hid|Hid].
    + assert (e' = e) by (by eapply latest_lookup). subst e'.
      assert (Hload : Client.status st = Client.loading)
        by (apply Hpend; by rewrite Hp).
      destruct d as [d|]; unfold Client.on_catch; rewrite ?Hcur;
        unfold client_display_inv; simpl;
        eexists; rewrite last_insert_latest by done; (split; [done|]); simpl;
        repeat (split; try done); try (intros [|]; done); try by auto.
      all: try (intros _; rewrite Hyear; apply lookup_insert_eq).
      all: try (intros _; apply Hempty; by left).
    + assert (Hs : Client.isCurrent e' = false) by (by eapply not_latest_stale).
      destruct d as [d|]; unfold Client.on_catch; rewrite ?Hs;
        unfold client_display_inv; simpl;
        exists e; rewrite last_insert_other by done; done.
Qed.

Lemma client_reachable_inv y0 evs :
  client_inv (Client.run (Client.mount y0) evs)
  ∧ client_display_inv (Client.run (Client.mount y0) evs).
Proof.
  assert (H : ∀ st, client_inv st ∧ client_display_inv st →
            client_inv (Client.run st evs)
            ∧ client_display_inv (Client.run st evs)).
  { induction evs as [|ev evs IH]; intros st [H1 H2]; [done|].
    simpl. apply IH. split; [by apply client_inv_step|].
    by apply client_display_inv_step. }
  apply H. split; [apply client_inv_mount | apply client_display_inv_mount].
Qed.


Lemma cache_nonempty_step st ev y c cs :
  client_inv st → client_display_inv st →
  Client.cacheRef st !! y = Some (c :: cs) →
  Client.cacheRef (Client.step st ev) !! y = Some (c :: cs).
Proof.
  intros Hinv (e & Hlast & Hcur & Hyear & Hpend & Hempty & Hsucc & Hidle & Hmiss) Hc.
  destruct ev as [y'|id ok|id d]; simpl.
  - case_decide; [done|]. unfold Client.run_effect. simpl.
    by destruct (Client.cacheRef st !! y') as [[|]|].
  - destruct (Client.effects st !! id) as [e'|]; [|done].
    destruct (Client.phase e'); try done.
    unfold Client.on_catch.
    by destruct ok as [[]|]; try destruct (Client.isCurrent e').
  - destruct (Client.effects st !! id) as [e'|] eqn:He'; [|done].
    destruct (Client.phase e') eqn:Hp; try done.
    unfold Client.on_catch.
    destruct d as [d|]; destruct (Client.isCurrent e') eqn:Hc'; try done.
    simpl. rewrite lookup_insert_ne; [done|].
    destruct (decide (S id = length (Client.effects st))) as [Hid|Hid].
    + assert (e' = e) by (by eapply latest_lookup). subst e'.
      intros Heq. apply (Hmiss ltac:(by rewrite Hp) c cs).
      by rewrite <- Hyear, Heq.
    + assert (Client.isCurrent e' = false) by (by eapply not_latest_stale).
      congruence.
Qed.

Lemma cache_nonempty_run evs' : ∀ st y c cs,
  client_inv st → client_display_inv st →
  Client.cacheRef st !! y = Some (c :: cs) →
  Client.cacheRef (Client.run st evs') !! y = Some (c :: cs).
Proof.
  induction evs' as [|ev evs' IH]; intros st y c cs H1 H2 Hc; [done|].
  simpl. apply IH.
  - by apply client_inv_step.
  - by apply client_display_inv_step.
  - by apply cache_nonempty_step.
Qed.

(** Once a non-empty list is cached for a year, the component keeps it for
    good: no later event changes or removes that entry, and every later
    visit of the year shows the list at once, with the status [success] and
    without a new request. *)
Theorem client_cached_year_is_kept y0 evs y c cs :
  let st := Client.run (Client.mount y0) evs in
  Client.cacheRef st !! y = Some (c :: cs) →
  ∀ evs',
    let st' := Client.run st evs' in
    Client.cacheRef st' !! y = Some (c :: cs)
    ∧ (Client.year st' ≠ y →
       let st'' := Client.step st' (Client.Render y) in
       Achievement_render st'' = ItemList (c :: cs)
       ∧ Client.status st'' = Client.success
       ∧ last (Client.effects st'')
           = Some {| Client.eff_year := y; Client.isCurrent := true;
                     Client.phase := Client.Returned |}).
Proof.
  intros st Hc evs' st'.
  destruct (client_reachable_inv y0 evs) as [H1 H2]. fold st in H1, H2.
  assert (Hc' : Client.cacheRef st' !! y = Some (c :: cs))
    by (by apply cache_nonempty_run).
  split; [done|]. intros Hy st''. unfold st''. simpl.
  rewrite decide_False by done. unfold Client.run_effect. simpl.
  rewrite Hc'. unfold Achievement_render. simpl. by rewrite last_snoc.
Qed.

Lemma client_cached_year_is_kept_witness :
  let st := Client.run (Client.mount 2025)
              [Client.FetchSettled 0 (Some true);
               Client.JsonSettled 0 (Some (Some [lit "A"]))] in
  let st' := Client.run st [Client.Render 2024; Client.FetchSettled 1 None] in
  Client.cacheRef st' !! 2025%Z = Some [lit "A"]
  ∧ (Client.year st' ≠ 2025%Z →
     let st'' := Client.step st' (Client.Render 2025) in
     Achievement_render st'' = ItemList [lit "A"]
     ∧ Client.status st'' = Client.success
     ∧ last (Client.effects st'')
         = Some {| Client.eff_year := 2025; Client.isCurrent := true;
                   Client.phase := Client.Returned |}).
Proof.
  apply (client_cached_year_is_kept 2025%Z
           [Client.FetchSettled 0 (Some true);
            Client.JsonSettled 0 (Some (Some [lit "A"]))]
           2025%Z (lit "A") []
           ltac:(vm_compute; reflexivity)
           [Client.Render 2024; Client.FetchSettled 1 None]).
Defined.

(** The client cache is written by one event only: the answer, with a body
    that parses, to the pending request of the current year; the entry
    written is the one of the current year and holds the items of the answer
    (the empty list when the body has no array of items).  Renders, failed
    requests and answers to earlier requests write nothing. *)
Theorem client_cache_written_by_current_answer y0 evs ev :
  let st := Client.run (Client.mount y0) evs in
  Client.cacheRef (Client.step st ev) = Client.cacheRef st
  ∨ ∃ id d e,
      ev = Client.JsonSettled id (Some d)
      ∧ last (Client.effects st) = Some e
      ∧ S id = length (Client.effects st)
      ∧ Client.phase e = Client.AwaitJson
      ∧ Client.cacheRef (Client.step st ev)
          = <[Client.year st := default [] d]> (Client.cacheRef st)
      ∧ Client.items (Client.step st ev) = default [] d
      ∧ Client.status (Client.step st ev) = Client.success.
Proof.
  intros st.
  destruct (client_reachable_inv y0 evs) as [H1 H2]. fold st in H1, H2.
  destruct H2 as (e & Hlast & Hcur & Hyear & _).
  destruct ev as [y'|id ok|id d]; simpl.
  - left. case_decide; [done|]. unfold Client.run_effect. simpl.
    by destruct (Client.cacheRef st !! y') as [[|]|].
  - left. destruct (Client.effects st !! id) as [e'|]; [|done].
    destruct (Client.phase e'); try done.
    unfold Client.on_catch.
    by destruct ok as [[]|]; try destruct (Client.isCurrent e').
  - destruct (Client.effects st !! id) as [e'|] eqn:He'; [|by left].
    destruct (Client.phase e') eqn:Hp; try by left.
    unfold Client.on_catch.
    destruct d as [d|]; destruct (Client.isCurrent e') eqn:Hc'; try by left.
    right. exists id, d, e.
    destruct (decide (S id = length (Client.effects st))) as [Hid|Hid].
    + assert (e' = e) by (by eapply latest_lookup). subst e'.
      simpl. by rewrite Hyear.
    + assert (Client.isCurrent e' = false) by (by eapply not_latest_stale).
      congruence.
Qed.

(** * Properties of the page *)

(** [clamp] with a non-empty range [min ≤ max]: the result lies in the
    range, a value inside the range is returned as it is, a value below or
    above it becomes the nearer bound, and clamping twice changes nothing. *)
Theorem clamp_into_range value min max :
  (min ≤ max)%Z →
  (min ≤ Page.clamp value min max ≤ max)%Z
  ∧ (min ≤ value ≤ max ↔ Page.clamp value min max = value)%Z
  ∧ (value < min → Page.clamp value min max = min)%Z
  ∧ (max < value → Page.clamp value min max = max)%Z
  ∧ Page.clamp (Page.clamp value min max) min max = Page.clamp value min max.
Proof.
  intros Hr. unfold Page.clamp.
  destruct (Z.ltb_spec value min), (Z.ltb_spec max value);
    repeat match goal with
           | |- context [(?a <? ?b)%Z] => destruct (Z.ltb_spec a b)
           end; lia.
Qed.

Lemma clamp_into_range_witness :
  (-120 ≤ Page.clamp 300 (-120) 120 ≤ 120)%Z
  ∧ (-120 ≤ 300 ≤ 120 ↔ Page.clamp 300 (-120) 120 = 300)%Z
  ∧ (300 < -120 → Page.clamp 300 (-120) 120 = -120)%Z
  ∧ (120 < 300 → Page.clamp 300 (-120) 120 = 120)%Z
  ∧ Page.clamp (Page.clamp 300 (-120) 120) (-120) 120
      = Page.clamp 300 (-120) 120.
Proof. apply (clamp_into_range 300 (-120) 120). lia. Defined.

Lemma years_lookup i :
  (i < 226)%nat → Page.years !! i = Some (1800 + Z.of_nat i)%Z.
Proof.
  intros Hi. unfold Page.years.
  change (Z.to_nat (Page.END_YEAR - Page.START_YEAR + 1)) with 226%nat.
  rewrite list_lookup_fmap, lookup_seq_lt by done. done.
Qed.

(** The year on the card: [years] holds the 226 years from 1800 to 2025 in
    order, so the current year is [1800 + yearIndex] while the index is
    between 0 and 225, and is undefined for every other index; the
    component starts at 2025. *)
Theorem currentYear_of_index st :
  Page.years_length = 226%Z
  ∧ (index_in_range st →
     Page.currentYear st = Some (1800 + Page.yearIndex st)%Z
     ∧ (1800 ≤ 1800 + Page.yearIndex st ≤ 2025)%Z)
  ∧ (¬ index_in_range st → Page.currentYear st = None)
  ∧ Page.currentYear Page.init = Some 2025%Z.
Proof.
  assert (Hlen : Page.years_length = 226%Z) by reflexivity.
  unfold index_in_range. rewrite Hlen. unfold Page.currentYear.
  split; [done|]. split; [|split; [|reflexivity]].
  - intros [H0 H1]. destruct (Z.ltb_spec (Page.yearIndex st) 0); [lia|].
    rewrite years_lookup by lia. rewrite Z2Nat.id by done. split; [done | lia].
  - intros Hn. destruct (Z.ltb_spec (Page.yearIndex st) 0); [done|].
    apply lookup_ge_None. change (length Page.years) with 226%nat. lia.
Qed.

Lemma currentYear_of_index_witness :
  Page.currentYear (Page.handlePrev Page.init) = Some (1800 + 224)%Z
  ∧ (1800 ≤ 1800 + 224 ≤ 2025)%Z.
Proof.
  apply (proj1 (proj2 (currentYear_of_index (Page.handlePrev Page.init)))).
  unfold index_in_range. vm_compute. split; [discriminate | reflexivity].
Defined.

Lemma currentYear_range st :
  index_in_range st →
  Page.currentYear st = Some (1800 + Page.yearIndex st)%Z
  ∧ (1800 ≤ 1800 + Page.yearIndex st ≤ 2025)%Z.
Proof.
  unfold index_in_range. change Page.years_length with 226%Z.
  intros [H0 H1]. unfold Page.currentYear.
  destruct (Z.ltb_spec (Page.yearIndex st) 0); [lia|].
  rewrite years_lookup by lia. rewrite Z2Nat.id by done. split; [done | lia].
Qed.

Lemma input_step_range st ev :
  is_input ev → index_in_range st →
  index_in_range (Page.step st ev)
  ∧ (Z.abs (Page.yearIndex (Page.step st ev) - Page.yearIndex st) ≤ 1)%Z
  ∧ (is_pointer ev → Page.yearIndex (Page.step st ev) = Page.yearIndex st).
Proof.
  unfold index_in_range. intros Hev Hr.
  assert (Hprev : ∀ s, (0 ≤ Page.yearIndex s < Page.years_length)%Z →
            (0 ≤ Page.yearIndex (Page.handlePrev s) < Page.years_length)%Z
            ∧ (Z.abs (Page.yearIndex (Page.handlePrev s) - Page.yearIndex s) ≤ 1)%Z).
  { intros s Hs. unfold Page.handlePrev.
    destruct (Z.ltb_spec 0 (Page.yearIndex s)); simpl; lia. }
  assert (Hnext : ∀ s, (0 ≤ Page.yearIndex s < Page.years_length)%Z →
            (0 ≤ Page.yearIndex (Page.handleNext s) < Page.years_length)%Z
            ∧ (Z.abs (Page.yearIndex (Page.handleNext s) - Page.yearIndex s) ≤ 1)%Z).
  { intros s Hs. unfold Page.handleNext.
    destruct (Z.ltb_spec (Page.yearIndex s) (Page.years_length - 1)); simpl; lia. }
  destruct ev as [[| |]| | |x|x|x|n]; simpl; try done.
  - destruct (Hprev st Hr). done.
  - destruct (Hnext st Hr). done.
  - split; [done|]. split; [lia | done].
  - destruct (Hprev st Hr). done.
  - destruct (Hnext st Hr). done.
  - unfold Page.handlePointerDown.
    destruct (Page.isExiting st || Page.isEntering st); simpl;
      (split; [done|]); (split; [lia | done]).
  - unfold Page.handlePointerMove.
    destruct (Page.dragStartX st); simpl;
      (split; [done|]); (split; [lia | done]).
  - unfold Page.handlePointerUp. simpl.
    repeat match goal with
           | |- context [if ?b then _ else _] => destruct b
           end; simpl; (split; [done|]); (split; [lia | done]).
Qed.

(** The previous and next buttons, the arrow keys and the pointer events
    keep the year index among the indices of [years]: the buttons and keys
    move it by one and do nothing at the first and at the last year, and a
    pointer event does not move it.  So without the timer of a swipe the
    card always shows a year from 1800 to 2025. *)
Theorem inputs_keep_index_in_range :
  (∀ st ev,
      is_input ev → index_in_range st →
      index_in_range (Page.step st ev)
      ∧ (Z.abs (Page.yearIndex (Page.step st ev) - Page.yearIndex st) ≤ 1)%Z
      ∧ (is_pointer ev →
         Page.yearIndex (Page.step st ev) = Page.yearIndex st))
  ∧ (∀ st, Page.yearIndex st = 0%Z → Page.handlePrev st = st)
  ∧ (∀ st, Page.yearIndex st = 225%Z → Page.handleNext st = st)
  ∧ (∀ evs,
      Forall is_input evs →
      index_in_range (Page.run Page.init evs)
      ∧ ∃ y, Page.currentYear (Page.run Page.init evs) = Some y
          ∧ (1800 ≤ y ≤ 2025)%Z).
Proof.
  split; [exact input_step_range|]. split; [|split].
  - intros st H. unfold Page.handlePrev. by rewrite H.
  - intros st H. unfold Page.handleNext. by rewrite H.
  - intros evs Hevs.
    assert (H : ∀ st, index_in_range st → index_in_range (Page.run st evs)).
    { induction Hevs as [|ev evs Hev _ IH]; intros st Hr; [done|].
      simpl. apply IH. by apply input_step_range. }
    assert (Hr : index_in_range (Page.run Page.init evs)).
    { apply H. unfold index_in_range. by vm_compute. }
    split; [done|].
    destruct (currentYear_range (Page.run Page.init evs) Hr) as [Hc Hb].
    eexists. split; [exact Hc | exact Hb].
Qed.

Lemma inputs_keep_index_in_range_witness :
  index_in_range
    (Page.run Page.init
       [Page.ClickNext; Page.KeyDown Page.ArrowLeft; Page.PointerDown 10;
        Page.PointerMove 200; Page.PointerUp 200])
  ∧ ∃ y, Page.currentYear
           (Page.run Page.init
              [Page.ClickNext; Page.KeyDown Page.ArrowLeft; Page.PointerDown 10;
               Page.PointerMove 200; Page.PointerUp 200]) = Some y
      ∧ (1800 ≤ y ≤ 2025)%Z.
Proof.
  apply (proj2 (proj2 (proj2 inputs_keep_index_in_range))).
  repeat constructor.
Defined.

Lemma clamp_drag d :
  (- 120 ≤ Page.clamp d (- Page.MAX_DRAG) Page.MAX_DRAG ≤ 120)%Z.
Proof.
  unfold Page.clamp, Page.MAX_DRAG.
  repeat match goal with
         | |- context [(?a <? ?b)%Z] => destruct (Z.ltb_spec a b)
         end; lia.
Qed.

Lemma dragX_step st ev :
  (- 120 ≤ Page.dragX st ≤ 120)%Z →
  (- 120 ≤ Page.dragX (Page.step st ev) ≤ 120)%Z.
Proof.
  intros H. destruct ev as [[| |]| | |x|x|x|n]; simpl; try done.
  - unfold Page.handlePrev. by destruct (_ <? _)%Z.
  - unfold Page.handleNext. by destruct (_ <? _)%Z.
  - unfold Page.handlePrev. by destruct (_ <? _)%Z.
  - unfold Page.handleNext. by destruct (_ <? _)%Z.
  - unfold Page.handlePointerDown. by destruct (_ || _).
  - unfold Page.handlePointerMove.
    destruct (Page.dragStartX st); [apply clamp_drag | done].
  - unfold Page.handlePointerUp. simpl.
    repeat match goal with
           | |- context [if ?b then _ else _] => destruct b
           end; simpl; lia.
  - destruct (Page.tasks st !! n) as [[b| |]|]; simpl; done.
Qed.

Lemma animation_inv_fields st st' :
  Page.tasks st' = Page.tasks st →
  Page.isExiting st' = Page.isExiting st →
  Page.isEntering st' = Page.isEntering st →
  Page.dragStartX st' = Page.dragStartX st →
  animation_inv st → animation_inv st'.
Proof. unfold animation_inv. by intros -> -> -> ->. Qed.

Lemma animation_inv_step st ev :
  animation_inv st → animation_inv (Page.step st ev).
Proof.
  intros H.
  assert (Hprev : animation_inv (Page.handlePrev st)).
  { apply (animation_inv_fields st); [..|done];
      unfold Page.handlePrev; by destruct (_ <? _)%Z. }
  assert (Hnext : animation_inv (Page.handleNext st)).
  { apply (animation_inv_fields st); [..|done];
      unfold Page.handleNext; by destruct (_ <? _)%Z. }
  destruct ev as [[| |]| | |x|x|x|n]; simpl; try done; clear Hprev Hnext.
  - unfold Page.handlePointerDown.
    destruct (Page.isExiting st || Page.isEntering st) eqn:Hb; [done|].
    apply orb_false_iff in Hb as [H1 H2]. unfold animation_inv in *. simpl.
    destruct (Page.tasks st) as [|[b| |] [|t ts]]; try done;
      destruct H as (? & ? & ?); congruence.
  - apply (animation_inv_fields st); [..|done];
      unfold Page.handlePointerMove;
      destruct (Page.dragStartX st) eqn:Hx; simpl; done.
  - unfold Page.handlePointerUp. unfold animation_inv in *.
    destruct (Page.dragStartX st) as [x0|] eqn:Hx.
    + assert (Ht : Page.tasks st = []).
      { destruct (Page.tasks st) as [|[b| |] [|t ts]]; try done;
          destruct H as (? & ? & ?); congruence. }
      rewrite Ht in H. simpl.
      repeat match goal with
             | |- context [if ?b then _ else _] => destruct b
             end; simpl; rewrite ?Ht; simpl; try done.
      all: by destruct H.
    + simpl. exact H.
  - unfold animation_inv in *.
    destruct (Page.tasks st) as [|t [|t' ts]] eqn:Ht.
    + rewrite lookup_nil, Ht. exact H.
    + destruct n as [|n]; simpl.
      * destruct t as [b| |]; simpl; destruct H as (? & ? & ?); done.
      * rewrite Ht. exact H.
    + by destruct t.
Qed.

Lemma gesture_reachable evs :
  (- 120 ≤ Page.dragX (Page.run Page.init evs) ≤ 120)%Z
  ∧ animation_inv (Page.run Page.init evs).
Proof.
  assert (H : ∀ st, (- 120 ≤ Page.dragX st ≤ 120)%Z ∧ animation_inv st →
            (- 120 ≤ Page.dragX (Page.run st evs) ≤ 120)%Z
            ∧ animation_inv (Page.run st evs)).
  { induction evs as [|ev evs IH]; intros st [H1 H2]; [done|].
    simpl. apply IH. split; [by apply dragX_step | by apply animation_inv_step]. }
  apply H. split; [by vm_compute | done].
Qed.

(** Whatever the events, the drag offset stays between -120 and 120 pixels,
    at most one animation callback is waiting, and while one waits (the
    card is exiting or entering) no drag is under way and a pointer event
    neither starts a drag nor commits a swipe: it leaves the year index and
    the waiting callback as they are. *)
Theorem one_swipe_at_a_time evs :
  let st := Page.run Page.init evs in
  (- 120 ≤ Page.dragX st ≤ 120)%Z
  ∧ (length (Page.tasks st) ≤ 1)%nat
  ∧ (Page.tasks st ≠ [] ↔ Page.isExiting st || Page.isEntering st = true)
  ∧ (Page.tasks st ≠ [] →
     Page.dragStartX st = None
     ∧ ∀ ev, is_pointer ev →
         Page.tasks (Page.step st ev) = Page.tasks st
         ∧ Page.yearIndex (Page.step st ev) = Page.yearIndex st
         ∧ Page.dragStartX (Page.step st ev) = None).
Proof.
  intros st. destruct (gesture_reachable evs) as [Hd Ha]. fold st in Hd, Ha.
  unfold animation_inv in Ha.
  split; [done|]. split; [|split].
  - destruct (Page.tasks st) as [|[b| |] [|t ts]]; simpl; try lia; done.
  - destruct (Page.tasks st) as [|[b| |] [|t ts]]; try done;
      destruct Ha as (-> & -> & ?) || destruct Ha as (-> & ->); done.
  - intros Hne.
    assert (Hx : Page.dragStartX st = None).
    { destruct (Page.tasks st) as [|[b| |] [|t ts]]; try done; by destruct Ha as (? & ? & ?). }
    assert (Hb : Page.isExiting st || Page.isEntering st = true).
    { destruct (Page.tasks st) as [|[b| |] [|t ts]]; try done;
        destruct Ha as (-> & -> & ?); done. }
    split; [done|]. intros ev Hev.
    destruct ev as [[| |]| | |x|x|x|n]; try done; simpl.
    + unfold Page.handlePointerDown. by rewrite Hb.
    + unfold Page.handlePointerMove. by rewrite Hx.
    + unfold Page.handlePointerUp. by rewrite Hx.
Qed.

(** A swipe that nothing interrupts.  From a resting card with a valid
    index and a drag under way, releasing the pointer and letting the three
    animation callbacks run leaves a resting card with a valid index, no
    drag and no offset.  A release less than 80 pixels from the start keeps
    the year; a swipe of 80 pixels or more to the left goes to the next
    year and one to the right to the previous year, and at the last and
    first year the card snaps back. *)
Theorem uninterrupted_swipe st x0 x :
  at_rest st → index_in_range st → Page.dragStartX st = Some x0 →
  let delta := (x - x0)%Z in
  let st' :=
    Page.run st [Page.PointerUp x; Page.Run 0; Page.Run 0; Page.Run 0] in
  at_rest st' ∧ index_in_range st'
  ∧ Page.dragX st' = 0%Z ∧ Page.dragStartX st' = None
  ∧ Page.yearIndex st'
      = (if Z.abs delta <? 80 then Page.yearIndex st
         else if delta <? 0 then Z.min (Page.yearIndex st + 1) 225
         else Z.max (Page.yearIndex st - 1) 0)%Z.
Proof.
  unfold at_rest, index_in_range. change Page.years_length with 226%Z.
  destruct st as [idx ds dx ie ed ien end_ ac ts]. simpl.
  intros (-> & -> & ->) Hr ->. unfold Page.handlePointerUp. simpl.
  change Page.years_length with 226%Z.
  destruct (Z.ltb_spec (Z.abs (x - x0)) 80); simpl.
  { repeat split; lia. }
  destruct (Z.ltb_spec (x - x0) 0); simpl.
  - destruct (Z.leb_spec (226 - 1) idx); simpl; repeat split; lia.
  - destruct (Z.leb_spec idx 0); simpl; repeat split; lia.
Qed.

Lemma uninterrupted_swipe_witness :
  let st' :=
    Page.run (Page.handlePointerDown 500 Page.init)
      [Page.PointerUp 600; Page.Run 0; Page.Run 0; Page.Run 0] in
  at_rest st' ∧ index_in_range st'
  ∧ Page.dragX st' = 0%Z ∧ Page.dragStartX st' = None
  ∧ Page.yearIndex st' = 224%Z.
Proof.
  apply (uninterrupted_swipe (Page.handlePointerDown 500 Page.init) 500 600).
  - by vm_compute.
  - unfold index_in_range. by vm_compute.
  - reflexivity.
Defined.

(** The bound of a swipe is tested when the pointer is released, not when
    the exit timer changes the year 280 ms later.  An arrow key (or button)
    used in between moves the year as well, so the timer moves it a second
    time: from the last year but one the index becomes 226 and from the
    second year -1, where [years] has no element and the current year is
    undefined.  Such a state is reached from the mounted component; the
    route answers the year parameter [undefined] with status 400. *)
Theorem swipe_and_key_leave_the_range st x0 x :
  at_rest st → Page.dragStartX st = Some x0 →
  ((x - x0 ≤ -80)%Z → Page.yearIndex st = 224%Z →
   let st' :=
     Page.run st [Page.PointerUp x; Page.KeyDown Page.ArrowRight; Page.Run 0] in
   Page.yearIndex st' = 226%Z ∧ Page.currentYear st' = None)
  ∧ ((80 ≤ x - x0)%Z → Page.yearIndex st = 1%Z →
     let st' :=
       Page.run st [Page.PointerUp x; Page.KeyDown Page.ArrowLeft; Page.Run 0] in
     Page.yearIndex st' = (-1)%Z ∧ Page.currentYear st' = None)
  ∧ (let st' :=
       Page.run Page.init
         [Page.ClickPrev; Page.PointerDown 500; Page.PointerUp 400;
          Page.KeyDown Page.ArrowRight; Page.Run 0] in
     Page.yearIndex st' = 226%Z ∧ Page.currentYear st' = None)
  ∧ (∀ env upstream cache,
       GET env upstream (request_for (lit "undefined")) cache
         = (error_response 400 "Invalid or missing year" None, cache, [])).
Proof.
  unfold at_rest.
  destruct st as [idx ds dx ie ed ien end_ ac ts]. simpl.
  intros (-> & -> & ->) ->.
  split; [|split; [|split]].
  - intros Hd ->. unfold Page.handlePointerUp. simpl.
    destruct (Z.ltb_spec (Z.abs (x - x0)) 80); [lia|].
    destruct (Z.ltb_spec (x - x0) 0); [|lia]. by vm_compute.
  - intros Hd ->. unfold Page.handlePointerUp. simpl.
    destruct (Z.ltb_spec (Z.abs (x - x0)) 80); [lia|].
    destruct (Z.ltb_spec (x - x0) 0); [lia|]. by vm_compute.
  - by vm_compute.
  - intros env upstream cache. unfold GET.
    by rewrite GET_start_invalid by (by left).
Qed.

Lemma swipe_and_key_leave_the_range_witness :
  (let st' :=
     Page.run (Page.handlePointerDown 500 (Page.handlePrev Page.init))
       [Page.PointerUp 400; Page.KeyDown Page.ArrowRight; Page.Run 0] in
   Page.yearIndex st' = 226%Z ∧ Page.currentYear st' = None).
Proof.
  apply (proj1 (swipe_and_key_leave_the_range
                  (Page.handlePointerDown 500 (Page.handlePrev Page.init))
                  500 400 ltac:(by vm_compute) eq_refl)).
  - lia.
  - reflexivity.
Defined.

(** * The response on the wire *)

Lemma hex_digit_char d : d < 16 → hex_digit (hex_char d) = Some d.
Proof.
  intros Hd.
  assert (H : d = 0 ∨ d = 1 ∨ d = 2 ∨ d = 3 ∨ d = 4 ∨ d = 5 ∨ d = 6 ∨ d = 7
            ∨ d = 8 ∨ d = 9 ∨ d = 10 ∨ d = 11 ∨ d = 12 ∨ d = 13 ∨ d = 14
            ∨ d = 15) by lia.
  repeat (destruct H as [->|H]; [reflexivity|]). by subst.
Qed.

Lemma hex4_escape c :
  c < 65536 →
  hex4 (hex_char (c / 4096)) (hex_char (c / 256 mod 16))
       (hex_char (c / 16 mod 16)) (hex_char (c mod 16)) = Some c.
Proof.
  intros Hc. unfold hex4.
  assert (H1 : c / 4096 < 16) by (apply N.Div0.div_lt_upper_bound; lia).
  assert (H2 : c / 256 mod 16 < 16) by (apply N.mod_lt; lia).
  assert (H3 : c / 16 mod 16 < 16) by (apply N.mod_lt; lia).
  assert (H4 : c mod 16 < 16) by (apply N.mod_lt; lia).
  rewrite !hex_digit_char by done. f_equal.
  pose proof (N.div_mod c 16 ltac:(lia)) as E1.
  pose proof (N.div_mod (c / 16) 16 ltac:(lia)) as E2.
  pose proof (N.div_mod (c / 16 / 16) 16 ltac:(lia)) as E3.
  rewrite !N.Div0.div_div in E2, E3.
  change (16 * 16) with 256 in *. change (256 * 16) with 4096 in *.
  assert (E4 : c / 256 / 16 = c / 4096) by (by rewrite N.Div0.div_div).
  rewrite E4 in E3. lia.
Qed.

Lemma parse_string_body_escape acc h1 h2 h3 h4 X :
  parse_string_body acc (backslash :: ch "u" :: h1 :: h2 :: h3 :: h4 :: X)
  = match hex4 h1 h2 h3 h4 with
    | Some u => parse_string_body (u :: acc) X
    | None => None
    end.
Proof. reflexivity. Qed.

Lemma parse_string_body_plain acc c X :
  c ≠ dquote → c ≠ backslash → 32 ≤ c →
  parse_string_body acc (c :: X) = parse_string_body (c :: acc) X.
Proof.
  intros H1 H2 H3. cbn [parse_string_body].
  apply N.eqb_neq in H1, H2. rewrite H1, H2.
  by destruct (N.ltb_spec c 32); [lia|].
Qed.

(** The parser reads what [quote_unit] wrote as the code unit it stands
    for. *)
Lemma parse_string_body_unit acc c X :
  parse_string_body acc (quote_unit c ++ X) = parse_string_body (c :: acc) X.
Proof.
  unfold quote_unit.
  destruct (N.eqb_spec c 8) as [->|?]; [reflexivity|].
  destruct (N.eqb_spec c 9) as [->|?]; [reflexivity|].
  destruct (N.eqb_spec c 10) as [->|?]; [reflexivity|].
  destruct (N.eqb_spec c 12) as [->|?]; [reflexivity|].
  destruct (N.eqb_spec c 13) as [->|?]; [reflexivity|].
  destruct (N.eqb_spec c dquote) as [->|?]; [reflexivity|].
  destruct (N.eqb_spec c backslash) as [->|?]; [reflexivity|].
  destruct ((c <? 32) || is_high_surrogate c || is_low_surrogate c) eqn:E.
  - assert (Hc : c < 65536).
    { unfold is_high_surrogate, is_low_surrogate in E.
      apply orb_true_iff in E as [E|E]; [apply orb_true_iff in E as [E|E]|].
      - apply N.ltb_lt in E. lia.
      - apply andb_true_iff in E as [_ E]. apply N.leb_le in E. lia.
      - apply andb_true_iff in E as [_ E]. apply N.leb_le in E. lia. }
    unfold unicode_escape. cbn [app].
    by rewrite parse_string_body_escape, hex4_escape.
  - apply orb_false_iff in E as [E _]. apply orb_false_iff in E as [E _].
    apply N.ltb_ge in E. by apply parse_string_body_plain.
Qed.

Lemma parse_string_body_quote n : ∀ s acc X,
  (length s ≤ n)%nat →
  parse_string_body acc (quote_units s ++ dquote :: X) = Some (rev acc ++ s, X).
Proof.
  induction n as [|n IH]; intros s acc X Hn.
  - destruct s; [|simpl in Hn; lia]. simpl. by rewrite app_nil_r.
  - destruct s as [|c s']; [simpl; by rewrite app_nil_r|]. simpl in Hn.
    assert (Hstep : parse_string_body acc
                      ((quote_unit c ++ quote_units s') ++ dquote :: X)
                    = Some (rev acc ++ c :: s', X)).
    { rewrite <- app_assoc, parse_string_body_unit.
      rewrite IH by lia. simpl. by rewrite <- app_assoc. }
    cbn [quote_units]. destruct (is_high_surrogate c) eqn:Hh; [|exact Hstep].
    destruct s' as [|d s''];
      [cbn [quote_units] in Hstep; by rewrite app_nil_r in Hstep|].
    destruct (is_low_surrogate d) eqn:Hl; [|exact Hstep].
    simpl in Hn.
    unfold is_high_surrogate in Hh. unfold is_low_surrogate in Hl.
    apply andb_true_iff in Hh as [Hh1 Hh2]. apply andb_true_iff in Hl as [Hl1 Hl2].
    apply N.leb_le in Hh1, Hh2, Hl1, Hl2.
    cbn [app]. rewrite !parse_string_body_plain
      by (unfold dquote, backslash; lia).
    rewrite IH by lia. simpl. by rewrite <- !app_assoc.
Qed.

Lemma JSON_quote_app s X :
  JSON_quote s ++ X = dquote :: quote_units s ++ dquote :: X.
Proof. unfold JSON_quote. cbn [app]. by rewrite <- app_assoc. Qed.

Lemma parse_key_quote s X :
  parse_string_body [] (quote_units s ++ dquote :: X) = Some (s, X).
Proof. by rewrite (parse_string_body_quote (length s)). Qed.

Lemma parse_value_quote f s X :
  parse_value (S f) (JSON_quote s ++ X) = POk (JString s) X.
Proof.
  rewrite JSON_quote_app, parse_value_S.
  change (dquote =? ch "[") with false. change (dquote =? ch "{") with false.
  change (dquote =? dquote) with true. cbv iota.
  by rewrite parse_key_quote.
Qed.

Lemma skip_ws_id c s : is_json_ws c = false → skip_ws (c :: s) = c :: s.
Proof. intros H. cbn [skip_ws]. by rewrite H. Qed.

Lemma stringify_elements_head i its :
  ∃ t, stringify_elements (i :: its) = dquote :: t.
Proof. destruct its; cbn [stringify_elements]; unfold JSON_quote; by eexists. Qed.

Lemma skip_ws_elements i its X :
  skip_ws (stringify_elements (i :: its) ++ X)
  = stringify_elements (i :: its) ++ X.
Proof.
  destruct (stringify_elements_head i its) as [t ->]. by apply skip_ws_id.
Qed.

Lemma parse_elements_strings : ∀ its i acc rest f,
  (length its < f)%nat →
  parse_elements (S f) acc (stringify_elements (i :: its) ++ ch "]" :: rest)
  = POk (JArray (rev acc ++ map JString (i :: its))) rest.
Proof.
  induction its as [|j its IH]; intros i acc rest f Hf;
    (destruct f as [|f]; [simpl in Hf; lia|]); rewrite parse_elements_S.
  - cbn [stringify_elements]. rewrite parse_value_quote.
    rewrite skip_ws_id by reflexivity.
    change (ch "]" =? ch ",") with false. change (ch "]" =? ch "]") with true.
    by cbv iota.
  - change (stringify_elements (i :: j :: its))
      with (JSON_quote i ++ ch "," :: stringify_elements (j :: its)).
    rewrite <- app_assoc, parse_value_quote. cbn [app].
    rewrite skip_ws_id by reflexivity.
    change (ch "," =? ch ",") with true. cbv iota.
    rewrite skip_ws_elements, IH by (simpl in Hf; lia).
    cbn [rev map]. by rewrite <- app_assoc.
Qed.

Lemma parse_value_strings f its rest :
  (length its < f)%nat →
  parse_value (S (S f)) (stringify_strings its ++ rest)
  = POk (JArray (map JString its)) rest.
Proof.
  intros Hf. unfold stringify_strings. cbn [app]. rewrite parse_value_S.
  change (ch "[" =? ch "[") with true. cbv iota. rewrite <- app_assoc.
  cbn [app]. destruct its as [|i its].
  - cbn [stringify_elements app]. by rewrite skip_ws_id by reflexivity.
  - rewrite skip_ws_elements.
    pose proof (parse_elements_strings its i [] rest f
                  ltac:(simpl in Hf; lia)) as H.
    cbn [rev app] in H.
    destruct (stringify_elements_head i its) as [t Ht].
    rewrite Ht in H |- *. exact H.
Qed.

Lemma decimal_digits_head f : ∀ n acc,
  (0 < n < 2 ^ Z.of_nat (S f))%Z →
  ∃ d ds, decimal_digits (S f) n acc = d :: ds ∧ d ≠ 48.
Proof.
  induction f as [|f IH]; intros n acc Hn.
  - change (2 ^ Z.of_nat 1)%Z with 2%Z in Hn. cbn [decimal_digits].
    destruct (Z.ltb_spec n 10); [|lia].
    eexists _, _. split; [reflexivity|]. rewrite Z.mod_small; lia.
  - remember (S f) as f' eqn:Hf'. cbn [decimal_digits].
    destruct (Z.ltb_spec n 10).
    + eexists _, _. split; [reflexivity|]. rewrite Z.mod_small; lia.
    + subst f'. apply IH. split; [apply Z.div_str_pos; lia|].
      apply Z.div_lt_upper_bound; [lia|].
      rewrite Nat2Z.inj_succ, Z.pow_succ_r in Hn by lia. lia.
Qed.

(** The decimal digits of a positive integer do not start with a zero. *)
Lemma Number_toString_head n :
  (0 < n)%Z →
  ∃ d ds, Number_toString n = d :: ds ∧ d ≠ 48 ∧ is_digit d = true
          ∧ Forall (fun c => is_digit c = true) ds.
Proof.
  intros Hn. destruct (Number_toString_digits n) as (_ & Hall & _); [lia|].
  destruct (decimal_digits_head (Z.to_nat (Z.log2 n)) n []) as (d & ds & E & Hd).
  { split; [done|]. rewrite Nat2Z.inj_succ, Z2Nat.id by apply Z.log2_nonneg.
    apply Z.log2_spec. lia. }
  fold (Number_toString n) in E. rewrite E in Hall.
  inversion Hall; subst. by exists d, ds.
Qed.

Lemma Number_toString_first n :
  (0 ≤ n)%Z → ∃ d ds, Number_toString n = d :: ds ∧ is_digit d = true.
Proof.
  intros Hn. destruct (Number_toString_digits n) as (Hne & Hall & _); [lia|].
  destruct (Number_toString n) as [|d ds]; [done|].
  inversion Hall; subst. by exists d, ds.
Qed.

Lemma parse_number_toString y rest :
  (0 ≤ y)%Z →
  parse_number (Number_toString y ++ ch "," :: rest)
  = Some (Number_toString y, ch "," :: rest).
Proof.
  intros Hy. destruct (decide (y = 0%Z)) as [->|Hne]; [reflexivity|].
  destruct (Number_toString_head y) as (d & ds & -> & Hd0 & Hd & Hds); [lia|].
  cbn [app]. unfold parse_number.
  destruct (N.eqb_spec d (ch "-")) as [->|_]; [discriminate Hd|].
  unfold parse_int_part.
  destruct (N.eqb_spec d (ch "0")) as [->|_]; [done|].
  rewrite Hd, (span_digits_app ds (ch "," :: rest) Hds)
    by (by intros c [= <-]).
  cbn [mbind option_bind].
  change (parse_frac (ch "," :: rest)) with (Some ([] : jsstring, ch "," :: rest)).
  cbn [mbind option_bind].
  change (parse_exp (ch "," :: rest)) with (Some ([] : jsstring, ch "," :: rest)).
  cbn [mbind option_bind app]. by rewrite app_nil_r.
Qed.

Lemma parse_value_number f y rest :
  (0 ≤ y)%Z →
  parse_value (S f) (Number_toString y ++ ch "," :: rest)
  = POk (JNumber (Number_toString y)) (ch "," :: rest).
Proof.
  intros Hy. pose proof (parse_number_toString y rest Hy) as Hp.
  destruct (Number_toString_first y Hy) as (d & ds & E & Hd).
  rewrite E in Hp |- *. cbn [app] in Hp |- *. rewrite parse_value_S, Hp.
  destruct (N.eqb_spec d (ch "[")) as [->|_]; [discriminate Hd|].
  destruct (N.eqb_spec d (ch "{")) as [->|_]; [discriminate Hd|].
  destruct (N.eqb_spec d dquote) as [->|_]; [discriminate Hd|].
  by rewrite Hd, orb_true_r.
Qed.

Lemma skip_ws_number y X :
  (0 ≤ y)%Z → skip_ws (Number_toString y ++ X) = Number_toString y ++ X.
Proof.
  intros Hy. destruct (Number_toString_first y Hy) as (d & ds & -> & Hd).
  apply skip_ws_id. apply is_digit_range in Hd. unfold is_json_ws.
  repeat match goal with
         | |- context [d =? ?k] => destruct (N.eqb_spec d k); [lia|]
         end.
  done.
Qed.

Lemma skip_ws_quote s X : skip_ws (JSON_quote s ++ X) = JSON_quote s ++ X.
Proof. rewrite JSON_quote_app. by apply skip_ws_id. Qed.

Lemma skip_ws_strings its X :
  skip_ws (stringify_strings its ++ X) = stringify_strings its ++ X.
Proof. by apply skip_ws_id. Qed.

Lemma parse_members_more f acc key V v rest :
  skip_ws V = V → parse_value f V = POk v (ch "," :: rest) →
  parse_members (S f) acc (JSON_quote key ++ ch ":" :: V)
  = parse_members f ((key, v) :: acc) (skip_ws rest).
Proof.
  intros HV Hv. rewrite JSON_quote_app, parse_members_S.
  change (dquote =? dquote) with true. cbv iota. rewrite parse_key_quote.
  cbv beta iota. rewrite skip_ws_id by reflexivity.
  change (ch ":" =? ch ":") with true. cbv iota. rewrite HV, Hv.
  rewrite skip_ws_id by reflexivity.
  change (ch "," =? ch ",") with true. by cbv iota.
Qed.

Lemma parse_members_last f acc key V v rest :
  skip_ws V = V → parse_value f V = POk v (ch "}" :: rest) →
  parse_members (S f) acc (JSON_quote key ++ ch ":" :: V)
  = POk (JObject (rev ((key, v) :: acc))) rest.
Proof.
  intros HV Hv. rewrite JSON_quote_app, parse_members_S.
  change (dquote =? dquote) with true. cbv iota. rewrite parse_key_quote.
  cbv beta iota. rewrite skip_ws_id by reflexivity.
  change (ch ":" =? ch ":") with true. cbv iota. rewrite HV, Hv.
  rewrite skip_ws_id by reflexivity.
  change (ch "}" =? ch ",") with false. change (ch "}" =? ch "}") with true.
  by cbv iota.
Qed.

(** An object whose first member starts at the head of [T]. *)
Lemma parse_value_object f key T :
  parse_value (S f) (ch "{" :: JSON_quote key ++ T)
  = parse_members f [] (JSON_quote key ++ T).
Proof.
  rewrite parse_value_S. change (ch "{" =? ch "[") with false.
  change (ch "{" =? ch "{") with true. cbv iota. rewrite skip_ws_quote.
  by rewrite JSON_quote_app.
Qed.

(** A parse that succeeds with some fuel is the parse of [JSON.parse]. *)
Lemma JSON_parse_value f text v :
  skip_ws text = text → parse_value f text = POk v [] →
  JSON_parse text = Some v.
Proof.
  intros Hws Hv. unfold JSON_parse.
  pose proof (parse_value_fuel text) as Hfuel. rewrite Hws in *.
  assert (E : parse_value (json_fuel text) text = POk v []).
  { destruct (Nat.le_gt_cases f (json_fuel text)) as [Hle|Hgt].
    - replace (json_fuel text) with (f + (json_fuel text - f))%nat by lia.
      destruct (parse_fuel_mono f) as [Hm _]. rewrite Hm; [done|].
      by rewrite Hv.
    - destruct (parse_fuel_mono (json_fuel text)) as [Hm _].
      rewrite <- (Hm text (f - json_fuel text)%nat Hfuel).
      by replace (json_fuel text + (f - json_fuel text))%nat with f by lia. }
  by rewrite E.
Qed.

Lemma response_text_parses r :
  (∀ y its, body r = ItemsBody y its → (0 ≤ y)%Z) →
  JSON_parse (response_text r) = Some (response_json r).
Proof.
  intros Hy. unfold response_text, response_json.
  destruct (body r) as [msg [detail|]|y its].
  - apply (JSON_parse_value 4); [by apply skip_ws_id|].
    change (lit "{") with [ch "{"]. change (lit ":") with [ch ":"].
    change (lit ",") with [ch ","]. change (lit "}") with [ch "}"].
    cbn [app]. rewrite parse_value_object.
    rewrite (parse_members_more _ _ _ _ (JString (lit msg))
               (JSON_quote (lit "detail") ++ ch ":" :: JSON_quote detail
                  ++ [ch "}"]));
      [|apply skip_ws_quote | apply parse_value_quote].
    rewrite skip_ws_quote.
    by rewrite (parse_members_last _ _ _ _ (JString detail) []);
      [|apply skip_ws_quote | apply parse_value_quote].
  - apply (JSON_parse_value 3); [by apply skip_ws_id|].
    change (lit "{") with [ch "{"]. change (lit ":") with [ch ":"].
    change (lit "}") with [ch "}"].
    cbn [app]. rewrite parse_value_object.
    by rewrite (parse_members_last _ _ _ _ (JString (lit msg)) []);
      [|apply skip_ws_quote | apply parse_value_quote].
  - specialize (Hy y its eq_refl).
    apply (JSON_parse_value (S (S (S (S (S (S (length its))))))));
      [by apply skip_ws_id|].
    change (lit "{") with [ch "{"]. change (lit ":") with [ch ":"].
    change (lit ",") with [ch ","]. change (lit "}") with [ch "}"].
    cbn [app]. rewrite parse_value_object.
    rewrite (parse_members_more _ _ _ _ (JNumber (Number_toString y))
               (JSON_quote (lit "items") ++ ch ":" :: stringify_strings its
                  ++ [ch "}"]));
      [|by apply skip_ws_number | by apply parse_value_number].
    rewrite skip_ws_quote.
    by rewrite (parse_members_last _ _ _ _ (JArray (map JString its)) []);
      [|apply skip_ws_strings | apply parse_value_strings; lia].
Qed.

Lemma data_items_response r :
  data_items (response_json r)
  = match body r with
    | ItemsBody _ its => Some (map JString its)
    | ErrorBody _ _ => None
    end.
Proof. unfold response_json. by destruct (body r) as [msg [detail|]|y its]. Qed.

Lemma fetch_request_year y :
  (0 ≤ y < 2 ^ 53)%Z → request_year (fetch_request y) = Num y.
Proof.
  intros Hy. unfold request_year, fetch_request.
  cbn [searchParams searchParams_get].
  rewrite decide_True by done. by apply parseInt10_Number_toString.
Qed.

(** What the route answers to a request with a valid year: the items of
    that year, or an error whose status is not in the range of [res.ok]. *)
Lemma GET_valid_shapes env upstream request cache y :
  request_year request = Num y → (0 ≤ y)%Z →
  let r := fst (fst (GET env upstream request cache)) in
  (∃ its, r = items_response y its)
  ∨ (response_ok r = false ∧ status r ≠ 200%Z
     ∧ ∃ msg detail, body r = ErrorBody msg detail).
Proof.
  intros Hy Hpos. cbv zeta. unfold GET.
  rewrite (GET_start_valid _ _ _ y Hy Hpos).
  destruct (cache_hit _ _ _) as [c|]; [left; by eexists|].
  destruct (GEMINI_API_KEY env) as [[|k key]|];
    try (right; split; [done|]; split; [done|]; by eexists _, _).
  destruct (GET_finish_shapes y (Date_now env)
              (upstream {| fetch_url := GEMINI_ENDPOINT;
                           fetch_api_key := k :: key;
                           fetch_prompt_year := y |}) cache)
    as [(r1 & -> & Hst & Hsh) | (its & Hne & ->)].
  - right. cbn [fst].
    destruct Hsh as [-> | [(d & ->) | [-> | ->]]];
      (split; [done|]; split; [done|]; by eexists _, _).
  - left. by eexists.
Qed.

(** The body the route sends is read back by [res.json()] as the value it
    was written from, whatever the items and the detail text hold: quotes,
    control characters, line breaks, lone surrogates.  [data.items] is then
    the array of the served items, and is [undefined] for every error
    body. *)
Theorem response_body_round_trip r :
  (∀ y its, body r = ItemsBody y its → (0 ≤ y < 2 ^ 53)%Z) →
  JSON_parse (response_text r) = Some (response_json r)
  ∧ data_items (response_json r)
    = match body r with
      | ItemsBody _ its => Some (map JString its)
      | ErrorBody _ _ => None
      end
  ∧ ∀ its, data_items (response_json r) = Some (map JString its) →
      ∃ y, body r = ItemsBody y its.
Proof.
  intros Hy. split; [|split].
  - apply response_text_parses. intros y its Hb. apply Hy in Hb. lia.
  - apply data_items_response.
  - intros its. rewrite data_items_response.
    destruct (body r) as [msg detail|y its']; [done|].
    intros [= H]. exists y. f_equal.
    clear Hy. revert its H. induction its' as [|i its' IH]; intros [|j its] H;
      try done. simpl in H. inversion H; subst. f_equal. by apply IH.
Qed.

Lemma response_body_round_trip_witness :
  let r := items_response 1969
             [litq "Apollo 11 lands: 'one small step'"; [10; 55357; 92]] in
  JSON_parse (response_text r) = Some (response_json r)
  ∧ data_items (response_json r)
    = match body r with
      | ItemsBody _ its => Some (map JString its)
      | ErrorBody _ _ => None
      end
  ∧ ∀ its, data_items (response_json r) = Some (map JString its) →
      ∃ y, body r = ItemsBody y its.
Proof.
  apply (response_body_round_trip
           (items_response 1969
              [litq "Apollo 11 lands: 'one small step'"; [10; 55357; 92]])).
  intros y its [= <- _]. lia.
Defined.

Lemma mount_eq y :
  Client.mount y
  = {| Client.year := y; Client.items := []; Client.status := Client.loading;
       Client.cacheRef := ∅;
       Client.effects := [{| Client.eff_year := y; Client.isCurrent := true;
                             Client.phase := Client.AwaitFetch |}] |}.
Proof.
  unfold Client.mount, Client.run_effect. simpl. by rewrite lookup_empty.
Qed.

(** From the client's request to what it shows: the route's answer to the
    URL the client builds for a year is either that year's items, which the
    client reads out of the body, shows and stores under that year, or an
    error response, on which the client shows the error line and stores
    nothing. *)
Theorem client_shows_what_the_route_serves env upstream cache y :
  (0 ≤ y < 2 ^ 53)%Z →
  let r := fst (fst (GET env upstream (fetch_request y) cache)) in
  let st := Client.step (Client.mount y)
              (Client.FetchSettled 0 (Some (response_ok r))) in
  JSON_parse (response_text r) = Some (response_json r)
  ∧ ((∃ its, r = items_response y its
        ∧ data_items (response_json r) = Some (map JString its)
        ∧ Client.view (Client.step st (Client.JsonSettled 0 (Some (Some its))))
          = (its, Client.success, {[ y := its ]}))
     ∨ (status r ≠ 200%Z
        ∧ data_items (response_json r) = None
        ∧ Client.view st = ([], Client.error, ∅)
        ∧ Achievement_render st = ErrorLine)).
Proof.
  intros Hy. cbv zeta.
  pose proof (fetch_request_year y Hy) as Hyear.
  destruct (GET_valid_shapes env upstream (fetch_request y) cache y Hyear
              ltac:(lia)) as [(its & Hr) | (Hok & Hst & msg & detail & Hb)].
  - rewrite Hr. split.
    { apply response_text_parses. intros y' its' [= <- _]. lia. }
    left. exists its. split; [done|]. split; [done|].
    rewrite mount_eq. unfold Client.view. cbn. by rewrite insert_empty.
  - split.
    { apply response_text_parses. intros y' its' Hb'. congruence. }
    right. split; [done|]. split; [by rewrite data_items_response, Hb|].
    by rewrite Hok, mount_eq.
Qed.

Lemma client_shows_what_the_route_serves_witness :
  let r := fst (fst (GET (env_at 0) (upstream_text (litq "['Moon landing']"))
                         (fetch_request 1969) ∅)) in
  let st := Client.step (Client.mount 1969)
              (Client.FetchSettled 0 (Some (response_ok r))) in
  JSON_parse (response_text r) = Some (response_json r)
  ∧ ((∃ its, r = items_response 1969 its
        ∧ data_items (response_json r) = Some (map JString its)
        ∧ Client.view (Client.step st (Client.JsonSettled 0 (Some (Some its))))
          = (its, Client.success, {[ 1969%Z := its ]}))
     ∨ (status r ≠ 200%Z
        ∧ data_items (response_json r) = None
        ∧ Client.view st = ([], Client.error, ∅)
        ∧ Achievement_render st = ErrorLine)).
Proof.
  apply (client_shows_what_the_route_serves (env_at 0)
           (upstream_text (litq "['Moon landing']")) ∅ 1969%Z).
  lia.
Defined.
